(** * pyfar fractional-octave filter banks: a shallow embedding

    Source: [pyfar/dsp/filter/fractional_octaves.py].

    Conventions of the embedding.
    - Python floats and NumPy [float64] values are real numbers ([R]); every
      arithmetic operation is the exact one.
    - Python ints and NumPy integer arrays are [Z]; NumPy arrays are lists.
    - [np.round] / [np.around] is rounding to the nearest integer, ties to
      the even one ([around]).
    - Exceptions are values of [exn]; code that can raise returns
      [result A = exn + A].
    - [warnings.warn] appends to a log that is threaded through the code
      ([M], a state-and-exception monad over the log). *)

From Stdlib Require Import Reals Lra Lia ZArith.
From stdpp Require Import base decidable option list sorting gmap strings.

#[local] Open Scope R_scope.

(** ** Exceptions, diagnostics, and the two monads *)

Inductive exn : Type :=
  | ValueError (msg : string)
  | KeyError (key : string)
  | TypeError (msg : string)
  | IndexError (msg : string)
  | ZeroDivisionError (msg : string).

(** A warning carries its message and the numbers formatted into it. *)
Inductive warning : Type :=
  | UserWarning (msg : string) (args : list R).

Definition result (A : Type) : Type := (exn + A)%type.

Definition rbind {A B : Type} (m : result A) (k : A -> result B) : result B :=
  match m with
  | inl e => inl e
  | inr a => k a
  end.

#[global] Instance result_ret : MRet result := fun A a => inr a.
#[global] Instance result_bind : MBind result := fun A B k m => rbind m k.
#[global] Instance result_fmap : FMap result :=
  fun A B f m => rbind m (fun a => inr (f a)).

(** The log of emitted warnings is the only ambient state the bank designs
    touch. *)
Definition M (A : Type) : Type := list warning -> result A * list warning.

Definition ret {A : Type} (a : A) : M A := fun log => (inr a, log).
Definition raise {A : Type} (e : exn) : M A := fun log => (inl e, log).
Definition warn (msg : string) (args : list R) : M unit :=
  fun log => (inr tt, log ++ [UserWarning msg args]).
Definition lift {A : Type} (r : result A) : M A := fun log => (r, log).
Definition bind {A B : Type} (m : M A) (k : A -> M B) : M B :=
  fun log =>
    match m log with
    | (inl e, log') => (inl e, log')
    | (inr a, log') => k a log'
    end.

#[global] Instance M_ret : MRet M := @ret.
#[global] Instance M_bind : MBind M := fun A B k m => bind m k.

(** ** Decidable comparisons on reals *)

#[global] Instance Rle_decision (x y : R) : Decision (x <= y) := Rle_dec x y.
#[global] Instance Rlt_decision (x y : R) : Decision (x < y) := Rlt_dec x y.
#[global] Instance Rge_decision (x y : R) : Decision (x >= y) := Rge_dec x y.
#[global] Instance Rgt_decision (x y : R) : Decision (x > y) := Rgt_dec x y.
#[global] Instance Req_decision : EqDecision R := Req_dec_T.

(** ** NumPy primitives *)

(** [np.around] on a scalar: nearest integer, ties to even. *)
Definition around (x : R) : Z :=
  let f := Int_part x in
  let d := x - IZR f in
  if decide (d < 1 / 2) then f
  else if decide (1 / 2 < d) then (f + 1)%Z
  else if Z.even f then f else (f + 1)%Z.

(** [np.arange(a, b + 1)] for integral [a], [b]: the integers [a .. b]. *)
Definition arange_incl (a b : Z) : list Z :=
  map (fun i : nat => (a + Z.of_nat i)%Z) (seq 0 (Z.to_nat (b + 1 - a))).

(** Boolean-mask indexing [xs[mask]]. *)
Fixpoint select {A : Type} (mask : list bool) (xs : list A) : list A :=
  match mask, xs with
  | m :: mask', x :: xs' =>
      if m then x :: select mask' xs' else select mask' xs'
  | _, _ => []
  end.

Definition np_any (mask : list bool) : bool := existsb (fun m => m) mask.
Definition np_all (mask : list bool) : bool := forallb (fun m => m) mask.

Definition log2 (x : R) : R := ln x / ln 2.

(** ** The frequency grid *)

Definition octave_ratio : R := Rpower 10 (3 / 10).
Definition reference_freq : R := 1000.

Definition nominal_octaves : list R :=
  [ 63 / 2; 63; 125; 250; 500; 1000; 2000; 4000; 8000; 16000 ].

Definition nominal_third_octaves : list R :=
  [ 25; 63 / 2; 40; 50; 63; 80; 100; 125; 160;
    200; 250; 315; 400; 500; 630; 800; 1000;
    1250; 1600; 2000; 2500; 3150; 4000; 5000;
    6300; 8000; 10000; 12500; 16000; 20000 ].

(** The table chosen for one or three fractions per octave. *)
Definition iec_table (num_fractions : Z) : list R :=
  if decide (num_fractions = 1%Z) then nominal_octaves
  else nominal_third_octaves.

(** [__center_frequencies_fractional_octaves_iec(nominal, num_fractions)].
    The incoming [nominal] is kept unless [num_fractions] is 1 or 3; a
    [None] that survives makes [nominal / reference_freq] a [TypeError]. *)
Definition center_frequencies_fractional_octaves_iec
    (nominal : option (list R)) (num_fractions : Z)
  : result (list R * list R) :=
  let nominal :=
    if decide (num_fractions = 1%Z) then Some nominal_octaves
    else if decide (num_fractions = 3%Z) then Some nominal_third_octaves
    else nominal in
  match nominal with
  | None => inl (TypeError "unsupported operand type(s) for /")
  | Some nominal =>
      let iseven := Z.eqb (num_fractions mod 2) 0 in
      let exponent (f : R) : R :=
        if negb iseven then
          let indices :=
            IZR (around (IZR num_fractions * ln (f / reference_freq)
                         / ln octave_ratio)) in
          indices / IZR num_fractions
        else
          let indices :=
            IZR (around (2 * IZR num_fractions * ln (f / reference_freq)
                         / ln octave_ratio - 1)) / 2 in
          (2 * indices + 1) / IZR num_fractions / 2 in
      let exact := map (fun f => reference_freq * Rpower octave_ratio (exponent f))
                       nominal in
      inr (nominal, exact)
  end.

(** [__exact_center_frequencies_fractional_octaves(num_fractions, freq_range)];
    [lo] and [hi] are [freq_range[0]] and [freq_range[1]]. *)
Definition exact_center_frequencies_fractional_octaves
    (num_fractions : Z) (lo hi : R) : list R :=
  let ref_freq := 1000 in
  let Nmax := around (IZR num_fractions * log2 (hi / ref_freq)) in
  let Nmin := around (IZR num_fractions * log2 (ref_freq / lo)) in
  let indices := arange_incl (- Nmin) Nmax in
  map (fun i => ref_freq * Rpower 2 (IZR i / IZR num_fractions)) indices.

Record frequencies : Type := mk_frequencies {
  nominal : option (list R);
  exact : list R;
  f_crit : option (list R * list R)
}.

(** [fractional_octave_frequencies(num_fractions, freq_range, return_cutoff)].
    [freq_range] is the array [np.asarray(freq_range)] flattened. *)
Definition fractional_octave_frequencies
    (num_fractions : Z) (freq_range : list R) (return_cutoff : bool)
  : result frequencies :=
  match freq_range with
  | [lo; hi] =>
      if decide (lo > hi) then
        inl (ValueError "The second frequency needs to be higher than the first.")
      else
        ne ← (if decide (num_fractions = 1%Z \/ num_fractions = 3%Z) then
                  (ne ← center_frequencies_fractional_octaves_iec None
                          num_fractions;
                   let mask := map (fun f => bool_decide (f >= lo)
                                             && bool_decide (f <= hi)) ne.1 in
                   inr (Some (select mask ne.1), select mask ne.2))
                else
                  inr (None, exact_center_frequencies_fractional_octaves
                               num_fractions lo hi));
         if return_cutoff then
           if decide (num_fractions = 0%Z) then
             inl (ZeroDivisionError "float division by zero")
           else
           let freqs_upper :=
             map (fun f => f * Rpower octave_ratio (1 / 2 / IZR num_fractions))
                 ne.2 in
           let freqs_lower :=
             map (fun f => f * Rpower octave_ratio (- 1 / 2 / IZR num_fractions))
                 ne.2 in
           inr (mk_frequencies ne.1 ne.2 (Some (freqs_lower, freqs_upper)))
         else
           inr (mk_frequencies ne.1 ne.2 None)
  | _ => inl (ValueError "You need to specify a lower and upper limit frequency.")
  end.

(** ** NumPy slices on one axis *)

(** A slice bound [i] on an axis of length [n]: negative bounds count from
    the end, and the result is clipped to [0 .. n]. *)
Definition slice_bound (n : nat) (i : Z) : nat :=
  Z.to_nat (if decide (i < 0)%Z then Z.max (i + Z.of_nat n) 0
            else Z.min i (Z.of_nat n)).

Definition slice_start (n : nat) (start : option Z) : nat :=
  from_option (slice_bound n) 0%nat start.

Definition slice_stop (n : nat) (stop : option Z) : nat :=
  from_option (slice_bound n) n stop.

(** [row[start:stop] = v] for a scalar [v]. *)
Definition fill_slice (row : list R) (start stop : option Z) (v : R) : list R :=
  let a := slice_start (length row) start in
  let b := slice_stop (length row) stop in
  take a row ++ replicate (b - a) v ++ drop (a + (b - a)) row.

(** [row[start:stop] = vals] for a one-dimensional array [vals]: the shapes
    must agree, except that a single value is broadcast. *)
Definition set_slice (row : list R) (start stop : option Z) (vals : list R)
  : result (list R) :=
  let a := slice_start (length row) start in
  let b := slice_stop (length row) stop in
  if decide (length vals = (b - a)%nat) then
    inr (take a row ++ vals ++ drop (a + (b - a)) row)
  else
    match vals with
    | [v] => inr (fill_slice row start stop v)
    | _ => inl (ValueError "could not broadcast input array")
    end.

(** ** The reconstructing bank: magnitude responses *)

(** [phi -> sin(pi / 2 * phi)], the recursion of Antoni, Eq. (20). *)
Definition warp (phi : R) : R := sin (PI / 2 * phi).

(** Lines 529-539: the ramp over [p = -P .. P], warped [slope] times and
    shifted to the range [0, 1]. *)
Definition ramp (P : Z) (slope : nat) : list R :=
  let p := arange_incl (- P) P in
  let phi := map (fun p => IZR p / IZR P) p in
  let phi := Nat.iter slope (map warp) phi in
  map (fun x => 1 / 2 * (x + 1)) phi.

(** Line 505: the bands whose centre lies below the Nyquist frequency. *)
Definition below_nyquist (sampling_rate : R) (f_m : list R) : list bool :=
  map (fun f => bool_decide (f < sampling_rate / 2)) f_m.

(** Lines 511-516: the DFT lines of an array of frequencies. *)
Definition dft_lines (n_samples : Z) (sampling_rate : R) (f : list R)
  : list Z :=
  map (fun f => around (IZR n_samples * f / sampling_rate)) f.

(** Line 519: the overlap in bins. *)
Definition overlap_bins (overlap : R) (k_m k_2 : list Z) : list Z :=
  zip_with (fun km k2 => around (overlap / 2 * IZR (k2 - km))) k_m k_2.

Definition getitem {A : Type} (xs : list A) (i : nat) : result A :=
  match xs !! i with
  | Some x => inr x
  | None => inl (IndexError "index out of bounds")
  end.

(** Lines 527-551: the body of the loop over [b_idx]. *)
Definition boundary_step (k_1 P : list Z) (slope : nat)
    (g : list (list R)) (b_idx : nat) : result (list (list R)) :=
  Pb ← getitem P b_idx;
  g ← (if decide (Pb > 0)%Z then
         let phi := ramp Pb slope in
         k1 ← getitem k_1 b_idx;
         row ← getitem g (b_idx - 1);
         row ← set_slice row (Some (k1 - Pb)%Z) (Some (k1 + Pb + 1)%Z)
                 (map (fun x => cos (PI / 2 * x)) phi);
         let g := <[(b_idx - 1)%nat := row]> g in
         row ← getitem g b_idx;
         row ← set_slice row (Some (k1 - Pb)%Z) (Some (k1 + Pb + 1)%Z)
                 (map (fun x => sin (PI / 2 * x)) phi);
         inr (<[b_idx := row]> g)
       else inr g);
  k1 ← getitem k_1 b_idx;
  row ← getitem g (b_idx - 1);
  let g := <[(b_idx - 1)%nat := fill_slice row (Some (k1 + Pb)%Z) None 0]> g in
  row ← getitem g b_idx;
  inr (<[b_idx := fill_slice row None (Some (k1 - Pb)%Z) 0]> g).

Definition boundary_loop (k_1 P : list Z) (slope : nat)
    (g : list (list R)) (bs : list nat) : result (list (list R)) :=
  foldl (fun acc b_idx => g ← acc; boundary_step k_1 P slope g b_idx)
        (inr g) bs.

(** Lines 519-555: from the DFT lines [k_1], [k_m], [k_2] to the squared
    magnitude responses [g**2]. *)
Definition magnitude_responses (k_1 k_m k_2 : list Z) (overlap : R)
    (slope : nat) (n_bins : nat) : result (list (list R)) :=
  let P := overlap_bins overlap k_m k_2 in
  let g := replicate (length k_m) (replicate n_bins 1) in
  g ← boundary_loop k_1 P slope g (seq 1 (length k_m - 1));
  inr (map (map (fun x => x ^ 2)) g).

(** ** Dynamically typed values and objects *)

Inductive value : Type :=
  | VNone
  | VInt (z : Z)
  | VFloat (x : R)
  | VStr (s : string)
  | VTuple (xs : list R)
  | VArray (xs : list R)
  | VArray2 (xs : list (list R))
  | VArray3 (xs : list (list (list R))).

(** An object is its [__dict__]. *)
Abbreviation obj := (gmap string value).

Definition as_real (v : value) : result R :=
  match v with
  | VInt z => inr (IZR z)
  | VFloat x => inr x
  | _ => inl (TypeError "a number is required")
  end.

(** The embedding covers integer [num_fractions], [order] and [n_samples]. *)
Definition as_int (v : value) : result Z :=
  match v with
  | VInt z => inr z
  | _ => inl (TypeError "an integer is required")
  end.

(** [np.asarray(v)] flattened; a scalar is an array of size one. Arrays of
    non-numbers are outside the embedding, except that a lone non-number
    still has size one (its content is then never read). *)
Definition np_asarray (v : value) : result (list R) :=
  match v with
  | VInt z => inr [IZR z]
  | VFloat x => inr [x]
  | VNone | VStr _ => inr [0]
  | VArray xs | VTuple xs => inr xs
  | _ => inl (TypeError "a flat sequence of numbers is required")
  end.

Definition getattr (self : obj) (name : string) : result value :=
  match self !! name with
  | Some v => inr v
  | None => inl (KeyError name)
  end.

(** ** The two filter banks *)

Inductive btype : Type := highpass | bandpass.

Definition identity_biquad : list R := [1; 0; 0; 1; 0; 0].

(** Modelled from the spec: [pyfar.classes.filter._extend_sos_coefficients]
    is not part of the sources at hand; the section list is padded up to
    [order] sections with unity-gain passthrough biquads
    [[1, 0, 0, 1, 0, 0]]. *)
Definition _extend_sos_coefficients (sos : list (list R)) (order : Z)
  : list (list R) :=
  sos ++ replicate (Z.to_nat order - length sos) identity_biquad.

(** [np.round(x, decimals=1)]. *)
Definition round1 (x : R) : R := IZR (around (x * 10)) / 10.

Definition skip_msg : string := "Skipping bands above the Nyquist frequency".
Definition highpass_msg : string :=
  "The upper frequency limit {} Hz is above the Nyquist frequency. Using a highpass filter instead of a bandpass".

Section Banks.

(** [scipy.signal.butter(order, Wn, btype=btype, output='sos')]. *)
Variable butter : Z -> list R -> btype -> list (list R).

(** [pyfar.dsp.fft.rfftfreq(n_samples, sampling_rate)],
    [pyfar.dsp.fft.irfft(spec, n_samples, sampling_rate, 'none')] on
    spectra given as (real, imaginary) pairs, and
    [scipy.signal.windows.hann(n)]. *)
Variable rfftfreq : Z -> R -> list R.
Variable irfft : list (list (R * R)) -> Z -> R -> list (list R).
Variable hann : nat -> list R.

(** The initialiser of the superclasses [FilterSOS] and [FilterFIR],
    [super().__init__(coefficients, sampling_rate)], acting on the
    object's [__dict__]. *)
Variable Filter_init : obj -> value -> value -> obj.

(** The text an f-string puts in for a value. *)
Variable format : value -> string.

(** *** [FractionalOctaveBands] *)

(** [sos[idx, :, :] = sos_coeff] on a tensor with [order] sections per
    band. *)
Definition set_band (sos : list (list (list R))) (order : Z) (idx : nat)
    (sos_coeff : list (list R)) : result (list (list (list R))) :=
  if decide (length sos_coeff = Z.to_nat order) then
    inr (<[idx := sos_coeff]> sos)
  else
    match sos_coeff with
    | [section] => inr (<[idx := replicate (Z.to_nat order) section]> sos)
    | _ => inl (ValueError "could not broadcast input array")
    end.

(** Lines 216-232: the body of the loop over [enumerate(Wns)]. *)
Definition band_step (freqs_upper : list R) (order : Z)
    (sos : list (list (list R))) (idx : nat) (Wn : R * R)
  : M (list (list (list R))) :=
  sos_coeff ←
    (if decide (Wn.2 > 1) then
       f ← lift (getitem freqs_upper idx);
       warn highpass_msg [round1 f];;
       let sos_hp := butter order [Wn.1] highpass in
       mret (_extend_sos_coefficients sos_hp order)
     else
       mret (butter order [Wn.1; Wn.2] bandpass));
  lift (set_band sos order idx sos_coeff).

Definition FractionalOctaveBands_get_coefficients (self : obj)
    (sampling_rate : R) (num_fractions : Z) (freq_range : list R)
    (order : Z) : M (list (list (list R))) :=
  fr ← lift (fractional_octave_frequencies num_fractions freq_range true);
  f_crit ← lift (from_option inr (inl (TypeError "not subscriptable"))
                             (f_crit fr));
  let freqs_upper := f_crit.2 in
  let freqs_lower := f_crit.1 in
  let Wns := zip_with (fun l u => (l / sampling_rate * 2,
                                   u / sampling_rate * 2))
                      freqs_lower freqs_upper in
  let mask_skip := map (fun Wn : R * R => bool_decide (Wn.1 >= 1)) Wns in
  Wns' ← (if np_any mask_skip then
            warn skip_msg [];;
            mret (select (map negb mask_skip) Wns)
          else mret Wns);
  let num_bands := length (filter (fun b => b = false) mask_skip) in
  (if decide (order < 0)%Z then
     raise (ValueError "negative dimensions are not allowed")
   else
     let sos := replicate num_bands
                  (replicate (Z.to_nat order) (replicate 6 0)) in
     foldl (fun acc '(idx, Wn) =>
              sos ← acc; band_step freqs_upper order sos idx Wn)
           (mret sos) (imap pair Wns')).

(** [{k: v for k in keep}]: lines 245-252 of [_encode], on a copy of the
    object's [__dict__]. *)
Definition encode_keep (keep : list string) (self : obj) : result obj :=
  let obj_dict := self in
  _ ← mapM (M := result) (getattr obj_dict) keep;
  inr (filter (fun kv : string * value => kv.1 ∈ keep) obj_dict).

Definition FractionalOctaveBands_init
    (num_fractions sampling_rate freq_range order : value) : M obj :=
  let self : obj :=
    <["_order" := order]>
      (<["_freq_range" := freq_range]>
         (<["_sampling_rate" := sampling_rate]>
            (<["_num_fractions" := num_fractions]> ∅))) in
  f_lims ← lift (np_asarray freq_range);
  nf ← lift (as_int num_fractions);
  fr ← lift (fractional_octave_frequencies nf f_lims true);
  f_crit ← lift (from_option inr (inl (TypeError "cannot unpack"))
                             (f_crit fr));
  let self : obj :=
    <["_cutoff_frequencies" := VArray2 [f_crit.1; f_crit.2]]>
      (<["_exact_frequencies" := VArray (exact fr)]>
         (<["_norm_frequencies" := from_option VArray VNone (nominal fr)]>
            self)) in
  sr ← lift (as_real sampling_rate);
  ord ← lift (as_int order);
  coefficients ← FractionalOctaveBands_get_coefficients self sr nf f_lims ord;
  let self := Filter_init self (VArray3 coefficients) sampling_rate in
  mret (<["_comment" :=
           VStr "Second order section 1/{num_fractions} fractional octave bandfilter of order {order}"]>
          self).

(** The property [n_bands]: [len(self._exact_frequencies)]. *)
Definition n_bands (self : obj) : result nat :=
  v ← getattr self "_exact_frequencies";
  match v with
  | VArray xs | VTuple xs => inr (length xs)
  | VArray2 xs => inr (length xs)
  | VArray3 xs => inr (length xs)
  | VStr s => inr (String.length s)
  | _ => inl (TypeError "object has no len()")
  end.

Definition FractionalOctaveBands_encode (self : obj) : result obj :=
  encode_keep ["_num_fractions"; "_freq_range"; "_order"; "_sampling_rate"]
              self.

(** [_decode]: the four stored values are passed to the constructor
    positionally, in the order [_num_fractions], [_freq_range], [_order],
    [_sampling_rate]. *)
Definition FractionalOctaveBands_decode (obj_dict : obj) : M obj :=
  a1 ← lift (getattr obj_dict "_num_fractions");
  a2 ← lift (getattr obj_dict "_freq_range");
  a3 ← lift (getattr obj_dict "_order");
  a4 ← lift (getattr obj_dict "_sampling_rate");
  self ← FractionalOctaveBands_init a1 a2 a3 a4;
  mret (obj_dict ∪ self).

(** *** [ReconstructingFractionalOctaveBands] *)

Definition ReconstructingFractionalOctaveBands_get_coefficients (self : obj)
    (num_fractions : Z) (freq_range : list R) (overlap : R) (slope : Z)
    (n_samples : Z) (sampling_rate : R) : M (list (list R)) :=
  let n_bins := (n_samples / 2 + 1)%Z in
  fr ← lift (fractional_octave_frequencies num_fractions freq_range true);
  f_cut_off ← lift (from_option inr (inl (TypeError "cannot unpack"))
                                (f_crit fr));
  let f_m := exact fr in
  let f_id := below_nyquist sampling_rate f_m in
  (if negb (np_all f_id) then warn skip_msg [] else mret tt);;
  let k_1 := dft_lines n_samples sampling_rate (select f_id f_cut_off.1) in
  let k_m := dft_lines n_samples sampling_rate (select f_id f_m) in
  let k_2 := dft_lines n_samples sampling_rate (select f_id f_cut_off.2) in
  (if decide (n_bins < 0)%Z then
     raise (ValueError "negative dimensions are not allowed")
   else
     g ← lift (magnitude_responses k_1 k_m k_2 overlap (Z.to_nat slope)
                                   (Z.to_nat n_bins));
     let frequencies := rfftfreq n_samples sampling_rate in
     let group_delay := IZR n_samples / 2 / sampling_rate in
     let phase (f : R) : R := - (2 * PI * f * group_delay) in
     let g := map (fun row =>
                     zip_with (fun x f => (x * cos (phase f),
                                           x * sin (phase f)))
                              row frequencies) g in
     let time := irfft g n_samples sampling_rate in
     mret (map (fun row => zip_with Rmult row (hann (length row))) time)).

Definition ReconstructingFractionalOctaveBands_init
    (num_fractions freq_range overlap slope n_samples sampling_rate : value)
  : M obj :=
  ov ← lift (as_real overlap);
  (if decide (ov < 0 \/ ov > 1) then
     raise (ValueError "overlap must be between 0 and 1")
   else
     match slope with
     | VInt sl =>
         if decide (sl < 0)%Z then
           raise (ValueError "slope must be a positive integer.")
         else
           let self : obj :=
             <["_sampling_rate" := sampling_rate]>
               (<["_n_samples" := n_samples]>
                  (<["_slope" := slope]>
                     (<["_overlap" := overlap]>
                        (<["_freq_range" := freq_range]>
                           (<["_num_fractions" := num_fractions]> ∅))))) in
           f_lims ← lift (np_asarray freq_range);
           nf ← lift (as_int num_fractions);
           fr ← lift (fractional_octave_frequencies nf f_lims true);
           f_crit ← lift (from_option inr (inl (TypeError "cannot unpack"))
                                      (f_crit fr));
           let self : obj :=
             <["_cutoff_frequencies" := VArray2 [f_crit.1; f_crit.2]]>
               (<["_exact_frequencies" := VArray (exact fr)]>
                  (<["_norm_frequencies" :=
                       from_option VArray VNone (nominal fr)]> self)) in
           ns ← lift (as_int n_samples);
           sr ← lift (as_real sampling_rate);
           coefficients ←
             ReconstructingFractionalOctaveBands_get_coefficients
               self nf f_lims ov sl ns sr;
           let self := <["_coefficients" := VArray2 coefficients]> self in
           let self := Filter_init self (VArray2 coefficients) sampling_rate in
           mret (<["_comment" :=
                    VStr ("Reconstructing linear phase fractional octave filter bank.(num_fractions="
                          +:+ format num_fractions +:+ ", frequency_range="
                          +:+ format freq_range +:+ ", overlap="
                          +:+ format overlap +:+ ", slope="
                          +:+ format slope +:+ ")")]> self)
     | _ => raise (ValueError "slope must be a positive integer.")
     end).

Definition ReconstructingFractionalOctaveBands_encode (self : obj)
  : result obj :=
  encode_keep ["_num_fractions"; "_freq_range"; "_sampling_rate";
               "_overlap"; "_slope"; "_n_samples"] self.

(** [_decode]: the six stored values are passed positionally, in the order
    [_num_fractions], [_freq_range], [_sampling_rate], [_overlap],
    [_slope], [_n_samples]. *)
Definition ReconstructingFractionalOctaveBands_decode (obj_dict : obj)
  : M obj :=
  a1 ← lift (getattr obj_dict "_num_fractions");
  a2 ← lift (getattr obj_dict "_freq_range");
  a3 ← lift (getattr obj_dict "_sampling_rate");
  a4 ← lift (getattr obj_dict "_overlap");
  a5 ← lift (getattr obj_dict "_slope");
  a6 ← lift (getattr obj_dict "_n_samples");
  self ← ReconstructingFractionalOctaveBands_init a1 a2 a3 a4 a5 a6;
  mret (obj_dict ∪ self).

End Banks.

(** ** Notions used in the statements *)

(** The two cutoff arrays that belong to the exact frequencies [ex]. *)
Definition cutoff_of (num_fractions : Z) (ex : list R) : list R * list R :=
  (map (fun f => f * Rpower octave_ratio (- 1 / 2 / IZR num_fractions)) ex,
   map (fun f => f * Rpower octave_ratio (1 / 2 / IZR num_fractions)) ex).


(** Instances of the external routines, for closed statements: a section
    list of the size [scipy.signal.butter] returns, the frequencies of the
    real DFT, and placeholders where the content plays no role. *)
Definition sample_butter (order : Z) (Wn : list R) (bt : btype)
  : list (list R) :=
  match bt with
  | highpass => replicate (Z.to_nat ((order + 1) / 2)) identity_biquad
  | bandpass => replicate (Z.to_nat order) identity_biquad
  end.

Definition sample_rfftfreq (n_samples : Z) (sampling_rate : R) : list R :=
  map (fun k => IZR k * sampling_rate / IZR n_samples)
      (arange_incl 0 (n_samples / 2)).

Definition sample_irfft (spec : list (list (R * R))) (n_samples : Z)
    (sampling_rate : R) : list (list R) :=
  map (fun _ => replicate (Z.to_nat n_samples) 0) spec.

Definition sample_hann (n : nat) : list R := replicate n 1.

Definition sample_Filter_init (self : obj) (coefficients sampling_rate : value)
  : obj :=
  <["_state" := VNone]>
    (<["_sampling_rate" := sampling_rate]>
       (<["_coefficients" := coefficients]> self)).

Definition sample_format (v : value) : string := "{}".

(** The constructor parameters of a bank as they sit in its [__dict__]:
    those of [FractionalOctaveBands()] and of
    [ReconstructingFractionalOctaveBands()] with their defaults. *)
Definition sample_bank : obj :=
  <["_num_fractions" := VInt 1]>
    (<["_freq_range" := VTuple [20; 20000]]>
       (<["_order" := VInt 14]>
          (<["_sampling_rate" := VInt 44100]>
             (<["_overlap" := VInt 1]>
                (<["_slope" := VInt 0]>
                   (<["_n_samples" := VInt 4096]> ∅)))))).

(** The energy-preserving design, band by band, in the words of the
    specification: the normalised edges of every band, the bands kept, the
    sections of one band, and the warnings of the kept bands. *)
Definition normalized_edges (sampling_rate : R) (f_crit : list R * list R)
  : list (R * R) :=
  zip_with (fun l u => (l / sampling_rate * 2, u / sampling_rate * 2))
           f_crit.1 f_crit.2.

Definition kept_bands (Wns : list (R * R)) : list (R * R) :=
  filter (fun Wn : R * R => Wn.1 < 1) Wns.

Definition spec_band_design (butter : Z -> list R -> btype -> list (list R))
    (order : Z) (Wn : R * R) : list (list R) :=
  if decide (Wn.2 > 1) then
    let sos_hp := butter order [Wn.1] highpass in
    sos_hp ++ replicate (Z.to_nat order - length sos_hp) [1; 0; 0; 1; 0; 0]
  else butter order [Wn.1; Wn.2] bandpass.

#[global] Instance R_inhabited : Inhabited R := populate 0.

Fixpoint highpass_warnings (freqs_upper : list R) (idx : nat)
    (Wns : list (R * R)) : list warning :=
  match Wns with
  | [] => []
  | Wn :: Wns' =>
      (if decide (Wn.2 > 1) then
         [UserWarning highpass_msg [round1 (freqs_upper !!! idx)]]
       else [])
      ++ highpass_warnings freqs_upper (S idx) Wns'
  end.

(** The entry [g[r, j]] of a two-dimensional array, the sum of column [j]
    over all rows, and the value of the shifted ramp [phi] at the offset
    [p] from the centre bin. *)
Definition cell (g : list (list R)) (r j : nat) : R := (g !!! r) !!! j.

Definition column_sum (g : list (list R)) (j : nat) : R :=
  foldr (fun row acc => row !!! j + acc) 0 g.

Definition phi_at (P : Z) (slope : nat) (p : Z) : R :=
  1 / 2 * (Nat.iter slope warp (IZR p / IZR P) + 1).

(** A two-dimensional array of [m] rows and [n] columns. *)
Definition shape (m n : nat) (g : list (list R)) : Prop :=
  length g = m /\ forall r : nat, (r < m)%nat -> length (g !!! r) = n.

(** The sum of [f 0 .. f (k - 1)], and what holds of the array [g] once
    the boundaries up to [b] are done: the rows above [b] are still all
    ones, the squares of the rows up to [b] sum to one in every column, the
    rows below [b] have faded out where the window of [b] ends, and every
    entry so far lies between 0 and 1. *)
Fixpoint sum_upto (f : nat -> R) (k : nat) : R :=
  match k with
  | O => 0
  | S k' => sum_upto f k' + f k'
  end.

Definition loop_invariant (k_1 P : list Z) (m n b : nat)
    (g : list (list R)) : Prop :=
  shape m n g
  /\ (forall r j, (b < r < m)%nat -> (j < n)%nat -> cell g r j = 1)
  /\ (forall j, (j < n)%nat -> sum_upto (fun r => cell g r j ^ 2) (S b) = 1)
  /\ (forall r j k1 Pb,
         (r < b)%nat -> (j < n)%nat ->
         k_1 !! b = Some k1 -> P !! b = Some Pb ->
         (k1 + Pb <= Z.of_nat j)%Z -> cell g r j = 0)
  /\ (forall r j, (r <= b)%nat -> (j < n)%nat -> 0 <= cell g r j <= 1).

(** The index [x] of the band of the [i]-th entry of the standard table:
    the entry 1000 Hz has index 0. *)
Definition iec_band_index (num_fractions : Z) (i : nat) : Z :=
  (Z.of_nat i - (if decide (num_fractions = 1%Z) then 5 else 16))%Z.

(** Every row of [g] has [n] entries, and every entry satisfies [Q]. *)
Definition rows_of (Q : R -> Prop) (n : nat) (g : list (list R)) : Prop :=
  Forall (fun row => length row = n /\ Forall Q row) g.

(** What holds of the array [g] once the boundaries up to [b] are done,
    as to where each row is zero and where it is one: the rows above [b]
    are still all ones; row [b] is one from the end of its window on; every
    row done is zero below its own window and above the window of the next
    boundary, and one in between. *)
Definition support_invariant (k_1 P : list Z) (m n b : nat)
    (g : list (list R)) : Prop :=
  shape m n g
  /\ (forall r j, (b < r < m)%nat -> (j < n)%nat -> cell g r j = 1)
  /\ (forall j, (j < n)%nat ->
                 b = 0%nat \/ (k_1 !!! b + P !!! b <= Z.of_nat j)%Z ->
                 cell g b j = 1)
  /\ (forall r j, (1 <= r <= b)%nat -> (j < n)%nat ->
                   (Z.of_nat j < k_1 !!! r - P !!! r)%Z -> cell g r j = 0)
  /\ (forall r j, (r < b)%nat -> (j < n)%nat ->
                   (k_1 !!! S r + P !!! S r <= Z.of_nat j)%Z ->
                   cell g r j = 0)
  /\ (forall r j, (r < b)%nat -> (j < n)%nat ->
                   r = 0%nat \/ (k_1 !!! r + P !!! r <= Z.of_nat j)%Z ->
                   (Z.of_nat j < k_1 !!! S r - P !!! S r)%Z ->
                   cell g r j = 1).

(** ** The read-only properties of the two banks *)

(** The properties [num_fractions], [freq_range], [order],
    [norm_frequencies], [exact_frequencies], [cutoff_frequencies],
    [sampling_rate], [overlap], [slope] and [n_samples] return the attribute
    of the same name with an underscore in front; [copy] returns a deep copy
    of the object, which for a dictionary of values is the dictionary. *)
Module Bank.

Definition num_fractions (self : obj) : result value :=
  getattr self "_num_fractions".

Definition freq_range (self : obj) : result value :=
  getattr self "_freq_range".

Definition order (self : obj) : result value := getattr self "_order".

Definition norm_frequencies (self : obj) : result value :=
  getattr self "_norm_frequencies".

Definition exact_frequencies (self : obj) : result value :=
  getattr self "_exact_frequencies".

Definition cutoff_frequencies (self : obj) : result value :=
  getattr self "_cutoff_frequencies".

Definition sampling_rate (self : obj) : result value :=
  getattr self "_sampling_rate".

Definition overlap (self : obj) : result value := getattr self "_overlap".

Definition slope (self : obj) : result value := getattr self "_slope".

Definition n_samples (self : obj) : result value :=
  getattr self "_n_samples".

Definition copy (self : obj) : obj := self.

End Bank.

(** * Properties *)

(** ** Rounding *)

Lemma around_near (x : R) (z : Z) : Rabs (x - IZR z) < 1 / 2 -> around x = z.
Proof.
  intros H. apply Rabs_def2 in H as [H1 H2].
  unfold around.
  destruct (base_Int_part x) as [Hf1 Hf2].
  set (f := Int_part x) in *.
  assert (Hcases : f = z \/ f = (z - 1)%Z).
  { assert (IZR f < IZR z + 1) by lra.
    assert (IZR z - 2 < IZR f) by lra.
    rewrite <- plus_IZR in H. apply lt_IZR in H.
    rewrite <- minus_IZR in H0. apply lt_IZR in H0. lia. }
  destruct Hcases as [-> | ->].
  - rewrite decide_True by lra. reflexivity.
  - rewrite minus_IZR in *.
    rewrite decide_False by lra. rewrite decide_True by lra. lia.
Qed.

Lemma around_IZR (z : Z) : around (IZR z) = z.
Proof. apply around_near. rewrite Rminus_diag, Rabs_R0. lra. Qed.

(** ** Standard tables and range filtering *)

Ltac decide_reals :=
  repeat first
    [ rewrite bool_decide_eq_true_2 by lra
    | rewrite bool_decide_eq_false_2 by lra
    | rewrite decide_True by (first [lra | lia | tauto])
    | rewrite decide_False by (first [lra | lia | tauto]) ].

Lemma select_map_filter {A : Type} (p : A -> bool) (P : A -> Prop)
    `{!forall x, Decision (P x)} (xs : list A) :
  (forall x, p x = bool_decide (P x)) ->
  select (map p xs) xs = filter P xs.
Proof.
  intros Hp. induction xs as [|x xs IH]; [reflexivity|].
  cbn [map select]. rewrite filter_cons, Hp, IH.
  destruct (decide (P x)) as [HP|HP].
  - rewrite bool_decide_eq_true_2 by exact HP. reflexivity.
  - rewrite bool_decide_eq_false_2 by exact HP. reflexivity.
Qed.

Lemma in_range_reflect (lo hi f : R) :
  bool_decide (f >= lo) && bool_decide (f <= hi)
  = bool_decide (lo <= f <= hi).
Proof.
  destruct (decide (lo <= f <= hi)) as [H|H].
  - rewrite !bool_decide_eq_true_2 by lra. reflexivity.
  - rewrite (bool_decide_eq_false_2 (lo <= f <= hi)) by exact H.
    apply andb_false_iff.
    destruct (decide (f >= lo)); [right|left];
      apply bool_decide_eq_false_2; lra.
Qed.

Lemma select_in_range (lo hi : R) (xs : list R) :
  select (map (fun f => bool_decide (f >= lo) && bool_decide (f <= hi)) xs) xs
  = filter (fun f => lo <= f <= hi) xs.
Proof. apply select_map_filter. intros x. apply in_range_reflect. Qed.

Lemma length_select_map {A B : Type} (f : A -> B) (mask : list bool)
    (xs : list A) :
  length (select mask (map f xs)) = length (select mask xs).
Proof.
  revert mask. induction xs as [|x xs IH]; intros [|[] mask]; cbn; auto.
Qed.

(** For octaves and third octaves the nominal frequencies are the standard
    table restricted to the entries inside [freq_range], both ends
    included. *)
Lemma iec_nominal_filter (num_fractions : Z) (lo hi : R) (rc : bool) :
  num_fractions = 1%Z \/ num_fractions = 3%Z ->
  lo <= hi ->
  nominal <$> fractional_octave_frequencies num_fractions [lo; hi] rc
  = inr (Some (filter (fun f => lo <= f <= hi) (iec_table num_fractions))).
Proof.
  intros Hnf Hle. unfold fractional_octave_frequencies.
  rewrite decide_False by lra. rewrite decide_True by exact Hnf.
  unfold center_frequencies_fractional_octaves_iec, iec_table.
  pose proof (select_in_range lo hi) as Hsel.
  destruct Hnf as [-> | ->].
  - rewrite decide_True by reflexivity. cbn -[select filter nominal_octaves].
    rewrite Hsel. destruct rc; reflexivity.
  - rewrite decide_False by lia. rewrite decide_True by reflexivity.
    cbn -[select filter nominal_third_octaves].
    rewrite Hsel. destruct rc; reflexivity.
Qed.

Ltac filter_reals :=
  repeat (rewrite filter_cons; decide_reals); rewrite ?filter_nil.

(** C7. [fractional_octave_frequencies(1, (20, 20000))] returns the nominal
    octave sequence 31.5 ... 16000, [fractional_octave_frequencies(3, (20,
    20000))] returns the thirty nominal third-octave frequencies, and
    [fractional_octave_frequencies(1, (100, 4000))] returns 125 ... 4000:
    the standard table restricted to the entries lying in [freq_range],
    ends included. *)
Theorem standard_table_fidelity (rc : bool) :
  nominal <$> fractional_octave_frequencies 1 [20; 20000] rc
  = inr (Some [63 / 2; 63; 125; 250; 500; 1000; 2000; 4000; 8000; 16000])
  /\ nominal <$> fractional_octave_frequencies 3 [20; 20000] rc
     = inr (Some [25; 63 / 2; 40; 50; 63; 80; 100; 125; 160; 200; 250; 315;
                  400; 500; 630; 800; 1000; 1250; 1600; 2000; 2500; 3150;
                  4000; 5000; 6300; 8000; 10000; 12500; 16000; 20000])
  /\ nominal <$> fractional_octave_frequencies 1 [100; 4000] rc
     = inr (Some [125; 250; 500; 1000; 2000; 4000]).
Proof.
  repeat split.
  - rewrite iec_nominal_filter by (first [lra | lia]).
    unfold iec_table, nominal_octaves. rewrite decide_True by reflexivity.
    filter_reals. reflexivity.
  - rewrite iec_nominal_filter by (first [lra | lia]).
    unfold iec_table, nominal_third_octaves. rewrite decide_False by lia.
    filter_reals. reflexivity.
  - rewrite iec_nominal_filter by (first [lra | lia]).
    unfold iec_table, nominal_octaves. rewrite decide_True by reflexivity.
    filter_reals. reflexivity.
Qed.

(** ** The octave ratio *)

Lemma ln_10_pos : 0 < ln 10.
Proof. rewrite <- ln_1. apply ln_increasing; lra. Qed.

Lemma ln_2_pos : 0 < ln 2.
Proof. rewrite <- ln_1. apply ln_increasing; lra. Qed.

Lemma ln_octave_ratio : ln octave_ratio = 3 / 10 * ln 10.
Proof. unfold octave_ratio, Rpower. apply ln_exp. Qed.

Lemma octave_ratio_pos : 0 < octave_ratio.
Proof. apply exp_pos. Qed.

Lemma Rpower_octave_ratio_gt_1 (x : R) : 0 < x -> 1 < Rpower octave_ratio x.
Proof.
  intros Hx. unfold Rpower at 1. rewrite ln_octave_ratio.
  pose proof ln_10_pos.
  assert (0 < x * (3 / 10 * ln 10)) by nra.
  assert (Hne : x * (3 / 10 * ln 10) <> 0) by lra.
  pose proof (exp_ineq1 _ Hne). lra.
Qed.

Lemma Rpower_octave_ratio_inv (x : R) :
  Rpower octave_ratio (- x) * Rpower octave_ratio x = 1.
Proof.
  rewrite <- Rpower_plus. replace (- x + x) with 0 by lra.
  apply Rpower_O. apply octave_ratio_pos.
Qed.

(** ** The frequency grid: success and shape of the result *)

Lemma Forall_select {A : Type} (P : A -> Prop) (mask : list bool) (xs : list A) :
  Forall P xs -> Forall P (select mask xs).
Proof.
  intros H. revert mask. induction H as [|x xs Hx _ IH]; intros [|[] mask];
    cbn; auto.
Qed.

Lemma exact_center_frequencies_pos (num_fractions : Z) (lo hi : R) :
  Forall (fun e => 0 < e)
         (exact_center_frequencies_fractional_octaves num_fractions lo hi).
Proof.
  unfold exact_center_frequencies_fractional_octaves.
  apply Forall_map, Forall_true. intros i. cbn.
  pose proof (exp_pos (IZR i / IZR num_fractions * ln 2)).
  unfold Rpower. lra.
Qed.

(** A well-formed range always yields a grid; its parts are as follows. *)
Lemma fractional_octave_frequencies_ok
    (num_fractions : Z) (lo hi : R) (rc : bool) :
  lo <= hi ->
  (rc = true -> num_fractions <> 0%Z) ->
  exists nom ex,
    fractional_octave_frequencies num_fractions [lo; hi] rc
    = inr (mk_frequencies nom ex
             (if rc then Some (cutoff_of num_fractions ex) else None))
    /\ Forall (fun e => 0 < e) ex
    /\ (num_fractions = 1%Z \/ num_fractions = 3%Z ->
        nom = Some (filter (fun f => lo <= f <= hi) (iec_table num_fractions))
        /\ length ex = length (filter (fun f => lo <= f <= hi)
                                      (iec_table num_fractions)))
    /\ (~ (num_fractions = 1%Z \/ num_fractions = 3%Z) ->
        nom = None
        /\ ex = exact_center_frequencies_fractional_octaves
                  num_fractions lo hi).
Proof.
  intros Hle Hnz. unfold fractional_octave_frequencies.
  rewrite decide_False by lra.
  destruct (decide (num_fractions = 1%Z \/ num_fractions = 3%Z)) as [Hnf|Hnf].
  - assert (Hz : num_fractions <> 0%Z) by lia.
    unfold center_frequencies_fractional_octaves_iec.
    set (tbl := iec_table num_fractions).
    assert (Htbl : (if decide (num_fractions = 1%Z) then Some nominal_octaves
                    else if decide (num_fractions = 3%Z)
                         then Some nominal_third_octaves else None)
                   = Some tbl).
    { unfold tbl, iec_table. destruct Hnf as [-> | ->].
      - rewrite !decide_True by reflexivity. reflexivity.
      - rewrite decide_False by lia. rewrite decide_True by reflexivity.
        reflexivity. }
    rewrite Htbl. cbn -[select filter].
    match goal with
    | |- context [select ?m (map ?f tbl)] =>
        set (mask := m); set (ex := select mask (map f tbl))
    end.
    exists (Some (filter (fun f => lo <= f <= hi) tbl)), ex.
    pose proof (select_in_range lo hi tbl) as Hsel. fold mask in Hsel.
    split; [|split; [|split]].
    + rewrite Hsel.
      destruct rc; [rewrite decide_False by exact Hz|]; reflexivity.
    + apply Forall_select, Forall_map, Forall_true. intros f. cbn.
      unfold reference_freq.
      match goal with |- 0 < 1000 * Rpower ?a ?b =>
        pose proof (exp_pos (b * ln a)); unfold Rpower; lra end.
    + intros _. split; [reflexivity|].
      rewrite <- Hsel. apply length_select_map.
    + intros []. exact Hnf.
  - cbn.
    exists None, (exact_center_frequencies_fractional_octaves num_fractions lo hi).
    split; [|split; [|split]].
    + destruct rc; [|reflexivity].
      rewrite decide_False by (apply Hnz; reflexivity). reflexivity.
    + apply exact_center_frequencies_pos.
    + intros H. destruct (Hnf H).
    + intros _. split; reflexivity.
Qed.

(** ** Cutoff frequencies *)



(** ** Arbitrary fractions *)

Lemma length_arange_incl (a b : Z) :
  length (arange_incl a b) = Z.to_nat (b + 1 - a).
Proof. unfold arange_incl. rewrite length_map, length_seq. reflexivity. Qed.

Lemma arange_incl_lookup (a b i : Z) :
  (a <= i <= b)%Z -> arange_incl a b !! Z.to_nat (i - a) = Some i.
Proof.
  intros H. unfold arange_incl.
  rewrite list_lookup_fmap, lookup_seq_lt by lia. cbn. f_equal. lia.
Qed.

Lemma arange_incl_lookup_nat (a b : Z) (j : nat) :
  (j < Z.to_nat (b + 1 - a))%nat ->
  arange_incl a b !! j = Some (a + Z.of_nat j)%Z.
Proof.
  intros H. unfold arange_incl.
  rewrite list_lookup_fmap, lookup_seq_lt by lia. reflexivity.
Qed.

(** C8, as the code has it. For [num_fractions] other than 0, 1 and 3 and a
    range [0 < low <= high], the exact centre frequencies are
    [1000 * 2^(i / num_fractions)] for every integer [i] from
    [-round(num_fractions * log2(1000 / low))] through
    [round(num_fractions * log2(high / 1000))], in this order and nothing
    else; the nominal output is [None]: no sequence is produced. *)
Theorem exact_center_frequencies (num_fractions : Z) (lo hi : R) (rc : bool) :
  num_fractions <> 1%Z -> num_fractions <> 3%Z -> num_fractions <> 0%Z ->
  0 < lo -> lo <= hi ->
  exists fr,
    fractional_octave_frequencies num_fractions [lo; hi] rc = inr fr
    /\ nominal fr = None
    /\ let first := (- around (IZR num_fractions * log2 (1000 / lo)))%Z in
       let last := around (IZR num_fractions * log2 (hi / 1000)) in
       length (exact fr) = Z.to_nat (last + 1 - first)
       /\ forall i : Z,
            (first <= i <= last)%Z ->
            exact fr !! Z.to_nat (i - first)
            = Some (1000 * Rpower 2 (IZR i / IZR num_fractions)).
Proof.
  intros H1 H3 H0 Hlo Hle.
  destruct (fractional_octave_frequencies_ok num_fractions lo hi rc Hle)
    as (nom & ex & Heq & _ & _ & Hother); [intros _; exact H0|].
  destruct Hother as [-> ->]; [lia|].
  eexists. split; [exact Heq|]. cbn [nominal exact].
  split; [reflexivity|].
  unfold exact_center_frequencies_fractional_octaves.
  split.
  - rewrite length_map. apply length_arange_incl.
  - intros i Hi. rewrite list_lookup_fmap, arange_incl_lookup by exact Hi.
    reflexivity.
Qed.

Lemma exact_center_frequencies_witness :
  2%Z <> 1%Z /\ 2%Z <> 3%Z /\ 2%Z <> 0%Z /\ 0 < 20 /\ 20 <= 20000
  /\ exists fr,
       fractional_octave_frequencies 2 [20; 20000] false = inr fr
       /\ nominal fr = None
       /\ let first := (- around (IZR 2 * log2 (1000 / 20)))%Z in
          let last := around (IZR 2 * log2 (20000 / 1000)) in
          length (exact fr) = Z.to_nat (last + 1 - first)
          /\ forall i : Z,
               (first <= i <= last)%Z ->
               exact fr !! Z.to_nat (i - first)
               = Some (1000 * Rpower 2 (IZR i / IZR 2)).
Proof.
  split; [lia|]. split; [lia|]. split; [lia|]. split; [lra|]. split; [lra|].
  apply (exact_center_frequencies 2 20 20000 false); first [lia | lra].
Defined.

(** C8 as stated fails: with two fractions per octave the nominal output is
    [None], not an empty sequence. *)
Lemma nominal_not_empty_sequence :
  nominal <$> fractional_octave_frequencies 2 [20; 20000] false
  <> inr (Some []).
Proof.
  destruct (fractional_octave_frequencies_ok 2 20 20000 false)
    as (nom & ex & Heq & _ & _ & Hother); [lra | discriminate |].
  destruct Hother as [-> _]; [lia|].
  rewrite Heq. cbn. discriminate.
Qed.

(** ** Validation *)


Ltac unfold_M :=
  unfold mbind, mret, M_bind, M_ret, bind, ret, raise, warn, lift in *.

Section Validation.

Variable rfftfreq : Z -> R -> list R.
Variable irfft : list (list (R * R)) -> Z -> R -> list (list R).
Variable hann : nat -> list R.
Variable Filter_init : obj -> value -> value -> obj.
Variable format : value -> string.





End Validation.

(** ** Determinism *)













(** ** Serialisation *)

Lemma encode_keep_ok (keep : list string) (self : obj) :
  Forall (fun k => is_Some (self !! k)) keep ->
  encode_keep keep self
  = inr (filter (fun kv : string * value => kv.1 ∈ keep) self).
Proof.
  intros Hall. unfold encode_keep.
  assert (Hm : exists vs, mapM (M := result) (getattr self) keep = inr vs).
  { induction Hall as [|k ks [v Hv] _ [vs IH]].
    - exists []. reflexivity.
    - exists (v :: vs). simpl.
      assert (Hg : getattr self k = inr v) by (unfold getattr; rewrite Hv; reflexivity).
      rewrite Hg, IH. reflexivity. }
  destruct Hm as [vs ->]. reflexivity.
Qed.

Lemma lookup_kept (keep : list string) (self : obj) (k : string) :
  k ∈ keep ->
  filter (fun kv : string * value => kv.1 ∈ keep) self !! k = self !! k.
Proof.
  intros Hk. destruct (self !! k) as [v|] eqn:Hv.
  - apply map_lookup_filter_Some. split; [exact Hv | exact Hk].
  - apply map_lookup_filter_None. left. exact Hv.
Qed.

Ltac in_list := repeat first [apply list_elem_of_here | apply list_elem_of_further].

(** C4: the round trip through [_encode] and [_decode] does not give the
    object back, it raises. [_decode] hands the stored values to the
    constructor by position in an order that is not the constructor's: the
    energy-preserving bank receives [_order] as its [freq_range], and the
    reconstructing bank receives [_sampling_rate] as its [overlap]. So for
    every bank object with integer [num_fractions] and an integer order,
    respectively a sampling rate above 1, encoding succeeds and decoding the result raises a
    [ValueError]. *)
Theorem decode_encode_raises
    (butter : Z -> list R -> btype -> list (list R))
    (rfftfreq : Z -> R -> list R)
    (irfft : list (list (R * R)) -> Z -> R -> list (list R))
    (hann : nat -> list R)
    (Filter_init : obj -> value -> value -> obj)
    (format : value -> string)
    (x : obj) (num_fractions : Z) (log : list warning) :
  x !! "_num_fractions" = Some (VInt num_fractions) ->
  (forall k, k ∈ ["_freq_range"; "_sampling_rate"] -> is_Some (x !! k)) ->
  (forall (order : Z),
      x !! "_order" = Some (VInt order) ->
      exists d,
        FractionalOctaveBands_encode x = inr d
        /\ FractionalOctaveBands_decode butter Filter_init d log
           = (inl (ValueError
                     "You need to specify a lower and upper limit frequency."),
              log))
  /\ (forall (sr : value) (s : R),
         x !! "_sampling_rate" = Some sr -> as_real sr = inr s -> 1 < s ->
         (forall k, k ∈ ["_overlap"; "_slope"; "_n_samples"]
                    -> is_Some (x !! k)) ->
         exists d,
           ReconstructingFractionalOctaveBands_encode x = inr d
           /\ ReconstructingFractionalOctaveBands_decode rfftfreq irfft hann
                Filter_init format d log
              = (inl (ValueError "overlap must be between 0 and 1"), log)).
Proof.
  intros H1 Hkeys.
  destruct (Hkeys "_freq_range") as [a2 H2]; [in_list|].
  destruct (Hkeys "_sampling_rate") as [a4 H4]; [in_list|].
  split.
  - intros order Ho.
    eexists. split.
    + unfold FractionalOctaveBands_encode. apply encode_keep_ok.
      repeat constructor; eauto.
    + unfold FractionalOctaveBands_decode, getattr.
      rewrite !lookup_kept by in_list. rewrite H1, H2, Ho, H4.
      unfold FractionalOctaveBands_init. unfold_M. reflexivity.
  - intros sr s Hsr Hs Hgt Hmore.
    destruct (Hmore "_overlap") as [b4 Hb4]; [in_list|].
    destruct (Hmore "_slope") as [b5 Hb5]; [in_list|].
    destruct (Hmore "_n_samples") as [b6 Hb6]; [in_list|].
    eexists. split.
    + unfold ReconstructingFractionalOctaveBands_encode. apply encode_keep_ok.
      repeat constructor; eauto.
    + unfold ReconstructingFractionalOctaveBands_decode, getattr.
      rewrite !lookup_kept by in_list. rewrite H1, H2, Hsr, Hb4, Hb5, Hb6.
      unfold ReconstructingFractionalOctaveBands_init. unfold_M. cbn.
      rewrite Hs. rewrite decide_True by lra. reflexivity.
Qed.

Lemma sample_bank_keys (k : string) :
  k ∈ ["_num_fractions"; "_freq_range"; "_order"; "_sampling_rate";
       "_overlap"; "_slope"; "_n_samples"] ->
  is_Some (sample_bank !! k).
Proof.
  intros Hk.
  repeat (apply elem_of_cons in Hk as [-> | Hk]; [eexists; reflexivity|]).
  apply elem_of_nil in Hk. destruct Hk.
Qed.

Lemma decode_encode_raises_witness :
  sample_bank !! "_num_fractions" = Some (VInt 1)
  /\ (forall k, k ∈ ["_freq_range"; "_sampling_rate"]
                -> is_Some (sample_bank !! k))
  /\ (exists d,
        FractionalOctaveBands_encode sample_bank = inr d
        /\ FractionalOctaveBands_decode sample_butter sample_Filter_init d []
           = (inl (ValueError
                     "You need to specify a lower and upper limit frequency."),
              []))
  /\ (exists d,
        ReconstructingFractionalOctaveBands_encode sample_bank = inr d
        /\ ReconstructingFractionalOctaveBands_decode sample_rfftfreq
             sample_irfft sample_hann sample_Filter_init sample_format d []
           = (inl (ValueError "overlap must be between 0 and 1"), [])).
Proof.
  assert (Hkeys : forall k, k ∈ ["_freq_range"; "_sampling_rate"]
                            -> is_Some (sample_bank !! k)).
  { intros k Hk. apply sample_bank_keys.
    repeat (apply elem_of_cons in Hk as [-> | Hk]; [in_list|]).
    apply elem_of_nil in Hk. destruct Hk. }
  split; [reflexivity|]. split; [exact Hkeys|].
  destruct (decode_encode_raises sample_butter sample_rfftfreq sample_irfft
              sample_hann sample_Filter_init sample_format sample_bank 1 []
              eq_refl Hkeys) as [Hfob Hrec].
  split.
  - apply (Hfob 14%Z). reflexivity.
  - apply (Hrec (VInt 44100) 44100); [reflexivity | reflexivity | lra |].
    intros k Hk. apply sample_bank_keys.
    repeat (apply elem_of_cons in Hk as [-> | Hk]; [in_list|]).
    apply elem_of_nil in Hk. destruct Hk.
Defined.

(** ** The energy-preserving design *)

Lemma select_negb_filter (Wns : list (R * R)) :
  select (map negb (map (fun Wn : R * R => bool_decide (Wn.1 >= 1)) Wns)) Wns
  = kept_bands Wns.
Proof.
  unfold kept_bands. rewrite <- list_fmap_compose.
  apply select_map_filter. intros Wn. cbn.
  destruct (decide (Wn.1 < 1)).
  - rewrite bool_decide_eq_false_2 by lra.
    rewrite bool_decide_eq_true_2 by assumption. reflexivity.
  - rewrite bool_decide_eq_true_2 by lra.
    rewrite bool_decide_eq_false_2 by assumption. reflexivity.
Qed.

Lemma np_any_skip (Wns : list (R * R)) :
  np_any (map (fun Wn : R * R => bool_decide (Wn.1 >= 1)) Wns) = false ->
  kept_bands Wns = Wns.
Proof.
  unfold kept_bands, np_any. induction Wns as [|Wn Wns IH]; [reflexivity|].
  cbn [map existsb]. intros H. apply orb_false_iff in H as [H1 H2].
  apply bool_decide_eq_false in H1.
  rewrite filter_cons, decide_True by lra. rewrite IH by exact H2. reflexivity.
Qed.

Lemma np_any_skip_true (Wns : list (R * R)) :
  np_any (map (fun Wn : R * R => bool_decide (Wn.1 >= 1)) Wns) = true ->
  (length (kept_bands Wns) < length Wns)%nat.
Proof.
  unfold kept_bands, np_any. induction Wns as [|Wn Wns IH]; [discriminate|].
  cbn [map existsb]. intros H. rewrite filter_cons.
  pose proof (length_filter (fun Wn : R * R => Wn.1 < 1) Wns) as Hle.
  destruct (decide (Wn.1 < 1)) as [Hlt|Hge].
  - rewrite bool_decide_eq_false_2 in H by lra. cbn in H |- *.
    specialize (IH H). lia.
  - cbn. lia.
Qed.

Lemma num_bands_kept (Wns : list (R * R)) :
  length (filter (fun b => b = false)
                 (map (fun Wn : R * R => bool_decide (Wn.1 >= 1)) Wns))
  = length (kept_bands Wns).
Proof.
  unfold kept_bands. induction Wns as [|Wn Wns IH]; [reflexivity|].
  cbn [map]. rewrite !filter_cons.
  destruct (decide (Wn.1 < 1)).
  - rewrite bool_decide_eq_false_2 by lra. rewrite decide_True by reflexivity.
    cbn. rewrite IH. reflexivity.
  - rewrite bool_decide_eq_true_2 by lra. rewrite decide_False by discriminate.
    exact IH.
Qed.

Section EnergyDesign.

Variable butter : Z -> list R -> btype -> list (list R).

(** What is assumed of [scipy.signal.butter]: a high-pass of order [N] has
    at most [N] sections, a band-pass of order [N] has [N], and a section
    has six coefficients. *)
Hypothesis butter_highpass : forall N w,
  (length (butter N [w] highpass) <= Z.to_nat N)%nat.
Hypothesis butter_bandpass : forall N w1 w2,
  length (butter N [w1; w2] bandpass) = Z.to_nat N.
Hypothesis butter_sections : forall N Wn bt,
  Forall (fun section => length section = 6%nat) (butter N Wn bt).

Lemma spec_band_design_shape (order : Z) (Wn : R * R) :
  length (spec_band_design butter order Wn) = Z.to_nat order
  /\ Forall (fun section => length section = 6%nat)
            (spec_band_design butter order Wn).
Proof.
  unfold spec_band_design. destruct (decide (Wn.2 > 1)).
  - split.
    + rewrite length_app, length_replicate.
      pose proof (butter_highpass order Wn.1). lia.
    + apply Forall_app. split; [apply butter_sections|].
      apply Forall_replicate. reflexivity.
  - split; [apply butter_bandpass | apply butter_sections].
Qed.

Lemma band_step_spec (freqs_upper : list R) (order : Z)
    (done rest : list (list (list R))) (slot : list (list R)) (Wn : R * R)
    (log : list warning) :
  (length done < length freqs_upper)%nat ->
  band_step butter freqs_upper order (done ++ slot :: rest) (length done) Wn log
  = (inr ((done ++ [spec_band_design butter order Wn]) ++ rest),
     log ++ highpass_warnings freqs_upper (length done) [Wn]).
Proof.
  intros Hidx. unfold band_step, spec_band_design, _extend_sos_coefficients.
  cbn [highpass_warnings]. fold identity_biquad.
  destruct (lookup_lt_is_Some_2 freqs_upper (length done) Hidx) as [f Hf].
  assert (Hins : forall c : list (list R),
            <[length done := c]> (done ++ slot :: rest)
            = (done ++ [c]) ++ rest).
  { intros c. rewrite insert_app_r_alt by lia.
    rewrite Nat.sub_diag. cbn. rewrite <- app_assoc. reflexivity. }
  destruct (decide (Wn.2 > 1)) as [Hhp|Hbp]; unfold_M; unfold getitem, set_band.
  - rewrite Hf. rewrite (list_lookup_total_correct _ _ _ Hf).
    rewrite decide_True.
    + rewrite Hins, app_nil_r. reflexivity.
    + rewrite length_app, length_replicate.
      pose proof (butter_highpass order Wn.1). lia.
  - rewrite decide_True by apply butter_bandpass.
    rewrite Hins, app_nil_r. reflexivity.
Qed.

Lemma band_loop_spec (freqs_upper : list R) (order : Z) (Wns : list (R * R)) :
  forall (done rest : list (list (list R)))
         (acc : M (list (list (list R)))) (log log1 : list warning),
    length rest = length Wns ->
    (length done + length Wns <= length freqs_upper)%nat ->
    acc log = (inr (done ++ rest), log1) ->
    foldl (fun acc '(idx, Wn) =>
             sos ← acc; band_step butter freqs_upper order sos idx Wn)
          acc (imap (fun i Wn => ((length done + i)%nat, Wn)) Wns) log
    = (inr (done ++ map (spec_band_design butter order) Wns),
       log1 ++ highpass_warnings freqs_upper (length done) Wns).
Proof.
  induction Wns as [|Wn Wns IH]; intros done rest acc log log1 Hlen Hup Hacc.
  - destruct rest; [|discriminate]. cbn. rewrite !app_nil_r in *. exact Hacc.
  - destruct rest as [|slot rest]; [discriminate|].
    cbn [imap foldl length] in *.
    set (c := spec_band_design butter order Wn).
    rewrite (imap_ext _ (fun i x => ((length (done ++ [c]) + i)%nat, x)) Wns).
    2:{ intros i x _. cbn. rewrite length_app. cbn. f_equal. lia. }
    rewrite (IH (done ++ [c]) rest _ log
                (log1 ++ highpass_warnings freqs_upper (length done) [Wn])).
    + rewrite <- !app_assoc. cbn [map app highpass_warnings].
      rewrite length_app. cbn [length]. rewrite app_nil_r.
      replace (length done + 1)%nat with (S (length done)) by lia.
      reflexivity.
    + lia.
    + rewrite length_app. cbn. lia.
    + unfold mbind, M_bind, bind. rewrite Hacc.
      rewrite Nat.add_0_r. apply band_step_spec. lia.
Qed.

End EnergyDesign.

(** The design written out: the tensor, the log, the bands kept and the
    shape. *)
Lemma get_coefficients_spec
    (butter : Z -> list R -> btype -> list (list R))
    (self : obj) (sampling_rate : R) (num_fractions : Z) (lo hi : R)
    (order : Z) (log : list warning) :
  (forall N w, (length (butter N [w] highpass) <= Z.to_nat N)%nat) ->
  (forall N w1 w2, length (butter N [w1; w2] bandpass) = Z.to_nat N) ->
  (forall N Wn bt,
      Forall (fun section => length section = 6%nat) (butter N Wn bt)) ->
  0 < sampling_rate -> (1 <= num_fractions)%Z -> lo <= hi -> (1 <= order)%Z ->
  exists fr fc,
    fractional_octave_frequencies num_fractions [lo; hi] true = inr fr
    /\ f_crit fr = Some fc
    /\ let Wns := normalized_edges sampling_rate fc in
       let kept := kept_bands Wns in
       let sos := map (spec_band_design butter order) kept in
       FractionalOctaveBands_get_coefficients butter self sampling_rate
         num_fractions [lo; hi] order log
       = (inr sos,
          log ++ (if decide (length kept < length Wns)%nat
                  then [UserWarning skip_msg []] else [])
              ++ highpass_warnings fc.2 0 kept)
       /\ (forall Wn, Wn ∈ kept <-> Wn ∈ Wns /\ Wn.1 < 1)
       /\ length sos = length kept
       /\ Forall (fun band =>
                    length band = Z.to_nat order
                    /\ Forall (fun section => length section = 6%nat) band)
                 sos.
Proof.
  intros Hhp Hbp Hsec Hsr Hnf Hle Hord.
  destruct (fractional_octave_frequencies_ok num_fractions lo hi true Hle)
    as (nom & ex & Heq & _); [lia|].
  eexists _, _. split; [exact Heq|]. cbn [f_crit]. split; [reflexivity|].
  set (fc := cutoff_of num_fractions ex).
  set (Wns := normalized_edges sampling_rate fc).
  cbv zeta.
  split; [|split; [|split]].
  - unfold FractionalOctaveBands_get_coefficients.
    unfold mbind at 1 2, M_bind, bind, lift. rewrite Heq. cbn [f_crit from_option].
    fold fc. change (zip_with _ fc.1 fc.2) with Wns.
    set (mask_skip := map (fun Wn : R * R => bool_decide (Wn.1 >= 1)) Wns).
    assert (Hup : (length (kept_bands Wns) <= length fc.2)%nat).
    { etransitivity; [apply length_filter|].
      unfold Wns, normalized_edges. rewrite length_zip_with. lia. }
    pose proof (band_loop_spec butter Hhp Hbp (fc.2) order (kept_bands Wns) []
                  (replicate (length (kept_bands Wns))
                             (replicate (Z.to_nat order) (replicate 6 0))))
      as Hloop.
    cbn [length app Nat.add] in Hloop.
    destruct (np_any mask_skip) eqn:Hany.
    + apply np_any_skip_true in Hany as Hlt.
      rewrite (decide_True (P := (length (kept_bands Wns) < length Wns)%nat))
        by exact Hlt.
      unfold mbind, M_bind, bind, warn, mret, M_ret, ret.
      rewrite (decide_False (P := (order < 0)%Z)) by lia.
      unfold mask_skip. rewrite select_negb_filter, (num_bands_kept Wns).
      rewrite (imap_ext pair (fun i Wn => (i, Wn)) _) by reflexivity.
      erewrite Hloop; [| apply length_replicate | exact Hup | reflexivity].
      rewrite <- app_assoc. reflexivity.
    + apply np_any_skip in Hany as Hall.
      rewrite (decide_False (P := (length (kept_bands Wns) < length Wns)%nat))
        by (rewrite Hall; lia).
      unfold mbind, M_bind, bind, mret, M_ret, ret.
      rewrite (decide_False (P := (order < 0)%Z)) by lia.
      unfold mask_skip. rewrite (num_bands_kept Wns).
      rewrite Hall in Hloop, Hup |- *.
      rewrite (imap_ext pair (fun i Wn => (i, Wn)) _) by reflexivity.
      erewrite Hloop; [| apply length_replicate | exact Hup | reflexivity].
      reflexivity.
  - intros Wn. unfold kept_bands. rewrite list_elem_of_filter. tauto.
  - apply length_map.
  - apply Forall_map, Forall_true. intros Wn.
    apply spec_band_design_shape; assumption.
Qed.




Lemma sample_butter_highpass (N : Z) (w : R) :
  (length (sample_butter N [w] highpass) <= Z.to_nat N)%nat.
Proof.
  cbn. rewrite length_replicate.
  assert ((N + 1) / 2 < Z.max N 0 + 1)%Z
    by (apply Z.div_lt_upper_bound; lia).
  lia.
Qed.

Lemma sample_butter_bandpass (N : Z) (w1 w2 : R) :
  length (sample_butter N [w1; w2] bandpass) = Z.to_nat N.
Proof. cbn. apply length_replicate. Qed.

Lemma sample_butter_sections (N : Z) (Wn : list R) (bt : btype) :
  Forall (fun section => length section = 6%nat) (sample_butter N Wn bt).
Proof. destruct bt; cbn; apply Forall_replicate; reflexivity. Qed.


(** ** Bands at the Nyquist frequency *)


Example octave_grid_900_1900 :
  fractional_octave_frequencies 1 [900; 1900] true
  = inr (mk_frequencies (Some [1000]) [1000] (Some (cutoff_of 1 [1000]))).
Proof.
  unfold fractional_octave_frequencies.
  rewrite decide_False by lra. rewrite decide_True by (left; reflexivity).
  unfold center_frequencies_fractional_octaves_iec.
  rewrite decide_True by reflexivity.
  cbn -[select map nominal_octaves around Rpower ln].
  unfold nominal_octaves. cbn [map]. decide_reals.
  cbn [andb select]. change (negb (1 `mod` 2 =? 0)%Z) with true. cbv iota.
  assert (He : reference_freq
               * Rpower octave_ratio
                   (IZR (around (1 * ln (1000 / reference_freq)
                                 / ln octave_ratio)) / 1) = 1000).
  { unfold reference_freq.
    replace (1000 / 1000) with 1 by lra. rewrite ln_1.
    replace (1 * 0 / ln octave_ratio) with (IZR 0) by (unfold Rdiv; ring).
    rewrite around_IZR. replace (0 / 1) with 0 by lra.
    rewrite Rpower_O by apply octave_ratio_pos. lra. }
  rewrite He. reflexivity.
Qed.






(** The index of a nominal frequency on the octave grid, from bounds on
    [x^20] by powers of ten. *)
Lemma around_octave_index (x : R) (k : Z) (m n : nat) :
  0 < x -> 10 ^ m < x ^ 20 -> x ^ 20 < 10 ^ n ->
  (6 * k - 3 <= Z.of_nat m)%Z -> (Z.of_nat n <= 6 * k + 3)%Z ->
  around (1 * ln x / ln octave_ratio) = k.
Proof.
  intros Hx Hlo Hhi Hm Hn. apply around_near.
  apply IZR_le in Hm, Hn. rewrite <- INR_IZR_INZ in Hm, Hn.
  rewrite ln_octave_ratio. pose proof ln_10_pos as HL.
  assert (Hx20 : 0 < x ^ 20) by (apply pow_lt; exact Hx).
  apply ln_increasing in Hlo; [|apply pow_lt; lra].
  apply ln_increasing in Hhi; [|exact Hx20].
  rewrite !ln_pow in Hlo, Hhi by lra.
  assert (H20 : INR 20 = 20) by (simpl; lra). rewrite H20 in Hlo, Hhi.
  rewrite minus_IZR, mult_IZR in Hm. rewrite plus_IZR, mult_IZR in Hn.
  set (L := ln 10) in *. set (d := 3 / 10 * L).
  assert (Hd : 0 < d) by (unfold d; lra).
  assert (Ht : 1 * ln x / d * d = ln x) by (field; lra).
  set (t := 1 * ln x / d) in *.
  assert (Hm' : (6 * IZR k - 3) * L <= INR m * L)
    by (apply Rmult_le_compat_r; lra).
  assert (Hn' : INR n * L <= (6 * IZR k + 3) * L)
    by (apply Rmult_le_compat_r; lra).
  apply Rabs_def1; apply Rmult_lt_reg_r with d; try exact Hd; unfold d in *; lra.
Qed.


Lemma octave_ratio_power_ge (x b : R) (p : nat) :
  0 < b -> b ^ 20 <= 10 ^ p -> INR p <= 6 * x -> b <= Rpower octave_ratio x.
Proof.
  intros Hb Hpow Hp. unfold Rpower. rewrite ln_octave_ratio.
  rewrite <- (exp_ln b) at 1 by exact Hb.
  pose proof ln_10_pos as HL.
  assert (Hb20 : 0 < b ^ 20) by (apply pow_lt; exact Hb).
  assert (Hln : ln (b ^ 20) <= ln (10 ^ p)).
  { destruct Hpow as [Hlt | Heq].
    - left. apply ln_increasing; assumption.
    - right. rewrite Heq. reflexivity. }
  rewrite !ln_pow in Hln by lra.
  assert (H20 : INR 20 = 20) by (simpl; lra). rewrite H20 in Hln.
  assert (INR p * ln 10 <= 6 * x * ln 10) by (apply Rmult_le_compat_r; lra).
  destruct (Rle_lt_dec (ln b) (x * (3 / 10 * ln 10))) as [Hle | Hgt].
  - destruct Hle as [Hlt | Heq].
    + left. apply exp_increasing. exact Hlt.
    + right. rewrite Heq. reflexivity.
  - lra.
Qed.


(** ** Slices *)

Lemma slice_bound_le (n : nat) (i : Z) : (slice_bound n i <= n)%nat.
Proof. unfold slice_bound. destruct (decide (i < 0)%Z); lia. Qed.

Lemma slice_bound_nonneg (n : nat) (i : Z) :
  (0 <= i <= Z.of_nat n)%Z -> slice_bound n i = Z.to_nat i.
Proof. intros H. unfold slice_bound. rewrite decide_False by lia. lia. Qed.

Lemma length_splice (row mid : list R) (a : nat) :
  (a + length mid <= length row)%nat ->
  length (take a row ++ mid ++ drop (a + length mid) row) = length row.
Proof.
  intros H. rewrite !length_app, length_take, length_drop. lia.
Qed.

Lemma lookup_total_splice (row mid : list R) (a j : nat) :
  (a + length mid <= length row)%nat ->
  (take a row ++ mid ++ drop (a + length mid) row) !!! j
  = if decide (a <= j < a + length mid)%nat then mid !!! (j - a)%nat
    else row !!! j.
Proof.
  intros H.
  assert (Ha : length (take a row) = a) by (rewrite length_take; lia).
  destruct (decide (j < a)%nat) as [Hlt|Hge].
  - rewrite decide_False by lia.
    rewrite lookup_total_app_l by lia.
    rewrite lookup_total_take, decide_True by lia. reflexivity.
  - rewrite lookup_total_app_r by lia. rewrite Ha.
    destruct (decide (a <= j < a + length mid)%nat) as [Hin|Hout].
    + rewrite lookup_total_app_l by lia. reflexivity.
    + rewrite lookup_total_app_r by lia.
      rewrite lookup_total_drop. f_equal. lia.
Qed.

Lemma length_fill_slice (row : list R) (start stop : option Z) (v : R) :
  length (fill_slice row start stop v) = length row.
Proof.
  unfold fill_slice.
  set (a := slice_start (length row) start).
  set (b := slice_stop (length row) stop).
  assert (a <= length row)%nat.
  { unfold a, slice_start. destruct start; cbn; [apply slice_bound_le | lia]. }
  assert (b <= length row)%nat.
  { unfold b, slice_stop. destruct stop; cbn; [apply slice_bound_le | lia]. }
  rewrite <- (length_replicate (b - a) v) at 2.
  apply length_splice. rewrite length_replicate. lia.
Qed.

Lemma lookup_total_fill_slice (row : list R) (start stop : option Z) (v : R)
    (j : nat) :
  (j < length row)%nat ->
  fill_slice row start stop v !!! j
  = if decide (slice_start (length row) start <= j
               < slice_stop (length row) stop)%nat
    then v else row !!! j.
Proof.
  intros Hj. unfold fill_slice.
  set (a := slice_start (length row) start).
  set (b := slice_stop (length row) stop).
  assert (a <= length row)%nat.
  { unfold a, slice_start. destruct start; cbn; [apply slice_bound_le | lia]. }
  assert (b <= length row)%nat.
  { unfold b, slice_stop. destruct stop; cbn; [apply slice_bound_le | lia]. }
  rewrite <- (length_replicate (b - a) v) at 2.
  rewrite lookup_total_splice by (rewrite length_replicate; lia).
  rewrite length_replicate.
  destruct (decide (a <= j < a + (b - a))%nat) as [Hin|Hout].
  - rewrite decide_True by lia. apply lookup_total_replicate_2. lia.
  - rewrite decide_False by lia. reflexivity.
Qed.

(** Zeroing from a bin on, and up to a bin. *)
Lemma lookup_total_fill_from (row : list R) (s : Z) (v : R) (j : nat) :
  (0 <= s)%Z -> (j < length row)%nat ->
  fill_slice row (Some s) None v !!! j
  = if decide (s <= Z.of_nat j)%Z then v else row !!! j.
Proof.
  intros Hs Hj. rewrite lookup_total_fill_slice by exact Hj.
  cbn [slice_start slice_stop from_option]. unfold slice_bound.
  rewrite (decide_False (P := (s < 0)%Z)) by lia.
  destruct (decide (s <= Z.of_nat j)%Z).
  - rewrite decide_True by lia. reflexivity.
  - rewrite decide_False by lia. reflexivity.
Qed.

Lemma lookup_total_fill_upto (row : list R) (s : Z) (v : R) (j : nat) :
  (0 <= s)%Z -> (j < length row)%nat ->
  fill_slice row None (Some s) v !!! j
  = if decide (Z.of_nat j < s)%Z then v else row !!! j.
Proof.
  intros Hs Hj. rewrite lookup_total_fill_slice by exact Hj.
  cbn [slice_start slice_stop from_option]. unfold slice_bound.
  rewrite (decide_False (P := (s < 0)%Z)) by lia.
  destruct (decide (Z.of_nat j < s)%Z).
  - rewrite decide_True by lia. reflexivity.
  - rewrite decide_False by lia. reflexivity.
Qed.

(** A window that fits accepts an array of its own length. *)
Lemma set_slice_fits (row vals : list R) (a b : Z) :
  (0 <= a)%Z -> (b <= Z.of_nat (length row))%Z ->
  Z.of_nat (length vals) = (b - a)%Z ->
  exists row',
    set_slice row (Some a) (Some b) vals = inr row'
    /\ length row' = length row
    /\ forall j : nat,
         row' !!! j
         = if decide (a <= Z.of_nat j < b)%Z then vals !!! (j - Z.to_nat a)%nat
           else row !!! j.
Proof.
  intros Ha Hb Hlen. unfold set_slice.
  cbn [slice_start slice_stop from_option].
  rewrite !slice_bound_nonneg by lia.
  rewrite decide_True by lia.
  replace (Z.to_nat b - Z.to_nat a)%nat with (length vals) by lia.
  eexists. split; [reflexivity|]. split.
  - apply length_splice. lia.
  - intros j. rewrite lookup_total_splice by lia.
    destruct (decide (a <= Z.of_nat j < b)%Z).
    + rewrite decide_True by lia. reflexivity.
    + rewrite decide_False by lia. reflexivity.
Qed.

(** ** The transition ramp *)

Lemma iter_map {A : Type} (f : A -> A) (n : nat) (l : list A) :
  Nat.iter n (map f) l = map (Nat.iter n f) l.
Proof.
  induction n as [|n IH].
  - symmetry. apply list_fmap_id.
  - rewrite Nat.iter_succ, IH, <- list_fmap_compose. reflexivity.
Qed.

Lemma ramp_map (P : Z) (slope : nat) :
  ramp P slope = map (phi_at P slope) (arange_incl (- P) P).
Proof.
  unfold ramp, phi_at. rewrite iter_map, <- !list_fmap_compose. reflexivity.
Qed.

Lemma length_ramp (P : Z) (slope : nat) :
  length (ramp P slope) = Z.to_nat (2 * P + 1).
Proof.
  rewrite ramp_map, length_map, length_arange_incl. f_equal. lia.
Qed.

Lemma ramp_lookup_total (P : Z) (slope : nat) (i : nat) :
  (Z.of_nat i <= 2 * P)%Z ->
  ramp P slope !!! i = phi_at P slope (Z.of_nat i - P).
Proof.
  intros Hi. apply list_lookup_total_correct.
  rewrite ramp_map, list_lookup_fmap.
  rewrite arange_incl_lookup_nat by lia.
  cbn. do 2 f_equal. lia.
Qed.

Lemma iter_warp_bounds (slope : nat) (x : R) :
  -1 <= x <= 1 -> -1 <= Nat.iter slope warp x <= 1.
Proof.
  intros Hx. destruct slope as [|n]; [exact Hx|].
  rewrite Nat.iter_succ. unfold warp. apply SIN_bound.
Qed.

Lemma iter_warp_0 (slope : nat) : Nat.iter slope warp 0 = 0.
Proof.
  induction slope as [|n IH]; [reflexivity|].
  rewrite Nat.iter_succ, IH. unfold warp. rewrite Rmult_0_r. apply sin_0.
Qed.

Lemma iter_warp_1 (slope : nat) : Nat.iter slope warp 1 = 1.
Proof.
  induction slope as [|n IH]; [reflexivity|].
  rewrite Nat.iter_succ, IH. unfold warp. rewrite Rmult_1_r. apply sin_PI2.
Qed.

Lemma warp_opp (x : R) : warp (- x) = - warp x.
Proof.
  unfold warp. replace (PI / 2 * - x) with (- (PI / 2 * x)) by ring.
  apply sin_neg.
Qed.

Lemma iter_warp_opp (slope : nat) (x : R) :
  Nat.iter slope warp (- x) = - Nat.iter slope warp x.
Proof.
  induction slope as [|n IH]; [reflexivity|].
  rewrite !Nat.iter_succ, IH. apply warp_opp.
Qed.

Lemma phi_at_bounds (P : Z) (slope : nat) (p : Z) :
  (0 < P)%Z -> (- P <= p <= P)%Z -> 0 <= phi_at P slope p <= 1.
Proof.
  intros HP Hp. unfold phi_at.
  assert (HPr : 0 < IZR P) by (apply IZR_lt; exact HP).
  assert (H1 : -1 <= IZR p / IZR P <= 1).
  { destruct Hp as [Hl Hu]. apply IZR_le in Hl, Hu. rewrite opp_IZR in Hl.
    split.
    - apply Rmult_le_reg_r with (IZR P); [exact HPr|].
      unfold Rdiv. rewrite Rmult_assoc, Rinv_l by lra. lra.
    - apply Rmult_le_reg_r with (IZR P); [exact HPr|].
      unfold Rdiv. rewrite Rmult_assoc, Rinv_l by lra. lra. }
  pose proof (iter_warp_bounds slope _ H1). lra.
Qed.

Lemma phi_at_centre (P : Z) (slope : nat) : phi_at P slope 0 = 1 / 2.
Proof.
  unfold phi_at. replace (0 / IZR P) with 0 by (unfold Rdiv; ring).
  rewrite iter_warp_0. lra.
Qed.

Lemma phi_at_last (P : Z) (slope : nat) : (0 < P)%Z -> phi_at P slope P = 1.
Proof.
  intros HP. apply IZR_lt in HP. unfold phi_at.
  replace (IZR P / IZR P) with 1 by (field; lra).
  rewrite iter_warp_1. lra.
Qed.

Lemma phi_at_first (P : Z) (slope : nat) :
  (0 < P)%Z -> phi_at P slope (- P) = 0.
Proof.
  intros HP. apply IZR_lt in HP. unfold phi_at. rewrite opp_IZR.
  replace (- IZR P / IZR P) with (Ropp 1) by (field; lra).
  rewrite iter_warp_opp, iter_warp_1. lra.
Qed.

Lemma phi_at_linear (P : Z) (p : Z) :
  phi_at P 0 p = 1 / 2 * (IZR p / IZR P + 1).
Proof. reflexivity. Qed.

(** ** Sine and cosine fades *)

Lemma quarter_turn_bounds (phi : R) :
  0 <= phi <= 1 -> 0 <= PI / 2 * phi <= PI / 2.
Proof. intros H. pose proof PI_RGT_0. split; nra. Qed.

Lemma fade_bounds (phi : R) :
  0 <= phi <= 1 ->
  0 <= cos (PI / 2 * phi) <= 1 /\ 0 <= sin (PI / 2 * phi) <= 1.
Proof.
  intros H. pose proof (quarter_turn_bounds phi H) as [H0 H1].
  pose proof PI_RGT_0.
  split; split.
  - apply cos_ge_0; lra.
  - apply COS_bound.
  - apply sin_ge_0; lra.
  - apply SIN_bound.
Qed.

Lemma fade_squares (x : R) : cos x ^ 2 + sin x ^ 2 = 1.
Proof.
  pose proof (sin2_cos2 x) as H. unfold Rsqr in H. simpl. lra.
Qed.

Lemma fade_half :
  cos (PI / 2 * (1 / 2)) ^ 2 = 1 / 2 /\ sin (PI / 2 * (1 / 2)) ^ 2 = 1 / 2.
Proof.
  replace (PI / 2 * (1 / 2)) with (PI / 4) by lra.
  rewrite sin_PI4, cos_PI4.
  assert (H2 : sqrt 2 * sqrt 2 = 2) by (apply sqrt_sqrt; lra).
  assert (Hpos : 0 < sqrt 2) by (apply sqrt_lt_R0; lra).
  assert (Hne : sqrt 2 <> 0) by lra.
  assert (1 / sqrt 2 * (1 / sqrt 2) = 1 / 2).
  { field_simplify; [|exact Hne]. rewrite <- (Rmult_1_r (sqrt 2 ^ 2)).
    simpl pow. rewrite Rmult_1_r, Rmult_1_r, H2. reflexivity. }
  simpl pow. rewrite Rmult_1_r. split; assumption.
Qed.

(** ** One band boundary *)

Lemma lookup_total_map_R (f : R -> R) (l : list R) (i : nat) :
  (i < length l)%nat -> map f l !!! i = f (l !!! i).
Proof. apply list_lookup_total_fmap. Qed.

Lemma lookup_total_map_rows (f : list R -> list R) (g : list (list R))
    (r : nat) :
  (r < length g)%nat -> map f g !!! r = f (g !!! r).
Proof. apply list_lookup_total_fmap. Qed.

Lemma getitem_lt {A : Type} `{!Inhabited A} (xs : list A) (i : nat) :
  (i < length xs)%nat -> getitem xs i = inr (xs !!! i).
Proof.
  intros Hi. unfold getitem.
  rewrite (list_lookup_lookup_total_lt xs i Hi). reflexivity.
Qed.

Lemma getitem_Some {A : Type} (xs : list A) (i : nat) (x : A) :
  xs !! i = Some x -> getitem xs i = inr x.
Proof. intros H. unfold getitem. rewrite H. reflexivity. Qed.

Lemma shape_insert (m n : nat) (g : list (list R)) (r : nat) (row : list R) :
  shape m n g -> length row = n -> shape m n (<[r := row]> g).
Proof.
  intros [Hm Hrows] Hrow. split; [rewrite length_insert; exact Hm|].
  intros r' Hr'. destruct (decide (r = r')) as [->|Hne].
  - rewrite list_lookup_total_insert_eq by lia. exact Hrow.
  - rewrite list_lookup_total_insert_ne by exact Hne. apply Hrows, Hr'.
Qed.

(** The rows a boundary leaves behind: every window that tapers fits, the
    two adjacent rows receive the cosine and the sine of the ramp over the
    window and are then zeroed above, respectively below, and no other row
    changes. *)
Lemma boundary_step_rows (k_1 P : list Z) (slope : nat) (g : list (list R))
    (m n b : nat) (k1 Pb : Z) :
  shape m n g -> (1 <= b < m)%nat ->
  k_1 !! b = Some k1 -> P !! b = Some Pb ->
  ((0 < Pb)%Z -> (0 <= k1 - Pb)%Z /\ (k1 + Pb < Z.of_nat n)%Z) ->
  exists g' rowA rowB,
    boundary_step k_1 P slope g b = inr g'
    /\ shape m n g'
    /\ (forall r, r <> (b - 1)%nat -> r <> b -> g' !!! r = g !!! r)
    /\ g' !!! (b - 1)%nat = fill_slice rowA (Some (k1 + Pb)%Z) None 0
    /\ g' !!! b = fill_slice rowB None (Some (k1 - Pb)%Z) 0
    /\ length rowA = n /\ length rowB = n
    /\ forall j : nat,
         rowA !!! j
         = (if decide (0 < Pb /\ k1 - Pb <= Z.of_nat j <= k1 + Pb)%Z
            then cos (PI / 2 * phi_at Pb slope (Z.of_nat j - k1))
            else (g !!! (b - 1)%nat) !!! j)
         /\ rowB !!! j
            = (if decide (0 < Pb /\ k1 - Pb <= Z.of_nat j <= k1 + Pb)%Z
               then sin (PI / 2 * phi_at Pb slope (Z.of_nat j - k1))
               else (g !!! b) !!! j).
Proof.
  intros [Hm Hrows] Hb Hk1 HP Hfit.
  assert (HlenA : length (g !!! (b - 1)%nat) = n) by (apply Hrows; lia).
  assert (HlenB : length (g !!! b) = n) by (apply Hrows; lia).
  unfold boundary_step.
  rewrite (getitem_Some _ _ _ HP). cbn [mbind result_bind rbind].
  rewrite (getitem_Some _ _ _ Hk1). cbn [mbind result_bind rbind].
  assert (Hfinish : forall (g2 : list (list R)),
    shape m n g2 ->
    (forall r, r <> (b - 1)%nat -> r <> b -> g2 !!! r = g !!! r) ->
    exists g',
      (row ← getitem g2 (b - 1);
       let g3 := <[(b - 1)%nat := fill_slice row (Some (k1 + Pb)%Z) None 0]> g2 in
       row ← getitem g3 b;
       inr (<[b := fill_slice row None (Some (k1 - Pb)%Z) 0]> g3)) = inr g'
      /\ shape m n g'
      /\ (forall r, r <> (b - 1)%nat -> r <> b -> g' !!! r = g !!! r)
      /\ g' !!! (b - 1)%nat
         = fill_slice (g2 !!! (b - 1)%nat) (Some (k1 + Pb)%Z) None 0
      /\ g' !!! b = fill_slice (g2 !!! b) None (Some (k1 - Pb)%Z) 0).
  { intros g2 [Hm2 Hrows2] Hframe.
    rewrite getitem_lt by lia. cbn [mbind result_bind rbind]. cbv zeta.
    rewrite getitem_lt by (rewrite length_insert; lia).
    cbn [mbind result_bind rbind].
    rewrite (list_lookup_total_insert_ne g2 (b - 1) b) by lia.
    eexists. split; [reflexivity|]. split; [|split; [|split]].
    - apply shape_insert; [apply shape_insert; [split; assumption|]|].
      + rewrite length_fill_slice. apply Hrows2. lia.
      + rewrite length_fill_slice. apply Hrows2. lia.
    - intros r Hr1 Hr2.
      rewrite !list_lookup_total_insert_ne by lia. apply Hframe; assumption.
    - rewrite list_lookup_total_insert_ne by lia.
      rewrite list_lookup_total_insert_eq by lia. reflexivity.
    - rewrite list_lookup_total_insert_eq by (rewrite length_insert; lia).
      reflexivity. }
  destruct (decide (Pb > 0)%Z) as [Hpos|Hnpos].
  - destruct Hfit as [Hlo Hhi]; [lia|].
    rewrite getitem_lt by lia. cbn [mbind result_bind rbind].
    destruct (set_slice_fits (g !!! (b - 1)%nat)
                (map (fun x => cos (PI / 2 * x)) (ramp Pb slope))
                (k1 - Pb) (k1 + Pb + 1))
      as (rowA & HsetA & HlA & HcellA);
      [lia | lia | rewrite length_map, length_ramp; lia |].
    rewrite HsetA. cbn [mbind result_bind rbind].
    rewrite getitem_lt by (rewrite length_insert; lia).
    cbn [mbind result_bind rbind].
    rewrite (list_lookup_total_insert_ne g (b - 1) b) by lia.
    destruct (set_slice_fits (g !!! b)
                (map (fun x => sin (PI / 2 * x)) (ramp Pb slope))
                (k1 - Pb) (k1 + Pb + 1))
      as (rowB & HsetB & HlB & HcellB);
      [lia | lia | rewrite length_map, length_ramp; lia |].
    rewrite HsetB. cbn [mbind result_bind rbind].
    set (g2 := <[b := rowB]> (<[(b - 1)%nat := rowA]> g)).
    destruct (Hfinish g2) as (g' & Hg' & Hshape & Hframe & HA & HB).
    { apply shape_insert; [apply shape_insert; [split; assumption|]|]; lia. }
    { intros r Hr1 Hr2. unfold g2.
      rewrite !list_lookup_total_insert_ne by lia. reflexivity. }
    exists g', rowA, rowB. split; [exact Hg'|]. split; [exact Hshape|].
    split; [exact Hframe|].
    assert (HgA : g2 !!! (b - 1)%nat = rowA).
    { unfold g2. rewrite list_lookup_total_insert_ne by lia.
      apply list_lookup_total_insert_eq. lia. }
    assert (HgB : g2 !!! b = rowB).
    { unfold g2. apply list_lookup_total_insert_eq.
      rewrite length_insert. lia. }
    rewrite HgA in HA. rewrite HgB in HB.
    split; [exact HA|]. split; [exact HB|].
    split; [lia|]. split; [lia|].
    intros j. rewrite HcellA, HcellB.
    destruct (decide (k1 - Pb <= Z.of_nat j < k1 + Pb + 1)%Z) as [Hin|Hout].
    + rewrite !decide_True by lia.
      rewrite !lookup_total_map_R by (rewrite length_ramp; lia).
      rewrite ramp_lookup_total by lia.
      replace (Z.of_nat (j - Z.to_nat (k1 - Pb)) - Pb)%Z
        with (Z.of_nat j - k1)%Z by lia.
      split; reflexivity.
    + rewrite !decide_False by lia. split; reflexivity.
  - cbn [mret result_ret mbind result_bind rbind].
    destruct (Hfinish g) as (g' & Hg' & Hshape & Hframe & HA & HB).
    { split; assumption. }
    { reflexivity. }
    exists g', (g !!! (b - 1)%nat), (g !!! b).
    split; [exact Hg'|]. split; [exact Hshape|]. split; [exact Hframe|].
    split; [exact HA|]. split; [exact HB|].
    split; [exact HlenA|]. split; [exact HlenB|].
    intros j. rewrite !decide_False by lia. split; reflexivity.
Qed.

(** ** The loop over the band boundaries *)

Lemma boundary_loop_cons (k_1 P : list Z) (slope : nat)
    (g g1 : list (list R)) (b : nat) (bs : list nat) :
  boundary_step k_1 P slope g b = inr g1 ->
  boundary_loop k_1 P slope g (b :: bs) = boundary_loop k_1 P slope g1 bs.
Proof.
  intros Hstep. unfold boundary_loop. cbn [foldl].
  cbn [mbind result_bind rbind]. rewrite Hstep. reflexivity.
Qed.

Lemma boundary_loop_raise (k_1 P : list Z) (slope : nat) (e : exn)
    (bs : list nat) :
  foldl (fun acc b_idx => g ← acc; boundary_step k_1 P slope g b_idx)
        (inl e) bs = inl e.
Proof. induction bs as [|b bs IH]; [reflexivity | exact IH]. Qed.

Section Boundaries.

Variables (k_1 P : list Z) (slope : nat) (m n : nat).

Hypothesis k_1_length : length k_1 = m.
Hypothesis P_length : length P = m.

(** Every window that tapers lies within the [n] bins. *)
Hypothesis windows_fit : forall (c : nat) (k1 Pc : Z),
  (1 <= c < m)%nat -> k_1 !! c = Some k1 -> P !! c = Some Pc ->
  (0 < Pc)%Z -> (0 <= k1 - Pc)%Z /\ (k1 + Pc < Z.of_nat n)%Z.

Lemma boundary_step_total (g : list (list R)) (b : nat) :
  shape m n g -> (1 <= b < m)%nat ->
  exists g',
    boundary_step k_1 P slope g b = inr g'
    /\ shape m n g'
    /\ forall r, r <> (b - 1)%nat -> r <> b -> g' !!! r = g !!! r.
Proof.
  intros Hg Hb.
  destruct (lookup_lt_is_Some_2 k_1 b) as [k1 Hk1]; [lia|].
  destruct (lookup_lt_is_Some_2 P b) as [Pb HP]; [lia|].
  destruct (boundary_step_rows k_1 P slope g m n b k1 Pb Hg Hb Hk1 HP)
    as (g' & _ & _ & Hstep & Hshape & Hframe & _).
  { intros HPb. eapply windows_fit; eassumption. }
  exists g'. auto.
Qed.

(** The loop over boundaries [s .. s + len - 1] runs to its end and leaves
    the rows below [s - 1] and the rows from [s + len] on as they were. *)
Lemma boundary_loop_total (len : nat) :
  forall (s : nat) (g : list (list R)),
    shape m n g -> (1 <= s)%nat -> (s + len <= m)%nat ->
    exists g',
      boundary_loop k_1 P slope g (seq s len) = inr g'
      /\ shape m n g'
      /\ forall r, (r < s - 1 \/ s + len <= r)%nat -> g' !!! r = g !!! r.
Proof.
  induction len as [|len IH]; intros s g Hg Hs Hlen.
  - exists g. split; [reflexivity|]. split; [exact Hg|]. reflexivity.
  - destruct (boundary_step_total g s Hg) as (g1 & Hstep & Hg1 & Hframe1);
      [lia|].
    destruct (IH (S s) g1 Hg1) as (g' & Hloop & Hg' & Hframe); [lia | lia |].
    exists g'. cbn [seq]. rewrite (boundary_loop_cons _ _ _ _ _ _ _ Hstep).
    split; [exact Hloop|]. split; [exact Hg'|].
    intros r Hr. rewrite Hframe by lia. apply Hframe1; lia.
Qed.

Lemma boundary_loop_app (g g1 : list (list R)) (bs1 bs2 : list nat) :
  boundary_loop k_1 P slope g bs1 = inr g1 ->
  boundary_loop k_1 P slope g (bs1 ++ bs2) = boundary_loop k_1 P slope g1 bs2.
Proof.
  intros H. unfold boundary_loop in *. rewrite foldl_app, H. reflexivity.
Qed.

(** What the finished loop leaves in the two rows next to a boundary [b]
    that tapers: the cosine of the ramp in row [b - 1] over the whole
    window, and the sine of the ramp in row [b] at the bins of the window
    that the next boundary does not reach. *)
Lemma boundary_loop_window (g : list (list R)) (b : nat) (k1 Pb : Z) :
  shape m n g -> (1 <= b < m)%nat ->
  k_1 !! b = Some k1 -> P !! b = Some Pb -> (0 < Pb)%Z ->
  exists g',
    boundary_loop k_1 P slope g (seq 1 (m - 1)) = inr g'
    /\ shape m n g'
    /\ forall j : nat,
         (k1 - Pb <= Z.of_nat j <= k1 + Pb)%Z ->
         (g' !!! (b - 1)%nat) !!! j
         = cos (PI / 2 * phi_at Pb slope (Z.of_nat j - k1))
         /\ ((forall k1c Pc,
                 k_1 !! S b = Some k1c -> P !! S b = Some Pc ->
                 (0 <= Pc)%Z /\ (Z.of_nat j < k1c - Pc)%Z) ->
             (g' !!! b) !!! j
             = sin (PI / 2 * phi_at Pb slope (Z.of_nat j - k1))).
Proof.
  intros Hg Hb Hk1 HP HPb.
  destruct (windows_fit b k1 Pb Hb Hk1 HP HPb) as [Hlo Hhi].
  replace (m - 1)%nat with ((b - 1) + (m - b))%nat by lia.
  rewrite seq_app. replace (1 + (b - 1))%nat with b by lia.
  destruct (boundary_loop_total (b - 1) 1 g Hg) as (ga & Hla & Hga & _);
    [lia | lia |].
  rewrite (boundary_loop_app _ _ _ _ Hla).
  replace (m - b)%nat with (S (m - b - 1)) by lia. cbn [seq].
  destruct (boundary_step_rows k_1 P slope ga m n b k1 Pb Hga Hb Hk1 HP)
    as (gb & rowA & rowB & Hstep & Hgb & _ & HrA & HrB & HlA & HlB & Hcells).
  { intros _. split; assumption. }
  rewrite (boundary_loop_cons _ _ _ _ _ _ _ Hstep).
  assert (HcellA : forall j : nat,
             (k1 - Pb <= Z.of_nat j <= k1 + Pb)%Z ->
             (gb !!! (b - 1)%nat) !!! j
             = cos (PI / 2 * phi_at Pb slope (Z.of_nat j - k1))).
  { intros j Hj. rewrite HrA, lookup_total_fill_from by lia.
    destruct (decide (k1 + Pb <= Z.of_nat j)%Z) as [Hend|Hin].
    - replace (Z.of_nat j - k1)%Z with Pb by lia.
      rewrite phi_at_last by exact HPb. rewrite Rmult_1_r, cos_PI2.
      reflexivity.
    - destruct (Hcells j) as [-> _]. rewrite decide_True by lia. reflexivity. }
  assert (HcellB : forall j : nat,
             (k1 - Pb <= Z.of_nat j <= k1 + Pb)%Z ->
             (gb !!! b) !!! j
             = sin (PI / 2 * phi_at Pb slope (Z.of_nat j - k1))).
  { intros j Hj. rewrite HrB, lookup_total_fill_upto by lia.
    rewrite decide_False by lia.
    destruct (Hcells j) as [_ ->]. rewrite decide_True by lia. reflexivity. }
  destruct (decide (m - b - 1 = 0)%nat) as [Hlast|Hmore].
  - rewrite Hlast. cbn [seq]. exists gb. split; [reflexivity|].
    split; [exact Hgb|]. intros j Hj. split; [apply HcellA, Hj|].
    intros _. apply HcellB, Hj.
  - replace (m - b - 1)%nat with (S (m - b - 2)) by lia. cbn [seq].
    destruct (lookup_lt_is_Some_2 k_1 (S b)) as [k1c Hk1c]; [lia|].
    destruct (lookup_lt_is_Some_2 P (S b)) as [Pc HPc]; [lia|].
    destruct (boundary_step_rows k_1 P slope gb m n (S b) k1c Pc Hgb)
      as (gc & rowA' & rowB' & Hstepc & Hgc & Hframec & HrA' & _ & HlA' & _
          & Hcellsc); [lia | exact Hk1c | exact HPc | |].
    { intros HPc0. apply (windows_fit (S b)); [lia | assumption..]. }
    rewrite (boundary_loop_cons _ _ _ _ _ _ _ Hstepc).
    destruct (boundary_loop_total (m - b - 2) (S (S b)) gc Hgc)
      as (g' & Hloop & Hg' & Hframe); [lia | lia |].
    exists g'. split; [exact Hloop|]. split; [exact Hg'|].
    intros j Hj. rewrite !Hframe by lia. split.
    + rewrite Hframec by lia. apply HcellA, Hj.
    + intros Hnext. destruct (Hnext k1c Pc Hk1c HPc) as [HPc0 Hbelow].
      replace (S b - 1)%nat with b in HrA' by lia.
      rewrite HrA', lookup_total_fill_from by lia.
      rewrite decide_False by lia.
      destruct (Hcellsc j) as [-> _]. rewrite decide_False by lia.
      replace (S b - 1)%nat with b by lia. apply HcellB, Hj.
Qed.

End Boundaries.

(** ** The squared magnitude responses *)

Lemma shape_ones (m n : nat) : shape m n (replicate m (replicate n 1)).
Proof.
  split; [apply length_replicate|].
  intros r Hr. rewrite lookup_total_replicate_2 by exact Hr.
  apply length_replicate.
Qed.

Lemma length_overlap_bins (overlap : R) (k_m k_2 : list Z) :
  length k_2 = length k_m ->
  length (overlap_bins overlap k_m k_2) = length k_m.
Proof. intros H. unfold overlap_bins. rewrite length_zip_with. lia. Qed.

Lemma cell_squared (g : list (list R)) (m n r j : nat) :
  shape m n g -> (r < m)%nat -> (j < n)%nat ->
  cell (map (map (fun x => x ^ 2)) g) r j = ((g !!! r) !!! j) ^ 2.
Proof.
  intros [Hm Hrows] Hr Hj. unfold cell.
  rewrite lookup_total_map_rows by lia.
  rewrite lookup_total_map_R by (rewrite Hrows; lia). reflexivity.
Qed.

(** C1, as the code has it. Provided every transition window that tapers
    lies within the [n_bins] bins, the magnitude responses are computed, and
    for every boundary [b >= 1] with [P[b] > 0]: the ramp has [2 P[b] + 1]
    entries, entry [i] being [sin(pi/2 * .)] applied [slope] times to
    [(i - P[b]) / P[b]] (the linear spacing over [-1, 1], left unchanged by
    a slope of 0) and rescaled to [0, 1], from 0 at the first bin over 1/2
    at the bin [k1[b]] to 1 at the last; the squared response of band
    [b - 1] over the window is the squared cosine of [pi/2] times the ramp,
    and that of band [b] is the squared sine at the bins below the window of
    the next boundary; at the bin [k1[b]] the response of band [b - 1] is
    exactly 1/2, and so is that of band [b] when the next window starts
    above [k1[b]]. *)
Theorem transition_ramp (k_1 k_m k_2 : list Z) (overlap : R) (slope : nat)
    (n_bins : nat) :
  length k_1 = length k_m -> length k_2 = length k_m ->
  (forall (c : nat) (k1 Pc : Z),
      (1 <= c < length k_m)%nat -> k_1 !! c = Some k1 ->
      overlap_bins overlap k_m k_2 !! c = Some Pc -> (0 < Pc)%Z ->
      (0 <= k1 - Pc)%Z /\ (k1 + Pc < Z.of_nat n_bins)%Z) ->
  exists g,
    magnitude_responses k_1 k_m k_2 overlap slope n_bins = inr g
    /\ forall (b : nat) (k1 Pb : Z),
         (1 <= b)%nat -> k_1 !! b = Some k1 ->
         overlap_bins overlap k_m k_2 !! b = Some Pb -> (0 < Pb)%Z ->
         let phi := ramp Pb slope in
         let next_above (j : nat) :=
           forall k1c Pc,
             k_1 !! S b = Some k1c ->
             overlap_bins overlap k_m k_2 !! S b = Some Pc ->
             (0 <= Pc)%Z /\ (Z.of_nat j < k1c - Pc)%Z in
         length phi = Z.to_nat (2 * Pb + 1)
         /\ (forall i : nat,
                (Z.of_nat i <= 2 * Pb)%Z ->
                phi !!! i
                = 1 / 2 * (Nat.iter slope warp (IZR (Z.of_nat i - Pb) / IZR Pb)
                           + 1)
                /\ 0 <= phi !!! i <= 1)
         /\ phi !!! 0%nat = 0
         /\ phi !!! Z.to_nat Pb = 1 / 2
         /\ phi !!! Z.to_nat (2 * Pb) = 1
         /\ (forall j : nat,
                (k1 - Pb <= Z.of_nat j <= k1 + Pb)%Z ->
                let x := phi !!! (j - Z.to_nat (k1 - Pb))%nat in
                cell g (b - 1) j = cos (PI / 2 * x) ^ 2
                /\ (next_above j -> cell g b j = sin (PI / 2 * x) ^ 2))
         /\ cell g (b - 1) (Z.to_nat k1) = 1 / 2
         /\ (next_above (Z.to_nat k1) -> cell g b (Z.to_nat k1) = 1 / 2).
Proof.
  intros Hk1len Hk2len Hfit.
  set (P := overlap_bins overlap k_m k_2) in *.
  set (m := length k_m) in *.
  assert (HPlen : length P = m) by (apply length_overlap_bins; exact Hk2len).
  pose proof (shape_ones m n_bins) as Hg0.
  assert (Hrun : exists g',
             boundary_loop k_1 P slope (replicate m (replicate n_bins 1))
               (seq 1 (m - 1)) = inr g'
             /\ shape m n_bins g').
  { destruct (decide (m = 0)%nat) as [Hm0|Hm0].
    - rewrite Hm0 in *. eexists. split; [reflexivity | exact Hg0].
    - destruct (boundary_loop_total k_1 P slope m n_bins Hk1len HPlen Hfit
                  (m - 1) 1 _ Hg0) as (g' & Hloop & Hg' & _); [lia | lia |].
      exists g'. split; assumption. }
  destruct Hrun as (g' & Hloop & Hg').
  exists (map (map (fun x => x ^ 2)) g'). split.
  { unfold magnitude_responses. fold P. fold m. rewrite Hloop. reflexivity. }
  intros b k1 Pb Hb Hk1 HPb Hpos. cbv zeta.
  assert (Hbm : (b < m)%nat).
  { rewrite <- Hk1len. apply lookup_lt_is_Some. eauto. }
  destruct (Hfit b k1 Pb) as [Hlo Hhi]; [lia | assumption..|].
  destruct (boundary_loop_window k_1 P slope m n_bins Hk1len HPlen Hfit
              _ b k1 Pb Hg0) as (g'' & Hloop' & _ & Hwin);
    [lia | assumption..|].
  rewrite Hloop in Hloop'. injection Hloop' as <-.
  assert (Hphi : forall i : nat,
             (Z.of_nat i <= 2 * Pb)%Z ->
             ramp Pb slope !!! i = phi_at Pb slope (Z.of_nat i - Pb)).
  { intros i Hi. apply ramp_lookup_total. exact Hi. }
  assert (Hcentre : ramp Pb slope !!! Z.to_nat Pb = 1 / 2).
  { rewrite Hphi by lia. replace (Z.of_nat (Z.to_nat Pb) - Pb)%Z with 0%Z by lia.
    apply phi_at_centre. }
  assert (Hcells : forall j : nat,
             (k1 - Pb <= Z.of_nat j <= k1 + Pb)%Z ->
             cell (map (map (fun x => x ^ 2)) g') (b - 1) j
             = cos (PI / 2 * ramp Pb slope !!! (j - Z.to_nat (k1 - Pb))%nat) ^ 2
             /\ ((forall k1c Pc,
                     k_1 !! S b = Some k1c -> P !! S b = Some Pc ->
                     (0 <= Pc)%Z /\ (Z.of_nat j < k1c - Pc)%Z) ->
                 cell (map (map (fun x => x ^ 2)) g') b j
                 = sin (PI / 2 * ramp Pb slope !!! (j - Z.to_nat (k1 - Pb))%nat)
                   ^ 2)).
  { intros j Hj. rewrite Hphi by lia.
    replace (Z.of_nat (j - Z.to_nat (k1 - Pb)) - Pb)%Z
      with (Z.of_nat j - k1)%Z by lia.
    destruct (Hwin j Hj) as [HA HB].
    rewrite !(cell_squared g' m n_bins) by (first [exact Hg' | lia]).
    split; [rewrite HA; reflexivity|].
    intros Hnext. rewrite (HB Hnext). reflexivity. }
  split; [apply length_ramp|]. split.
  { intros i Hi. rewrite Hphi by exact Hi. split; [reflexivity|].
    apply phi_at_bounds; lia. }
  split.
  { rewrite Hphi by lia. replace (Z.of_nat 0 - Pb)%Z with (- Pb)%Z by lia.
    apply phi_at_first. exact Hpos. }
  split; [exact Hcentre|]. split.
  { rewrite Hphi by lia.
    replace (Z.of_nat (Z.to_nat (2 * Pb)) - Pb)%Z with Pb by lia.
    apply phi_at_last. exact Hpos. }
  split; [exact Hcells|].
  destruct (Hcells (Z.to_nat k1)) as [HA HB]; [lia|].
  replace (Z.to_nat k1 - Z.to_nat (k1 - Pb))%nat with (Z.to_nat Pb) in HA, HB
    by lia.
  rewrite Hcentre in HA, HB. destruct fade_half as [Hcos Hsin].
  split.
  - rewrite HA. exact Hcos.
  - intros Hnext. rewrite (HB Hnext). exact Hsin.
Qed.

Lemma around_half : around (1 / 2) = 0%Z.
Proof.
  unfold around.
  assert (Hf : Int_part (1 / 2) = 0%Z).
  { destruct (base_Int_part (1 / 2)) as [H1 H2].
    assert (IZR (Int_part (1 / 2)) < 1) by lra.
    assert (-1 < IZR (Int_part (1 / 2))) by lra.
    apply lt_IZR in H. apply lt_IZR in H0. lia. }
  rewrite Hf. rewrite decide_False by lra. rewrite decide_False by lra.
  reflexivity.
Qed.

Example overlap_bins_sample :
  overlap_bins 1 [6; 12]%Z [8; 16]%Z = [1; 2]%Z.
Proof.
  unfold overlap_bins. cbn [zip_with].
  replace (1 / 2 * IZR (8 - 6)) with (IZR 1) by (rewrite minus_IZR; lra).
  replace (1 / 2 * IZR (16 - 12)) with (IZR 2) by (rewrite minus_IZR; lra).
  rewrite !around_IZR. reflexivity.
Qed.

Lemma transition_ramp_witness :
  length [4; 8]%Z = length [6; 12]%Z
  /\ length [8; 16]%Z = length [6; 12]%Z
  /\ (forall (c : nat) (k1 Pc : Z),
         (1 <= c < length [6; 12]%Z)%nat -> [4; 8]%Z !! c = Some k1 ->
         overlap_bins 1 [6; 12]%Z [8; 16]%Z !! c = Some Pc -> (0 < Pc)%Z ->
         (0 <= k1 - Pc)%Z /\ (k1 + Pc < Z.of_nat 129)%Z)
  /\ exists g,
       magnitude_responses [4; 8]%Z [6; 12]%Z [8; 16]%Z 1 0 129 = inr g
       /\ cell g 0 8 = 1 / 2 /\ cell g 1 8 = 1 / 2.
Proof.
  assert (Hfit : forall (c : nat) (k1 Pc : Z),
             (1 <= c < length [6; 12]%Z)%nat -> [4; 8]%Z !! c = Some k1 ->
             overlap_bins 1 [6; 12]%Z [8; 16]%Z !! c = Some Pc -> (0 < Pc)%Z ->
             (0 <= k1 - Pc)%Z /\ (k1 + Pc < Z.of_nat 129)%Z).
  { intros c k1 Pc Hc Hk1 HPc _. rewrite overlap_bins_sample in HPc.
    cbn [length] in Hc. assert (c = 1%nat) as -> by lia.
    cbn in Hk1, HPc. injection Hk1 as <-. injection HPc as <-. lia. }
  split; [reflexivity|]. split; [reflexivity|]. split; [exact Hfit|].
  destruct (transition_ramp [4; 8]%Z [6; 12]%Z [8; 16]%Z 1 0 129
              eq_refl eq_refl Hfit) as (g & Hg & Hb).
  exists g. split; [exact Hg|].
  destruct (Hb 1%nat 8%Z 2%Z) as (_ & _ & _ & _ & _ & _ & HA & HB);
    [lia | reflexivity | rewrite overlap_bins_sample; reflexivity | lia |].
  split; [exact HA|]. apply HB. intros k1c Pc Hk1c. discriminate Hk1c.
Defined.

Example overlap_bins_short :
  overlap_bins 1 [1; 2]%Z [2; 4]%Z = [0; 1]%Z.
Proof.
  unfold overlap_bins. cbn [zip_with].
  replace (1 / 2 * IZR (2 - 1)) with (1 / 2) by (rewrite minus_IZR; lra).
  replace (1 / 2 * IZR (4 - 2)) with (IZR 1) by (rewrite minus_IZR; lra).
  rewrite around_half, around_IZR. reflexivity.
Qed.

(** A window that sticks out of the array does not take the ramp. *)
Lemma set_slice_mismatch (row vals : list R) (start stop : option Z) :
  length vals
  <> (slice_stop (length row) stop - slice_start (length row) start)%nat ->
  (1 < length vals)%nat ->
  set_slice row start stop vals
  = inl (ValueError "could not broadcast input array").
Proof.
  intros Hne Hlen. unfold set_slice. rewrite decide_False by exact Hne.
  destruct vals as [|v [|w vals]]; cbn in Hlen; try lia; reflexivity.
Qed.

Example magnitude_responses_short :
  magnitude_responses [1; 2]%Z [1; 2]%Z [2; 4]%Z 1 0 3
  = inl (ValueError "could not broadcast input array").
Proof.
  unfold magnitude_responses. rewrite overlap_bins_short.
  cbn [length Nat.sub seq replicate]. unfold boundary_loop. cbn [foldl].
  cbn [mbind result_bind rbind]. unfold boundary_step.
  cbn [getitem lookup list_lookup mbind result_bind rbind].
  destruct (decide (1 > 0)%Z) as [_|Hn]; [|lia].
  cbn [getitem lookup list_lookup Nat.sub mbind result_bind rbind].
  rewrite set_slice_mismatch; [reflexivity | |].
  - rewrite length_map, length_ramp.
    cbn [length slice_start slice_stop from_option]. unfold slice_bound.
    rewrite !decide_False by lia. lia.
  - rewrite length_map, length_ramp. lia.
Qed.

(** ** A call with five samples *)

Lemma octave_ratio_power_le (x b : R) (p : nat) :
  0 < b -> 10 ^ p <= b ^ 20 -> 6 * x <= INR p -> Rpower octave_ratio x <= b.
Proof.
  intros Hb Hpow Hp. unfold Rpower. rewrite ln_octave_ratio.
  rewrite <- (exp_ln b) at 1 by exact Hb.
  pose proof ln_10_pos as HL.
  assert (Hln : ln (10 ^ p) <= ln (b ^ 20)).
  { destruct Hpow as [Hlt | Heq].
    - left. apply ln_increasing; [apply pow_lt; lra | exact Hlt].
    - right. rewrite Heq. reflexivity. }
  rewrite !ln_pow in Hln by lra.
  assert (H20 : INR 20 = 20) by (simpl; lra). rewrite H20 in Hln.
  assert (6 * x * ln 10 <= INR p * ln 10) by (apply Rmult_le_compat_r; lra).
  destruct (Rle_lt_dec (x * (3 / 10 * ln 10)) (ln b)) as [Hle | Hgt].
  - destruct Hle as [Hlt | Heq].
    + left. apply exp_increasing. exact Hlt.
    + right. rewrite Heq. reflexivity.
  - lra.
Qed.

Example octave_grid_1000_100000 :
  fractional_octave_frequencies 1 [1000; 100000] true
  = inr (mk_frequencies
           (Some [1000; 2000; 4000; 8000; 16000])
           (map (fun k => 1000 * Rpower octave_ratio (IZR k / 1))
                [0; 1; 2; 3; 4]%Z)
           (Some (cutoff_of 1
                    (map (fun k => 1000 * Rpower octave_ratio (IZR k / 1))
                         [0; 1; 2; 3; 4]%Z)))).
Proof.
  unfold fractional_octave_frequencies.
  rewrite decide_False by lra. rewrite decide_True by (left; reflexivity).
  unfold center_frequencies_fractional_octaves_iec.
  rewrite decide_True by reflexivity.
  cbn -[select map nominal_octaves around Rpower ln].
  unfold nominal_octaves. cbn [map]. decide_reals.
  cbn [andb select]. change (negb (1 `mod` 2 =? 0)%Z) with true. cbv iota.
  unfold reference_freq.
  assert (H0 : around (1 * ln (1000 / 1000) / ln octave_ratio) = 0%Z).
  { replace (1000 / 1000) with 1 by lra. rewrite ln_1.
    replace (1 * 0 / ln octave_ratio) with (IZR 0) by (unfold Rdiv; ring).
    apply around_IZR. }
  rewrite H0.
  rewrite (around_octave_index (2000 / 1000) 1 3 9);
    [| lra | simpl; lra | simpl; lra | lia | lia].
  rewrite (around_octave_index (4000 / 1000) 2 9 15);
    [| lra | simpl; lra | simpl; lra | lia | lia].
  rewrite (around_octave_index (8000 / 1000) 3 15 21);
    [| lra | simpl; lra | simpl; lra | lia | lia].
  rewrite (around_octave_index (16000 / 1000) 4 21 27);
    [| lra | simpl; lra | simpl; lra | lia | lia].
  reflexivity.
Qed.

Lemma sqrt_octave_ratio_bounds :
  let a := Rpower octave_ratio (1 / 2 / 1) in
  let b := Rpower octave_ratio (- 1 / 2 / 1) in
  1411 / 1000 <= a <= 14135 / 10000
  /\ b * a = 1
  /\ Rpower octave_ratio (0 / 1) = 1
  /\ Rpower octave_ratio (1 / 1) = a * a.
Proof.
  cbv zeta. split; [split|split; [|split]].
  - apply octave_ratio_power_ge with (p := 3%nat); simpl; lra.
  - apply octave_ratio_power_le with (p := 3%nat); simpl; lra.
  - replace (- 1 / 2 / 1) with (- (1 / 2 / 1)) by lra.
    apply Rpower_octave_ratio_inv.
  - replace (0 / 1) with 0 by lra. apply Rpower_O, octave_ratio_pos.
  - rewrite <- Rpower_plus. f_equal. lra.
Qed.

Lemma around_in (x : R) (z : Z) :
  IZR z - 1 / 2 < x < IZR z + 1 / 2 -> around x = z.
Proof. intros H. apply around_near, Rabs_def1; lra. Qed.

Example dft_lines_five :
  let ex := map (fun k => 1000 * Rpower octave_ratio (IZR k / 1))
                [0; 1; 2; 3; 4]%Z in
  let fc := cutoff_of 1 ex in
  let f_id := below_nyquist 4000 ex in
  f_id = [true; true; false; false; false]
  /\ dft_lines 5 4000 (select f_id fc.1) = [1; 2]%Z
  /\ dft_lines 5 4000 (select f_id ex) = [1; 2]%Z
  /\ dft_lines 5 4000 (select f_id fc.2) = [2; 4]%Z.
Proof.
  cbv zeta.
  destruct sqrt_octave_ratio_bounds as ([Ha1 Ha2] & Hinv & H0 & H1).
  assert (H2 : 2 <= Rpower octave_ratio (2 / 1))
    by (apply octave_ratio_power_ge with (p := 12%nat); simpl; lra).
  assert (H3 : 2 <= Rpower octave_ratio (3 / 1))
    by (apply octave_ratio_power_ge with (p := 18%nat); simpl; lra).
  assert (H4 : 2 <= Rpower octave_ratio (4 / 1))
    by (apply octave_ratio_power_ge with (p := 24%nat); simpl; lra).
  unfold cutoff_of, dft_lines. cbn [map fst snd]. rewrite H0, H1.
  set (a := Rpower octave_ratio (1 / 2 / 1)) in *.
  set (b := Rpower octave_ratio (- 1 / 2 / 1)) in *.
  assert (Haa : 19909 / 10000 <= a * a <= 1998 / 1000) by (split; nra).
  assert (Hb : 7 / 10 <= b <= 71 / 100) by (split; nra).
  assert (Hid : below_nyquist 4000
                  [1000 * 1; 1000 * (a * a);
                   1000 * Rpower octave_ratio (2 / 1);
                   1000 * Rpower octave_ratio (3 / 1);
                   1000 * Rpower octave_ratio (4 / 1)]
                = [true; true; false; false; false]).
  { unfold below_nyquist. cbn [map]. decide_reals. reflexivity. }
  rewrite Hid. split; [reflexivity|].
  cbn [fst snd map select].
  assert (Haab : a * a * b = a) by (rewrite Rmult_assoc, (Rmult_comm a b), Hinv; ring).
  assert (Haaa : 28 / 10 <= a * a * a <= 29 / 10) by (split; nra).
  repeat split; repeat f_equal; apply around_in; simpl IZR.
  - lra.
  - replace (5 * (1000 * (a * a) * b) / 4000) with (5 / 4 * (a * a * b))
      by lra. rewrite Haab. lra.
  - lra.
  - lra.
  - lra.
  - replace (5 * (1000 * (a * a) * a) / 4000) with (5 / 4 * (a * a * a))
      by lra.
    assert (2809 / 1000 <= a * a * a) by nra. lra.
Qed.

Example five_sample_call
    (rfftfreq : Z -> R -> list R)
    (irfft : list (list (R * R)) -> Z -> R -> list (list R))
    (hann : nat -> list R) (self : obj) (log : list warning) :
  ReconstructingFractionalOctaveBands_get_coefficients rfftfreq irfft hann
    self 1 [1000; 100000] 1 0 5 4000 log
  = (inl (ValueError "could not broadcast input array"),
     log ++ [UserWarning skip_msg []]).
Proof.
  unfold ReconstructingFractionalOctaveBands_get_coefficients.
  unfold_M. rewrite octave_grid_1000_100000.
  cbn [f_crit from_option exact].
  destruct dft_lines_five as (Hid & Hk1 & Hkm & Hk2). cbv zeta in *.
  rewrite Hk1, Hkm, Hk2, Hid. cbn [np_all forallb negb andb].
  change (5 / 2 + 1)%Z with 3%Z.
  destruct (decide (3 < 0)%Z) as [Hneg|_]; [lia|].
  change (Z.to_nat 0) with 0%nat. change (Z.to_nat 3) with 3%nat.
  rewrite magnitude_responses_short. reflexivity.
Qed.

(** C1 as stated fails where a window does not fit. The call with
    [num_fractions = 1], [freq_range = (1000, 100000)], [overlap = 1],
    [slope = 0], [n_samples = 5] and [sampling_rate = 4000] has the bins
    [k_1 = [1, 2]], [k_m = [1, 2]], [k_2 = [2, 4]] and [P = [0, 1]] on 3
    bins: boundary 1 tapers, its window [1 .. 3] sticks out of the array,
    the slice assignment raises, and no magnitude response exists whose value
    at [k_1[1]] could be 1/2. *)
Lemma transition_ramp_counterexample :
  overlap_bins 1 [1; 2]%Z [2; 4]%Z !! 1%nat = Some 1%Z
  /\ magnitude_responses [1; 2]%Z [1; 2]%Z [2; 4]%Z 1 0 3
     = inl (ValueError "could not broadcast input array")
  /\ ReconstructingFractionalOctaveBands_get_coefficients sample_rfftfreq
       sample_irfft sample_hann ∅ 1 [1000; 100000] 1 0 5 4000 []
     = (inl (ValueError "could not broadcast input array"),
        [UserWarning skip_msg []]).
Proof.
  split; [rewrite overlap_bins_short; reflexivity|].
  split; [apply magnitude_responses_short|].
  apply (five_sample_call sample_rfftfreq sample_irfft sample_hann ∅ []).
Qed.

(** ** Partition of unity *)

Lemma sum_upto_ext (f h : nat -> R) (k : nat) :
  (forall r, (r < k)%nat -> f r = h r) -> sum_upto f k = sum_upto h k.
Proof.
  induction k as [|k IH]; intros Hfh; [reflexivity|].
  cbn. rewrite IH by (intros r Hr; apply Hfh; lia).
  rewrite Hfh by lia. reflexivity.
Qed.

Lemma sum_upto_zero (f : nat -> R) (k : nat) :
  (forall r, (r < k)%nat -> f r = 0) -> sum_upto f k = 0.
Proof.
  induction k as [|k IH]; intros Hf; [reflexivity|].
  cbn. rewrite IH by (intros r Hr; apply Hf; lia).
  rewrite Hf by lia. lra.
Qed.

Lemma column_sum_sum_upto (g : list (list R)) (j : nat) :
  column_sum g j = sum_upto (fun r => cell g r j) (length g).
Proof.
  induction g as [|row g IH] using rev_ind; [reflexivity|].
  unfold column_sum in *. rewrite foldr_app. cbn [foldr].
  rewrite length_app. cbn [length]. rewrite Nat.add_1_r. cbn [sum_upto].
  assert (Hsnoc : forall (l : list (list R)) (x : R),
             foldr (fun row acc => row !!! j + acc) x l
             = foldr (fun row acc => row !!! j + acc) 0 l + x).
  { intros l x. induction l as [|y l IHl]; cbn; [lra|]. rewrite IHl. lra. }
  rewrite Hsnoc, IH.
  unfold cell. rewrite lookup_total_app_r by lia.
  rewrite Nat.sub_diag. cbn [lookup_total list_lookup_total].
  rewrite Rplus_0_r. f_equal.
  apply sum_upto_ext. intros r Hr.
  rewrite lookup_total_app_l by exact Hr. reflexivity.
Qed.

Section Partition.

Variables (k_1 P : list Z) (slope : nat) (m n : nat).

Hypothesis k_1_length : length k_1 = m.
Hypothesis P_length : length P = m.

(** Every window lies within the [n] bins, and the window of each boundary
    ends below the window of the next. *)
Hypothesis windows_inside : forall (c : nat) (k1 Pc : Z),
  (1 <= c < m)%nat -> k_1 !! c = Some k1 -> P !! c = Some Pc ->
  (0 <= Pc)%Z /\ (0 <= k1 - Pc)%Z /\ (k1 + Pc < Z.of_nat n)%Z.
Hypothesis windows_ordered : forall (c : nat) (k1 Pc k1' Pc' : Z),
  (1 <= c)%nat -> (S c < m)%nat ->
  k_1 !! c = Some k1 -> P !! c = Some Pc ->
  k_1 !! S c = Some k1' -> P !! S c = Some Pc' ->
  (k1 + Pc < k1' - Pc')%Z.

Lemma loop_invariant_start :
  (0 < m)%nat -> loop_invariant k_1 P m n 0 (replicate m (replicate n 1)).
Proof.
  intros Hm.
  assert (Hone : forall r j, (r < m)%nat -> (j < n)%nat ->
                   cell (replicate m (replicate n 1)) r j = 1).
  { intros r j Hr Hj. unfold cell.
    rewrite lookup_total_replicate_2 by exact Hr.
    apply lookup_total_replicate_2. exact Hj. }
  split; [apply shape_ones|]. split; [|split; [|split]].
  - intros r j Hr Hj. apply Hone; lia.
  - intros j Hj. cbn [sum_upto]. rewrite Hone by lia. lra.
  - intros r j k1 Pb Hr. lia.
  - intros r j Hr Hj. rewrite Hone by lia. lra.
Qed.

Lemma loop_invariant_step (g : list (list R)) (b : nat) :
  loop_invariant k_1 P m n b g -> (S b < m)%nat ->
  exists g',
    boundary_step k_1 P slope g (S b) = inr g'
    /\ loop_invariant k_1 P m n (S b) g'.
Proof.
  intros (Hg & Hones & Hsum & Hzero & Hrange) Hc.
  destruct (lookup_lt_is_Some_2 k_1 (S b)) as [k1 Hk1]; [lia|].
  destruct (lookup_lt_is_Some_2 P (S b)) as [Pc HPc]; [lia|].
  destruct (windows_inside (S b) k1 Pc) as (HP0 & Hlo & Hhi);
    [lia | assumption..|].
  destruct (boundary_step_rows k_1 P slope g m n (S b) k1 Pc Hg)
    as (g' & rowA & rowB & Hstep & Hg' & Hframe & HrA & HrB & HlA & HlB
        & Hcells); [lia | assumption.. | |].
  { intros _. split; assumption. }
  replace (S b - 1)%nat with b in * by lia.
  exists g'. split; [exact Hstep|].
  (* the windows of the boundaries done so far end below this one *)
  assert (Hbelow : forall r j, (r < b)%nat -> (j < n)%nat ->
                     (k1 - Pc <= Z.of_nat j)%Z -> cell g r j = 0).
  { intros r j Hr Hj Hjl.
    destruct (lookup_lt_is_Some_2 k_1 b) as [k1b Hk1b]; [lia|].
    destruct (lookup_lt_is_Some_2 P b) as [Pb HPb]; [lia|].
    apply (Hzero r j k1b Pb); try assumption.
    pose proof (windows_ordered b k1b Pb k1 Pc) as Hord.
    assert (k1b + Pb < k1 - Pc)%Z by (apply Hord; first [lia | assumption]).
    lia. }
  assert (Hold : forall r j, (r < b)%nat -> cell g' r j = cell g r j).
  { intros r j Hr. unfold cell. rewrite Hframe by lia. reflexivity. }
  assert (HA : forall j, (j < n)%nat ->
             cell g' b j
             = if decide (k1 + Pc <= Z.of_nat j)%Z then 0
               else if decide (0 < Pc /\ k1 - Pc <= Z.of_nat j)%Z
                    then cos (PI / 2 * phi_at Pc slope (Z.of_nat j - k1))
                    else cell g b j).
  { intros j Hj. unfold cell. rewrite HrA, lookup_total_fill_from by lia.
    destruct (decide (k1 + Pc <= Z.of_nat j)%Z); [reflexivity|].
    destruct (Hcells j) as [-> _].
    destruct (decide (0 < Pc /\ k1 - Pc <= Z.of_nat j)%Z).
    - rewrite decide_True by lia. reflexivity.
    - rewrite decide_False by lia. reflexivity. }
  assert (HB : forall j, (j < n)%nat ->
             cell g' (S b) j
             = if decide (Z.of_nat j < k1 - Pc)%Z then 0
               else if decide (0 < Pc /\ Z.of_nat j <= k1 + Pc)%Z
                    then sin (PI / 2 * phi_at Pc slope (Z.of_nat j - k1))
                    else 1).
  { intros j Hj. unfold cell. rewrite HrB, lookup_total_fill_upto by lia.
    destruct (decide (Z.of_nat j < k1 - Pc)%Z); [reflexivity|].
    destruct (Hcells j) as [_ ->].
    destruct (decide (0 < Pc /\ Z.of_nat j <= k1 + Pc)%Z).
    - rewrite decide_True by lia. reflexivity.
    - rewrite decide_False by lia. apply (Hones (S b) j); lia. }
  assert (Hphi : forall j : nat,
             (0 < Pc)%Z -> (k1 - Pc <= Z.of_nat j <= k1 + Pc)%Z ->
             0 <= phi_at Pc slope (Z.of_nat j - k1) <= 1).
  { intros j HPpos Hj. apply phi_at_bounds; lia. }
  split; [exact Hg'|]. split; [|split; [|split]].
  - (* rows above stay all ones *)
    intros r j Hr Hj. unfold cell. rewrite Hframe by lia.
    apply (Hones r j); lia.
  - (* the squares sum to one *)
    intros j Hj. cbn [sum_upto].
    rewrite (sum_upto_ext _ (fun r => cell g r j ^ 2) b)
      by (intros r Hr; rewrite Hold by exact Hr; reflexivity).
    rewrite HA, HB by exact Hj.
    pose proof (Hsum j Hj) as Hsumj. cbn [sum_upto] in Hsumj.
    destruct (decide (Z.of_nat j < k1 - Pc)%Z) as [Hlow|Hnlow].
    + rewrite (decide_False (P := (k1 + Pc <= Z.of_nat j)%Z)) by lia.
      rewrite decide_False by lia. lra.
    + rewrite (sum_upto_zero (fun r => cell g r j ^ 2) b).
      2:{ intros r Hr. rewrite (Hbelow r j) by (first [exact Hr | lia]).
          simpl. lra. }
      destruct (decide (k1 + Pc <= Z.of_nat j)%Z) as [Hhigh|Hin].
      * destruct (decide (0 < Pc /\ Z.of_nat j <= k1 + Pc)%Z) as [[HPp Hj2]|_].
        -- replace (Z.of_nat j - k1)%Z with Pc by lia.
           rewrite phi_at_last by exact HPp. rewrite Rmult_1_r, sin_PI2.
           simpl. lra.
        -- simpl. lra.
      * assert (HPp : (0 < Pc)%Z) by lia.
        rewrite !decide_True by lia.
        pose proof (fade_squares
                      (PI / 2 * phi_at Pc slope (Z.of_nat j - k1))). lra.
  - (* the rows done have faded out where this window ends *)
    intros r j k1' Pc' Hr Hj Hk1' HPc' Hend.
    rewrite Hk1 in Hk1'. injection Hk1' as <-.
    rewrite HPc in HPc'. injection HPc' as <-.
    destruct (decide (r = b)) as [->|Hne].
    + rewrite HA by exact Hj. rewrite decide_True by lia. reflexivity.
    + rewrite Hold by lia. apply Hbelow; lia.
  - (* every entry lies between 0 and 1 *)
    intros r j Hr Hj.
    destruct (decide (r = S b)) as [->|Hne1].
    + rewrite HB by exact Hj.
      destruct (decide (Z.of_nat j < k1 - Pc)%Z); [lra|].
      destruct (decide (0 < Pc /\ Z.of_nat j <= k1 + Pc)%Z) as [[HPp Hj2]|_];
        [|lra].
      apply fade_bounds, Hphi; lia.
    + destruct (decide (r = b)) as [->|Hne2].
      * rewrite HA by exact Hj.
        destruct (decide (k1 + Pc <= Z.of_nat j)%Z); [lra|].
        destruct (decide (0 < Pc /\ k1 - Pc <= Z.of_nat j)%Z) as [[HPp Hj2]|_].
        -- apply fade_bounds, Hphi; lia.
        -- apply Hrange; lia.
      * rewrite Hold by lia. apply Hrange; lia.
Qed.

Lemma loop_invariant_loop (len : nat) :
  forall (b : nat) (g : list (list R)),
    loop_invariant k_1 P m n b g -> (b + len < m)%nat ->
    exists g',
      boundary_loop k_1 P slope g (seq (S b) len) = inr g'
      /\ loop_invariant k_1 P m n (b + len) g'.
Proof.
  induction len as [|len IH]; intros b g Hinv Hlen.
  - exists g. rewrite Nat.add_0_r. split; [reflexivity | exact Hinv].
  - destruct (loop_invariant_step g b Hinv) as (g1 & Hstep & Hinv1); [lia|].
    destruct (IH (S b) g1 Hinv1) as (g' & Hloop & Hinv'); [lia|].
    exists g'. cbn [seq]. rewrite (boundary_loop_cons _ _ _ _ _ _ _ Hstep).
    split; [exact Hloop|].
    replace (b + S len)%nat with (S b + len)%nat by lia. exact Hinv'.
Qed.

End Partition.

(** The magnitude responses of a bank with at least one band whose windows
    lie within the bins, each below the next: they exist, sum to one in
    every bin, and lie between 0 and 1. *)
Lemma magnitude_responses_partition (k_1 k_m k_2 : list Z) (overlap : R)
    (slope : nat) (n_bins : nat) :
  (0 < length k_m)%nat ->
  length k_1 = length k_m -> length k_2 = length k_m ->
  (forall (c : nat) (k1 Pc : Z),
      (1 <= c < length k_m)%nat -> k_1 !! c = Some k1 ->
      overlap_bins overlap k_m k_2 !! c = Some Pc ->
      (0 <= Pc)%Z /\ (0 <= k1 - Pc)%Z /\ (k1 + Pc < Z.of_nat n_bins)%Z) ->
  (forall (c : nat) (k1 Pc k1' Pc' : Z),
      (1 <= c)%nat -> (S c < length k_m)%nat ->
      k_1 !! c = Some k1 -> overlap_bins overlap k_m k_2 !! c = Some Pc ->
      k_1 !! S c = Some k1' ->
      overlap_bins overlap k_m k_2 !! S c = Some Pc' ->
      (k1 + Pc < k1' - Pc')%Z) ->
  exists g,
    magnitude_responses k_1 k_m k_2 overlap slope n_bins = inr g
    /\ shape (length k_m) n_bins g
    /\ forall j : nat,
         (j < n_bins)%nat ->
         column_sum g j = 1
         /\ forall r : nat, (r < length k_m)%nat -> 0 <= cell g r j <= 1.
Proof.
  intros Hm Hk1len Hk2len Hinside Hordered.
  set (P := overlap_bins overlap k_m k_2) in *.
  set (m := length k_m) in *.
  assert (HPlen : length P = m) by (apply length_overlap_bins; exact Hk2len).
  pose proof (loop_invariant_start k_1 P m n_bins Hk1len HPlen Hm) as Hstart.
  destruct (loop_invariant_loop k_1 P slope m n_bins Hk1len HPlen Hinside
              Hordered (m - 1)%nat 0%nat _ Hstart)
    as (g' & Hloop & Hg' & _ & Hsum & _ & Hrange); [lia|].
  cbn [Nat.add] in Hsum, Hrange.
  exists (map (map (fun x => x ^ 2)) g'). split.
  { unfold magnitude_responses. fold P. fold m. rewrite Hloop. reflexivity. }
  assert (Hsq : forall r j, (r < m)%nat -> (j < n_bins)%nat ->
                  cell (map (map (fun x => x ^ 2)) g') r j = cell g' r j ^ 2).
  { intros r j Hr Hj. apply (cell_squared g' m n_bins); assumption. }
  split.
  { destruct Hg' as [Hlen Hrows]. split; [rewrite length_map; exact Hlen|].
    intros r Hr. rewrite lookup_total_map_rows by lia.
    rewrite length_map. apply Hrows, Hr. }
  intros j Hj. split.
  - rewrite column_sum_sum_upto, length_map.
    destruct Hg' as [Hlen _]. rewrite Hlen.
    rewrite (sum_upto_ext _ (fun r => cell g' r j ^ 2) m)
      by (intros r Hr; apply Hsq; assumption).
    replace m with (S (m - 1)) at 1 by lia. apply Hsum, Hj.
  - intros r Hr. rewrite Hsq by assumption.
    destruct (Hrange r j) as [H0 H1]; [lia | exact Hj |].
    simpl. split; nra.
Qed.

(** *** The DFT lines of an actual call are ordered *)

Lemma around_mono (x y : R) : x <= y -> (around x <= around y)%Z.
Proof.
  intros Hxy. unfold around.
  destruct (base_Int_part x) as [Hx1 Hx2].
  destruct (base_Int_part y) as [Hy1 Hy2].
  set (f := Int_part x) in *. set (f' := Int_part y) in *.
  assert (Hff : (f <= f')%Z).
  { assert (H : IZR f < IZR f' + 1) by lra.
    rewrite <- plus_IZR in H. apply lt_IZR in H. lia. }
  destruct (decide (f = f')) as [<-|Hne].
  - repeat case_decide; try lia; try lra; destruct (Z.even f); lia.
  - assert (f + 1 <= f')%Z by lia.
    repeat case_decide; repeat (destruct (Z.even _)); lia.
Qed.

Lemma around_nonneg (x : R) : 0 <= x -> (0 <= around x)%Z.
Proof.
  intros Hx. rewrite <- (around_IZR 0). apply around_mono. exact Hx.
Qed.

Lemma StronglySorted_select {A : Type} (R : relation A) (mask : list bool)
    (xs : list A) :
  StronglySorted R xs -> StronglySorted R (select mask xs).
Proof.
  intros H. revert mask.
  induction H as [|x xs _ IH Hx]; intros [|[] mask]; cbn;
    try constructor; auto.
  apply Forall_select, Hx.
Qed.

Lemma StronglySorted_lookup_le {A : Type} (R : relation A) (xs : list A)
    (i j : nat) (x y : A) :
  StronglySorted R xs -> (i < j)%nat ->
  xs !! i = Some x -> xs !! j = Some y -> R x y.
Proof.
  intros H. revert i j.
  induction H as [|z xs _ IH Hz]; intros i j Hij Hi Hj; [done|].
  destruct j as [|j]; [lia|]. destruct i as [|i].
  - cbn in Hi, Hj. injection Hi as ->.
    rewrite Forall_lookup in Hz. apply (Hz j), Hj.
  - cbn in Hi, Hj. apply (IH i j); [lia | assumption..].
Qed.

Lemma Forall2_select {A B : Type} (R : A -> B -> Prop) (mask : list bool)
    (xs : list A) (ys : list B) :
  Forall2 R xs ys -> Forall2 R (select mask xs) (select mask ys).
Proof.
  intros H. revert mask.
  induction H as [|x y xs ys Hxy _ IH]; intros [|[] mask]; cbn;
    try constructor; auto.
Qed.

Lemma arange_incl_sorted (a b : Z) : StronglySorted Z.le (arange_incl a b).
Proof.
  unfold arange_incl. generalize (Z.to_nat (b + 1 - a)) as len.
  intros len. generalize 0%nat as s. induction len as [|len IH]; intros s.
  - constructor.
  - cbn. constructor; [apply IH|].
    rewrite Forall_lookup. intros i z Hz.
    rewrite list_lookup_fmap in Hz.
    destruct (seq (S s) len !! i) as [k|] eqn:Hk; [|done].
    apply lookup_seq in Hk as [-> _]. cbn in Hz. injection Hz as <-. lia.
Qed.

Lemma iec_table_sorted (num_fractions : Z) :
  StronglySorted (fun x y => 0 < x <= y) (iec_table num_fractions).
Proof.
  unfold iec_table, nominal_octaves, nominal_third_octaves.
  case_decide; repeat (constructor; [|repeat constructor; lra]); constructor.
Qed.

Lemma Rpower_mono (b x y : R) : 1 < b -> x <= y -> Rpower b x <= Rpower b y.
Proof. intros Hb Hxy. apply Rle_Rpower; lra. Qed.

(** The centre frequencies come out in ascending order. *)
Lemma exact_frequencies_sorted (num_fractions : Z) (lo hi : R) (rc : bool)
    (fr : frequencies) :
  (1 <= num_fractions)%Z ->
  fractional_octave_frequencies num_fractions [lo; hi] rc = inr fr ->
  StronglySorted Rle (exact fr).
Proof.
  intros Hnf. unfold fractional_octave_frequencies.
  case_decide; [discriminate|].
  assert (Hpos : 0 < IZR num_fractions) by (apply IZR_lt; lia).
  assert (HG : 1 < octave_ratio).
  { replace octave_ratio with (Rpower octave_ratio 1).
    - apply Rpower_octave_ratio_gt_1; lra.
    - apply Rpower_1, octave_ratio_pos. }
  assert (HlnG : 0 < ln octave_ratio).
  { rewrite ln_octave_ratio. pose proof ln_10_pos. lra. }
  destruct (decide (num_fractions = 1%Z \/ num_fractions = 3%Z))
    as [Hiec|Hiec].
  - unfold center_frequencies_fractional_octaves_iec.
    assert (Htbl : (if decide (num_fractions = 1%Z) then Some nominal_octaves
                    else if decide (num_fractions = 3%Z)
                         then Some nominal_third_octaves else None)
                   = Some (iec_table num_fractions)).
    { unfold iec_table. destruct Hiec as [-> | ->].
      - rewrite !decide_True by reflexivity. reflexivity.
      - rewrite decide_False by lia. rewrite decide_True by reflexivity.
        rewrite decide_False by lia. reflexivity. }
    rewrite Htbl.
    assert (Hodd : (num_fractions mod 2 =? 0)%Z = false)
      by (destruct Hiec as [-> | ->]; reflexivity).
    rewrite Hodd. cbn [negb mbind result_bind rbind fst snd].
    intros Hfr.
    assert (Hex : exists nom cut,
      fr = mk_frequencies nom
             (select (map (fun f => bool_decide (f >= lo)
                                    && bool_decide (f <= hi))
                          (iec_table num_fractions))
                (map (fun f => reference_freq
                               * Rpower octave_ratio
                                   (IZR (around (IZR num_fractions
                                                 * ln (f / reference_freq)
                                                 / ln octave_ratio))
                                    / IZR num_fractions))
                     (iec_table num_fractions))) cut).
    { destruct rc;
        [rewrite (decide_False (P := num_fractions = 0%Z)) in Hfr by lia|];
        injection Hfr as <-; eauto. }
    destruct Hex as (nom & cut & ->). cbn [exact].
    apply StronglySorted_select.
    apply (StronglySorted_fmap _ (fun x y => 0 < x <= y));
      [|apply iec_table_sorted].
    intros x y [Hx Hxy]. unfold reference_freq.
    apply Rmult_le_compat_l; [lra|]. apply Rpower_mono; [exact HG|].
    apply Rmult_le_compat_r; [apply Rlt_le, Rinv_0_lt_compat, Hpos|].
    apply IZR_le, around_mono.
    apply Rmult_le_compat_r; [apply Rlt_le, Rinv_0_lt_compat, HlnG|].
    apply Rmult_le_compat_l; [lra|].
    destruct (Req_dec x y) as [->|Hne]; [lra|].
    apply Rlt_le, ln_increasing; lra.
  - cbn [mbind result_bind rbind fst snd]. intros Hfr.
    assert (Hex : exact fr = exact_center_frequencies_fractional_octaves
                               num_fractions lo hi)
      by (destruct rc;
            [rewrite (decide_False (P := num_fractions = 0%Z)) in Hfr by lia|];
            injection Hfr as <-; reflexivity).
    rewrite Hex. unfold exact_center_frequencies_fractional_octaves.
    apply (StronglySorted_fmap _ Z.le); [|apply arange_incl_sorted].
    intros i j Hij.
    apply Rmult_le_compat_l; [lra|]. apply Rpower_mono; [lra|].
    apply Rmult_le_compat_r; [apply Rlt_le, Rinv_0_lt_compat, Hpos|].
    apply IZR_le, Hij.
Qed.

Lemma Forall2_map_r_diag {A B : Type} (R : A -> B -> Prop) (h : A -> B)
    (Q : A -> Prop) (xs : list A) :
  (forall x, Q x -> R x (h x)) -> Forall Q xs -> Forall2 R xs (map h xs).
Proof.
  intros HR H. induction H as [|x xs Hx _ IH]; cbn; constructor; auto.
Qed.

Lemma Forall2_map_both {A B C D : Type} (R : A -> B -> Prop)
    (S : C -> D -> Prop) (h : A -> C) (k : B -> D) (xs : list A)
    (ys : list B) :
  (forall x y, R x y -> S (h x) (k y)) ->
  Forall2 R xs ys -> Forall2 S (map h xs) (map k ys).
Proof.
  intros HRS H. induction H as [|x y xs ys Hxy _ IH]; cbn; constructor; auto.
Qed.

Lemma dft_line_mono (n_samples : Z) (sampling_rate x y : R) :
  (0 < n_samples)%Z -> 0 < sampling_rate -> x <= y ->
  (around (IZR n_samples * x / sampling_rate)
   <= around (IZR n_samples * y / sampling_rate))%Z.
Proof.
  intros Hn Hsr Hxy. apply around_mono.
  assert (0 < IZR n_samples) by (apply IZR_lt; lia).
  apply Rmult_le_compat_r; [apply Rlt_le, Rinv_0_lt_compat, Hsr|].
  apply Rmult_le_compat_l; lra.
Qed.

(** Lines 505-516 on the frequencies of a call: the three arrays of DFT
    lines have one length, the lower-cutoff lines ascend, and every centre
    line is at most its upper-cutoff line. *)
Lemma dft_lines_ordered (num_fractions : Z) (lo hi : R) (n_samples : Z)
    (sampling_rate : R) (fr : frequencies) (f_cut_off : list R * list R) :
  (1 <= num_fractions)%Z -> (0 < n_samples)%Z -> 0 < sampling_rate ->
  fractional_octave_frequencies num_fractions [lo; hi] true = inr fr ->
  f_crit fr = Some f_cut_off ->
  let f_id := below_nyquist sampling_rate (exact fr) in
  let k_1 := dft_lines n_samples sampling_rate (select f_id f_cut_off.1) in
  let k_m := dft_lines n_samples sampling_rate (select f_id (exact fr)) in
  let k_2 := dft_lines n_samples sampling_rate (select f_id f_cut_off.2) in
  length k_1 = length k_m /\ length k_2 = length k_m
  /\ StronglySorted Z.le k_1 /\ Forall2 Z.le k_m k_2.
Proof.
  intros Hnf Hn Hsr Hfr Hfc.
  pose proof (exact_frequencies_sorted _ _ _ _ _ Hnf Hfr) as Hsorted.
  assert (Hle : lo <= hi).
  { destruct (Rle_dec lo hi) as [H|H]; [exact H|].
    unfold fractional_octave_frequencies in Hfr.
    rewrite decide_True in Hfr by lra. discriminate. }
  destruct (fractional_octave_frequencies_ok num_fractions lo hi true Hle)
    as (nom & ex & Heq & Hpos & _); [lia|].
  rewrite Heq in Hfr. injection Hfr as <-. cbn [exact f_crit] in *.
  injection Hfc as <-. unfold cutoff_of. cbn [fst snd].
  unfold dft_lines.
  assert (Hup : 1 < Rpower octave_ratio (1 / 2 / IZR num_fractions)).
  { apply Rpower_octave_ratio_gt_1.
    assert (0 < IZR num_fractions) by (apply IZR_lt; lia).
    apply Rdiv_lt_0_compat; lra. }
  pose proof (exp_pos (- 1 / 2 / IZR num_fractions * ln octave_ratio))
    as Hlow. fold (Rpower octave_ratio (- 1 / 2 / IZR num_fractions)) in Hlow.
  repeat split.
  - rewrite !length_map. apply length_select_map.
  - rewrite !length_map. apply length_select_map.
  - apply (StronglySorted_fmap _ Rle);
      [intros x y Hxy; apply dft_line_mono; assumption|].
    apply StronglySorted_select.
    apply (StronglySorted_fmap _ Rle); [|exact Hsorted].
    intros x y Hxy. apply Rmult_le_compat_r; lra.
  - apply (Forall2_map_both Rle); [intros x y Hxy; apply dft_line_mono;
                                   assumption|].
    apply Forall2_select.
    apply (Forall2_map_r_diag _ _ (fun e => 0 < e)); [|exact Hpos].
    intros x Hx. nra.
Qed.

Lemma overlap_bins_nonneg (overlap : R) (k_m k_2 : list Z) (c : nat)
    (Pc : Z) :
  0 <= overlap -> Forall2 Z.le k_m k_2 ->
  overlap_bins overlap k_m k_2 !! c = Some Pc -> (0 <= Pc)%Z.
Proof.
  intros Hov Hle HP. unfold overlap_bins in HP.
  apply lookup_zip_with_Some in HP as (km & k2 & -> & Hkm & Hk2).
  pose proof (Forall2_lookup_lr _ _ _ _ _ _ Hle Hkm Hk2) as Hkk.
  apply around_nonneg.
  assert (0 <= IZR (k2 - km)) by (apply IZR_le; lia). nra.
Qed.

(** C2, as the code has it. For a call with [num_fractions >= 1], an overlap
    in [0, 1], a non-negative slope, a positive number of samples and a
    positive sampling rate that leaves at least one band below the Nyquist
    frequency: when the transition windows [k1[b] - P[b] .. k1[b] + P[b]] of
    the band boundaries [b >= 1] lie within the [n_bins] bins and no bin
    belongs to the windows of two distinct boundaries, the squared magnitude
    responses are computed, one row of [n_bins] values per band; at every
    bin they sum to exactly 1 over the bands, and each value lies between 0
    and 1. *)
Theorem partition_of_unity (num_fractions : Z) (lo hi overlap : R)
    (slope n_samples : Z) (sampling_rate : R) (fr : frequencies)
    (f_cut_off : list R * list R) :
  (1 <= num_fractions)%Z -> 0 <= overlap <= 1 -> (0 <= slope)%Z ->
  (0 < n_samples)%Z -> 0 < sampling_rate ->
  fractional_octave_frequencies num_fractions [lo; hi] true = inr fr ->
  f_crit fr = Some f_cut_off ->
  let n_bins := Z.to_nat (n_samples / 2 + 1) in
  let f_id := below_nyquist sampling_rate (exact fr) in
  let k_1 := dft_lines n_samples sampling_rate (select f_id f_cut_off.1) in
  let k_m := dft_lines n_samples sampling_rate (select f_id (exact fr)) in
  let k_2 := dft_lines n_samples sampling_rate (select f_id f_cut_off.2) in
  let P := overlap_bins overlap k_m k_2 in
  k_m <> [] ->
  (forall (b : nat) (kb Pb : Z),
      (1 <= b)%nat -> k_1 !! b = Some kb -> P !! b = Some Pb ->
      (0 <= kb - Pb)%Z /\ (kb + Pb < Z.of_nat n_bins)%Z) ->
  (forall (b c : nat) (kb Pb kc Pc j : Z),
      (1 <= b)%nat -> (1 <= c)%nat -> b <> c ->
      k_1 !! b = Some kb -> P !! b = Some Pb ->
      k_1 !! c = Some kc -> P !! c = Some Pc ->
      ~ ((kb - Pb <= j <= kb + Pb)%Z /\ (kc - Pc <= j <= kc + Pc)%Z)) ->
  exists g,
    magnitude_responses k_1 k_m k_2 overlap (Z.to_nat slope) n_bins = inr g
    /\ shape (length k_m) n_bins g
    /\ forall j : nat,
         (j < n_bins)%nat ->
         column_sum g j = 1
         /\ forall r : nat, (r < length k_m)%nat -> 0 <= cell g r j <= 1.
Proof.
  intros Hnf Hov Hslope Hn Hsr Hfr Hfc n_bins f_id k_1 k_m k_2 P Hne Hinside
    Hdisjoint.
  destruct (dft_lines_ordered _ _ _ _ _ _ _ Hnf Hn Hsr Hfr Hfc)
    as (Hk1len & Hk2len & Hsorted & Hle).
  fold f_id in Hk1len, Hk2len, Hsorted, Hle.
  fold k_1 in Hk1len, Hsorted. fold k_m in Hk1len, Hk2len, Hle.
  fold k_2 in Hk2len, Hle.
  assert (HP : forall c Pc, P !! c = Some Pc -> (0 <= Pc)%Z).
  { intros c Pc. apply overlap_bins_nonneg; [lra | exact Hle]. }
  apply magnitude_responses_partition.
  - destruct k_m; [done | cbn; lia].
  - exact Hk1len.
  - exact Hk2len.
  - intros c k1 Pc Hc Hk1 HPc. fold P in HPc.
    destruct (Hinside c k1 Pc) as [H1 H2]; [lia | assumption..|].
    split; [eapply HP, HPc | split; assumption].
  - intros c k1 Pc k1' Pc' Hc Hc' Hk1 HPc Hk1' HPc'. fold P in HPc, HPc'.
    pose proof (HP _ _ HPc). pose proof (HP _ _ HPc').
    assert (k1 <= k1')%Z
      by (apply (StronglySorted_lookup_le Z.le k_1 c (S c));
          [exact Hsorted | lia | assumption..]).
    destruct (Z_lt_le_dec (k1 + Pc) (k1' - Pc')) as [Hlt|Hge]; [exact Hlt|].
    exfalso.
    apply (Hdisjoint c (S c) k1 Pc k1' Pc' (Z.max (k1 - Pc) (k1' - Pc')));
      first [assumption | lia].
Qed.

Example dft_lines_forty :
  let ex := map (fun k => 1000 * Rpower octave_ratio (IZR k / 1))
                [0; 1; 2; 3; 4]%Z in
  let fc := cutoff_of 1 ex in
  let f_id := below_nyquist 4000 ex in
  f_id = [true; true; false; false; false]
  /\ dft_lines 40 4000 (select f_id fc.1) = [7; 14]%Z
  /\ dft_lines 40 4000 (select f_id ex) = [10; 20]%Z
  /\ dft_lines 40 4000 (select f_id fc.2) = [14; 28]%Z.
Proof.
  cbv zeta.
  destruct sqrt_octave_ratio_bounds as ([Ha1 Ha2] & Hinv & H0 & H1).
  assert (H2 : 2 <= Rpower octave_ratio (2 / 1))
    by (apply octave_ratio_power_ge with (p := 12%nat); simpl; lra).
  assert (H3 : 2 <= Rpower octave_ratio (3 / 1))
    by (apply octave_ratio_power_ge with (p := 18%nat); simpl; lra).
  assert (H4 : 2 <= Rpower octave_ratio (4 / 1))
    by (apply octave_ratio_power_ge with (p := 24%nat); simpl; lra).
  unfold cutoff_of, dft_lines. cbn [map fst snd]. rewrite H0, H1.
  set (a := Rpower octave_ratio (1 / 2 / 1)) in *.
  set (b := Rpower octave_ratio (- 1 / 2 / 1)) in *.
  assert (Haa : 19909 / 10000 <= a * a <= 1998 / 1000) by (split; nra).
  assert (Hb : 7 / 10 <= b <= 71 / 100) by (split; nra).
  assert (Hid : below_nyquist 4000
                  [1000 * 1; 1000 * (a * a);
                   1000 * Rpower octave_ratio (2 / 1);
                   1000 * Rpower octave_ratio (3 / 1);
                   1000 * Rpower octave_ratio (4 / 1)]
                = [true; true; false; false; false]).
  { unfold below_nyquist. cbn [map]. decide_reals. reflexivity. }
  rewrite Hid. split; [reflexivity|].
  cbn [fst snd map select].
  assert (Haab : a * a * b = a) by (rewrite Rmult_assoc, (Rmult_comm a b), Hinv; ring).
  assert (Haaa : 2809 / 1000 <= a * a * a <= 2825 / 1000) by (split; nra).
  repeat split; repeat f_equal; apply around_in; simpl IZR.
  - lra.
  - replace (40 * (1000 * (a * a) * b) / 4000) with (10 * (a * a * b))
      by lra. rewrite Haab. lra.
  - lra.
  - lra.
  - lra.
  - replace (40 * (1000 * (a * a) * a) / 4000) with (10 * (a * a * a))
      by lra. lra.
Qed.

Example overlap_bins_forty :
  overlap_bins 1 [10; 20]%Z [14; 28]%Z = [2; 4]%Z.
Proof.
  unfold overlap_bins. cbn [zip_with].
  replace (1 / 2 * IZR (14 - 10)) with (IZR 2) by (rewrite minus_IZR; lra).
  replace (1 / 2 * IZR (28 - 20)) with (IZR 4) by (rewrite minus_IZR; lra).
  rewrite !around_IZR. reflexivity.
Qed.

Lemma partition_of_unity_witness :
  let ex := map (fun k => 1000 * Rpower octave_ratio (IZR k / 1))
                [0; 1; 2; 3; 4]%Z in
  let f_id := below_nyquist 4000 ex in
  fractional_octave_frequencies 1 [1000; 100000] true
  = inr (mk_frequencies (Some [1000; 2000; 4000; 8000; 16000]) ex
           (Some (cutoff_of 1 ex)))
  /\ dft_lines 40 4000 (select f_id (cutoff_of 1 ex).1) = [7; 14]%Z
  /\ dft_lines 40 4000 (select f_id ex) = [10; 20]%Z
  /\ dft_lines 40 4000 (select f_id (cutoff_of 1 ex).2) = [14; 28]%Z
  /\ overlap_bins 1 [10; 20]%Z [14; 28]%Z = [2; 4]%Z
  /\ exists g,
       magnitude_responses [7; 14]%Z [10; 20]%Z [14; 28]%Z 1 0 21 = inr g
       /\ shape 2 21 g
       /\ forall j : nat,
            (j < 21)%nat ->
            column_sum g j = 1
            /\ forall r : nat, (r < 2)%nat -> 0 <= cell g r j <= 1.
Proof.
  cbv zeta.
  destruct dft_lines_forty as (Hid & Hk1 & Hkm & Hk2). cbv zeta in *.
  split; [exact octave_grid_1000_100000|].
  split; [exact Hk1|]. split; [exact Hkm|]. split; [exact Hk2|].
  split; [exact overlap_bins_forty|].
  pose proof (partition_of_unity 1 1000 100000 1 0 40 4000 _ _
                ltac:(lia) ltac:(lra) ltac:(lia) ltac:(lia) ltac:(lra)
                octave_grid_1000_100000 eq_refl) as H.
  cbv zeta in H. cbn [exact] in H.
  rewrite Hk1, Hkm, Hk2, overlap_bins_forty in H.
  change (Z.to_nat (40 / 2 + 1)) with 21%nat in H.
  change (Z.to_nat 0) with 0%nat in H. cbn [length] in H.
  apply H.
  - discriminate.
  - intros b kb Pb Hb Hkb HPb.
    destruct b as [|[|b]]; [lia | | discriminate Hkb].
    cbn in Hkb, HPb. injection Hkb as <-. injection HPb as <-. lia.
  - intros b c kb Pb kc Pc j Hb Hc Hbc Hkb _ Hkc _.
    destruct b as [|[|b]]; [lia | | discriminate Hkb].
    destruct c as [|[|c]]; [lia | lia | discriminate Hkc].
Defined.

(** C2 as stated fails for a bank without a band. The call with
    [num_fractions = 1], [freq_range = (900, 1900)], [overlap = 1],
    [slope = 0], [n_samples = 8] and [sampling_rate = 1000] has the one
    centre frequency 1000, which is not below the Nyquist frequency 500: the
    band is skipped with a warning, there is no band boundary, so that the
    conditions on the windows hold, the call returns, and the squared
    magnitude responses are the array of no rows, whose sum over the bands
    is 0 in every bin. *)
Lemma partition_of_unity_counterexample :
  fractional_octave_frequencies 1 [900; 1900] true
  = inr (mk_frequencies (Some [1000]) [1000] (Some (cutoff_of 1 [1000])))
  /\ below_nyquist 1000 [1000] = [false]
  /\ dft_lines 8 1000 (select [false] (cutoff_of 1 [1000]).1) = []
  /\ dft_lines 8 1000 (select [false] [1000]) = []
  /\ dft_lines 8 1000 (select [false] (cutoff_of 1 [1000]).2) = []
  /\ magnitude_responses [] [] [] 1 0 5 = inr []
  /\ column_sum [] 0 = 0
  /\ column_sum [] 0 <> 1
  /\ ReconstructingFractionalOctaveBands_get_coefficients sample_rfftfreq
       sample_irfft sample_hann ∅ 1 [900; 1900] 1 0 8 1000 []
     = (inr [], [UserWarning skip_msg []]).
Proof.
  assert (Hid : below_nyquist 1000 [1000] = [false]).
  { unfold below_nyquist. cbn [map]. decide_reals. reflexivity. }
  split; [exact octave_grid_900_1900|]. split; [exact Hid|].
  split; [reflexivity|]. split; [reflexivity|]. split; [reflexivity|].
  split; [reflexivity|]. split; [reflexivity|].
  split; [cbn; lra|].
  unfold ReconstructingFractionalOctaveBands_get_coefficients.
  unfold_M. rewrite octave_grid_900_1900.
  cbn [f_crit from_option exact]. rewrite Hid.
  cbn [np_all forallb negb andb select fst snd cutoff_of map dft_lines].
  change (8 / 2 + 1)%Z with 5%Z.
  destruct (decide (5 < 0)%Z) as [Hneg|_]; [lia|].
  reflexivity.
Qed.

(** * Further properties of the code *)

(** ** Rounding *)

Lemma around_cases (x : R) :
  let z := around x in
  Rabs (x - IZR z) < 1 / 2
  \/ (Rabs (x - IZR z) = 1 / 2 /\ Z.even z = true).
Proof.
  cbv zeta. unfold around.
  destruct (base_Int_part x) as [Hf1 Hf2].
  set (f := Int_part x) in *.
  destruct (decide (x - IZR f < 1 / 2)) as [Hlt|Hge].
  - left. apply Rabs_def1; lra.
  - destruct (decide (1 / 2 < x - IZR f)) as [Hgt|Hle].
    + left. rewrite plus_IZR. apply Rabs_def1; lra.
    + assert (Hd : x - IZR f = 1 / 2) by lra. right.
      destruct (Z.even f) eqn:Hev.
      * split; [rewrite Hd, Rabs_pos_eq; lra | exact Hev].
      * split.
        -- rewrite plus_IZR.
           replace (x - (IZR f + 1)) with (- (1 / 2)) by lra.
           rewrite Rabs_Ropp, Rabs_pos_eq; lra.
        -- rewrite Z.even_add, Hev. reflexivity.
Qed.

Lemma around_error (x : R) : Rabs (x - IZR (around x)) <= 1 / 2.
Proof. destruct (around_cases x) as [H|[H _]]; lra. Qed.

Lemma around_tie (x : R) (z : Z) :
  Rabs (x - IZR z) = 1 / 2 -> Z.even z = true -> around x = z.
Proof.
  intros Habs Hev.
  destruct (around_cases x) as [Hlt|[Heq Hev']].
  - set (w := around x) in *.
    assert (Hzw : Rabs (IZR z - IZR w) < 1).
    { replace (IZR z - IZR w) with ((x - IZR w) - (x - IZR z)) by lra.
      eapply Rle_lt_trans; [apply Rabs_triang|].
      rewrite Rabs_Ropp. lra. }
    apply Rabs_def2 in Hzw as [H1 H2].
    assert (z - w < 1)%Z by (apply lt_IZR; rewrite minus_IZR; lra).
    assert (-1 < z - w)%Z by (apply lt_IZR; rewrite minus_IZR; lra).
    lia.
  - set (w := around x) in *.
    assert (Hzw : Rabs (IZR z - IZR w) <= 1).
    { replace (IZR z - IZR w) with ((x - IZR w) - (x - IZR z)) by lra.
      eapply Rle_trans; [apply Rabs_triang|].
      rewrite Rabs_Ropp. lra. }
    assert (H1 : -1 <= IZR z - IZR w <= 1).
    { unfold Rabs in Hzw. destruct (Rcase_abs _) in Hzw; lra. }
    assert (z - w <= 1)%Z by (apply le_IZR; rewrite minus_IZR; lra).
    assert (-1 <= z - w)%Z by (apply le_IZR; rewrite minus_IZR; lra).
    assert (Hcases : z = w \/ z = (w + 1)%Z \/ z = (w - 1)%Z) by lia.
    destruct Hcases as [->|[->| ->]]; [reflexivity | |].
    + rewrite Z.even_add, Hev' in Hev. discriminate.
    + rewrite Z.even_sub, Hev' in Hev. discriminate.
Qed.

(** Rounding half to even is odd: [around (- x) = - around x]. *)
Lemma around_opp (x : R) : around (- x) = (- around x)%Z.
Proof.
  destruct (around_cases x) as [Hlt|[Heq Hev]].
  - apply around_near. rewrite opp_IZR.
    replace (- x - - IZR (around x)) with (- (x - IZR (around x))) by lra.
    rewrite Rabs_Ropp. exact Hlt.
  - apply around_tie.
    + rewrite opp_IZR.
      replace (- x - - IZR (around x)) with (- (x - IZR (around x))) by lra.
      rewrite Rabs_Ropp. exact Heq.
    + rewrite Z.even_opp. exact Hev.
Qed.

(** ** Fractions other than one and three *)

Lemma arange_incl_elem (a b z : Z) :
  z ∈ arange_incl a b <-> (a <= z <= b)%Z.
Proof.
  rewrite list_elem_of_lookup. split.
  - intros [i Hi]. unfold arange_incl in Hi.
    rewrite list_lookup_fmap in Hi.
    destruct (seq 0 (Z.to_nat (b + 1 - a)) !! i) as [k|] eqn:Hk; [|done].
    apply lookup_seq in Hk as [-> Hlt]. cbn in Hi. injection Hi as <-. lia.
  - intros Hz. exists (Z.to_nat (z - a)). apply arange_incl_lookup, Hz.
Qed.

Lemma Rpower_2_log2 (y : R) : 0 < y -> Rpower 2 (log2 y) = y.
Proof.
  intros Hy. unfold Rpower, log2. pose proof ln_2_pos.
  replace (ln y / ln 2 * ln 2) with (ln y) by (field; lra).
  apply exp_ln, Hy.
Qed.

Lemma log2_inv (a b : R) : 0 < a -> 0 < b -> log2 (a / b) = - log2 (b / a).
Proof.
  intros Ha Hb. unfold log2, Rdiv.
  assert (0 < / a) by (apply Rinv_0_lt_compat, Ha).
  assert (0 < / b) by (apply Rinv_0_lt_compat, Hb).
  rewrite !ln_mult, !ln_Rinv by assumption.
  pose proof ln_2_pos. field. lra.
Qed.

(** The first and the last index of
    [__exact_center_frequencies_fractional_octaves]: they are in order, and
    each is within one half of the unrounded value. *)
Lemma exact_indices (num_fractions : Z) (lo hi : R) :
  (1 <= num_fractions)%Z -> 0 < lo -> lo <= hi ->
  let first := (- around (IZR num_fractions * log2 (1000 / lo)))%Z in
  let last := around (IZR num_fractions * log2 (hi / 1000)) in
  (first <= last)%Z
  /\ IZR num_fractions * log2 (lo / 1000) - 1 / 2 <= IZR first
  /\ IZR last <= IZR num_fractions * log2 (hi / 1000) + 1 / 2.
Proof.
  intros Hnf Hlo Hle. cbv zeta.
  assert (Hn : 1 <= IZR num_fractions) by (apply IZR_le in Hnf; exact Hnf).
  rewrite (log2_inv 1000 lo) by lra.
  replace (IZR num_fractions * - log2 (lo / 1000))
    with (- (IZR num_fractions * log2 (lo / 1000))) by ring.
  rewrite around_opp, Z.opp_involutive.
  assert (Hmono : log2 (lo / 1000) <= log2 (hi / 1000)).
  { unfold log2. pose proof ln_2_pos.
    apply Rmult_le_compat_r; [apply Rlt_le, Rinv_0_lt_compat; lra|].
    destruct (Req_dec lo hi) as [->|Hne]; [lra|].
    apply Rlt_le, ln_increasing; [|lra].
    apply Rdiv_lt_0_compat; lra. }
  split; [apply around_mono; nra|].
  pose proof (around_error (IZR num_fractions * log2 (lo / 1000))) as H1.
  pose proof (around_error (IZR num_fractions * log2 (hi / 1000))) as H2.
  unfold Rabs in H1, H2.
  destruct (Rcase_abs _) in H1; destruct (Rcase_abs _) in H2; split; lra.
Qed.



(** X2. For fractions other than one and three the centre frequencies may lie
    outside [freq_range], but by no more than half a band: every one lies
    between [low * 2^(-1/(2 num_fractions))] and
    [high * 2^(1/(2 num_fractions))]. *)
Theorem arbitrary_fractions_within_half_band (num_fractions : Z)
    (lo hi : R) (rc : bool) :
  (1 <= num_fractions)%Z -> num_fractions <> 1%Z -> num_fractions <> 3%Z ->
  0 < lo -> lo <= hi ->
  exists fr,
    fractional_octave_frequencies num_fractions [lo; hi] rc = inr fr
    /\ forall e : R,
         e ∈ exact fr ->
         lo * Rpower 2 (- 1 / (2 * IZR num_fractions)) <= e
         /\ e <= hi * Rpower 2 (1 / (2 * IZR num_fractions)).
Proof.
  intros Hnf H1 H3 Hlo Hle.
  destruct (fractional_octave_frequencies_ok num_fractions lo hi rc Hle)
    as (nom & ex & Heq & _ & _ & Hother); [lia|].
  destruct Hother as [-> ->]; [lia|].
  eexists. split; [exact Heq|]. cbn [exact].
  unfold exact_center_frequencies_fractional_octaves.
  intros e He. apply list_elem_of_fmap in He as (i & -> & Hi).
  apply arange_incl_elem in Hi.
  destruct (exact_indices num_fractions lo hi Hnf Hlo Hle)
    as (_ & Hfirst & Hlast). cbv zeta in Hfirst, Hlast.
  assert (Hn : 1 <= IZR num_fractions) by (apply IZR_le in Hnf; exact Hnf).
  destruct Hi as [Hi1 Hi2]. apply IZR_le in Hi1, Hi2.
  assert (Hinv : 0 < / IZR num_fractions) by (apply Rinv_0_lt_compat; lra).
  split.
  - replace lo with (1000 * Rpower 2 (log2 (lo / 1000))) at 1
      by (rewrite Rpower_2_log2 by (apply Rdiv_lt_0_compat; lra); field).
    rewrite Rmult_assoc, <- Rpower_plus.
    apply Rmult_le_compat_l; [lra|]. apply Rpower_mono; [lra|].
    apply Rmult_le_reg_r with (IZR num_fractions); [lra|].
    replace (IZR i / IZR num_fractions * IZR num_fractions) with (IZR i)
      by (field; lra).
    replace ((log2 (lo / 1000) + -1 / (2 * IZR num_fractions))
             * IZR num_fractions)
      with (IZR num_fractions * log2 (lo / 1000) - 1 / 2) by (field; lra).
    lra.
  - replace hi with (1000 * Rpower 2 (log2 (hi / 1000))) at 1
      by (rewrite Rpower_2_log2 by (apply Rdiv_lt_0_compat; lra); field).
    rewrite Rmult_assoc, <- Rpower_plus.
    apply Rmult_le_compat_l; [lra|]. apply Rpower_mono; [lra|].
    apply Rmult_le_reg_r with (IZR num_fractions); [lra|].
    replace (IZR i / IZR num_fractions * IZR num_fractions) with (IZR i)
      by (field; lra).
    replace ((log2 (hi / 1000) + 1 / (2 * IZR num_fractions))
             * IZR num_fractions)
      with (IZR num_fractions * log2 (hi / 1000) + 1 / 2) by (field; lra).
    lra.
Qed.

Lemma arbitrary_fractions_within_half_band_witness :
  exists fr,
    fractional_octave_frequencies 2 [20; 20000] true = inr fr
    /\ forall e : R,
         e ∈ exact fr ->
         20 * Rpower 2 (- 1 / (2 * IZR 2)) <= e
         /\ e <= 20000 * Rpower 2 (1 / (2 * IZR 2)).
Proof.
  apply (arbitrary_fractions_within_half_band 2 20 20000 true);
    first [lia | lra].
Defined.

Lemma octave_ratio_lt_2 : octave_ratio < 2.
Proof.
  unfold octave_ratio, Rpower. rewrite <- (exp_ln 2) at 1 by lra.
  apply exp_increasing.
  assert (H : ln (10 ^ 3) < ln (2 ^ 10)) by (apply ln_increasing; simpl; lra).
  rewrite !ln_pow in H by lra. simpl INR in H. lra.
Qed.

Lemma Rpower_base_lt (a b c : R) :
  0 < a -> a < b -> 0 < c -> Rpower a c < Rpower b c.
Proof.
  intros Ha Hab Hc. unfold Rpower. apply exp_increasing.
  apply Rmult_lt_compat_l; [exact Hc|]. apply ln_increasing; lra.
Qed.

(** X3. For fractions other than one and three adjacent bands do not meet: the
    centre frequencies are spaced by powers of 2 while the cutoff
    frequencies are placed with the octave ratio [10^(3/10) < 2], so the
    upper cutoff of every band lies strictly below the lower cutoff of the
    next one. *)
Theorem arbitrary_fractions_gap (num_fractions : Z) (lo hi : R) :
  (1 <= num_fractions)%Z -> num_fractions <> 1%Z -> num_fractions <> 3%Z ->
  0 < lo -> lo <= hi ->
  exists fr lower upper,
    fractional_octave_frequencies num_fractions [lo; hi] true = inr fr
    /\ f_crit fr = Some (lower, upper)
    /\ forall (i : nat) (u l : R),
         upper !! i = Some u -> lower !! S i = Some l -> u < l.
Proof.
  intros Hnf H1 H3 Hlo Hle.
  destruct (fractional_octave_frequencies_ok num_fractions lo hi true Hle)
    as (nom & ex & Heq & _ & _ & Hother); [lia|].
  destruct Hother as [-> ->]; [lia|].
  eexists _, _, _. split; [exact Heq|]. cbn [f_crit]. unfold cutoff_of.
  split; [reflexivity|].
  intros i u l Hu Hl. rewrite list_lookup_fmap in Hu, Hl.
  unfold exact_center_frequencies_fractional_octaves in Hu, Hl.
  rewrite list_lookup_fmap in Hu, Hl.
  set (a := (- around (IZR num_fractions * log2 (1000 / lo)))%Z) in *.
  set (b := around (IZR num_fractions * log2 (hi / 1000))) in *.
  destruct (arange_incl a b !! S i) as [j'|] eqn:Hj'; [|done].
  destruct (arange_incl a b !! i) as [j|] eqn:Hj; [|done].
  pose proof (lookup_lt_Some _ _ _ Hj') as Hlen.
  rewrite length_arange_incl in Hlen.
  rewrite arange_incl_lookup_nat in Hj, Hj' by lia.
  injection Hj as <-. injection Hj' as <-.
  cbn in Hu, Hl. injection Hu as <-. injection Hl as <-.
  assert (Hn : 1 <= IZR num_fractions) by (apply IZR_le in Hnf; exact Hnf).
  set (x := 1 / 2 / IZR num_fractions).
  assert (Hx : 0 < x) by (unfold x; apply Rdiv_lt_0_compat; lra).
  replace (-1 / 2 / IZR num_fractions) with (- x) by (unfold x; field; lra).
  replace (IZR (a + Z.of_nat (S i)) / IZR num_fractions)
    with (IZR (a + Z.of_nat i) / IZR num_fractions + (x + x))
    by (rewrite Nat2Z.inj_succ, <- Z.add_1_r, Z.add_assoc, (plus_IZR _ 1);
        unfold x; field; lra).
  rewrite Rpower_plus.
  pose proof (Rpower_octave_ratio_inv x) as Hinv.
  pose proof (Rpower_octave_ratio_gt_1 x Hx) as Hup.
  assert (Hgap : Rpower octave_ratio (x + x) < Rpower 2 (x + x)).
  { apply Rpower_base_lt; [apply octave_ratio_pos | apply octave_ratio_lt_2
                           | lra]. }
  rewrite Rpower_plus in Hgap.
  pose proof (exp_pos (IZR (a + Z.of_nat i) / IZR num_fractions * ln 2))
    as He. fold (Rpower 2 (IZR (a + Z.of_nat i) / IZR num_fractions)) in He.
  set (e := Rpower 2 (IZR (a + Z.of_nat i) / IZR num_fractions)) in *.
  set (g := Rpower octave_ratio x) in *.
  set (g' := Rpower octave_ratio (- x)) in *.
  set (t := Rpower 2 (x + x)) in *.
  assert (Hg' : 0 < g') by nra.
  assert (Hgt : g < t * g').
  { assert (g * (g' * g) < t * g' * g) by nra. nra. }
  assert (0 < 1000 * e) by lra.
  replace (1000 * e * g) with ((1000 * e) * g) by ring.
  replace (1000 * (e * t) * g') with ((1000 * e) * (t * g')) by ring.
  apply Rmult_lt_compat_l; assumption.
Qed.

Lemma arbitrary_fractions_gap_witness :
  exists fr lower upper,
    fractional_octave_frequencies 2 [20; 20000] true = inr fr
    /\ f_crit fr = Some (lower, upper)
    /\ forall (i : nat) (u l : R),
         upper !! i = Some u -> lower !! S i = Some l -> u < l.
Proof.
  apply (arbitrary_fractions_gap 2 20 20000); first [lia | lra].
Defined.

(** ** The standard bands *)

Lemma around_index_pos (nf k : Z) (f : R) (m n : nat) :
  0 < f -> (0 < nf)%Z ->
  10 ^ m < (f / 1000) ^ 20 -> (f / 1000) ^ 20 < 10 ^ n ->
  (6 * k - 3 <= nf * Z.of_nat m)%Z -> (nf * Z.of_nat n <= 6 * k + 3)%Z ->
  around (IZR nf * ln (f / 1000) / ln octave_ratio) = k.
Proof.
  intros Hf Hnf Hlo Hhi Hm Hn. apply around_near.
  assert (Hx : 0 < f / 1000) by (apply Rdiv_lt_0_compat; lra).
  set (x := f / 1000) in *.
  apply IZR_le in Hm, Hn.
  rewrite minus_IZR, !mult_IZR, <- INR_IZR_INZ in Hm.
  rewrite plus_IZR, !mult_IZR, <- INR_IZR_INZ in Hn.
  apply IZR_lt in Hnf.
  rewrite ln_octave_ratio. pose proof ln_10_pos as HL.
  assert (Hx20 : 0 < x ^ 20) by (apply pow_lt; exact Hx).
  apply ln_increasing in Hlo; [|apply pow_lt; lra].
  apply ln_increasing in Hhi; [|exact Hx20].
  rewrite !ln_pow in Hlo, Hhi by lra.
  assert (H20 : INR 20 = 20) by (simpl; lra). rewrite H20 in Hlo, Hhi.
  set (L := ln 10) in *. set (A := ln x) in *. set (N := IZR nf) in *.
  set (d := 3 / 10 * L).
  assert (Hd : 0 < d) by (unfold d; lra).
  assert (Ht : N * A / d * d = N * A) by (field; lra).
  set (t := N * A / d) in *.
  assert (H1 : N * (INR m * L) < N * (20 * A))
    by (apply Rmult_lt_compat_l; assumption).
  assert (H2 : N * (20 * A) < N * (INR n * L))
    by (apply Rmult_lt_compat_l; assumption).
  assert (Hm' : (6 * IZR k - 3) * L <= N * INR m * L)
    by (apply Rmult_le_compat_r; lra).
  assert (Hn' : N * INR n * L <= (6 * IZR k + 3) * L)
    by (apply Rmult_le_compat_r; lra).
  apply Rabs_def1; apply Rmult_lt_reg_r with d; try exact Hd;
    unfold d in *; lra.
Qed.

Lemma around_index_neg (nf k : Z) (f : R) (m n : nat) :
  0 < f -> (0 < nf)%Z ->
  10 ^ m < (1000 / f) ^ 20 -> (1000 / f) ^ 20 < 10 ^ n ->
  (- 6 * k - 3 <= nf * Z.of_nat m)%Z -> (nf * Z.of_nat n <= - 6 * k + 3)%Z ->
  around (IZR nf * ln (f / 1000) / ln octave_ratio) = k.
Proof.
  intros Hf Hnf Hlo Hhi Hm Hn.
  assert (Hy : 0 < 1000 / f) by (apply Rdiv_lt_0_compat; lra).
  assert (Heq : f / 1000 = 1000 * (1000 / f) / 1000 * / (1000 / f)
                           * / (1000 / f)) by (field; lra).
  assert (Hln : ln (f / 1000) = - ln ((1000 / f) * 1000 / 1000)).
  { replace (1000 / f * 1000 / 1000) with (/ (f / 1000)) by (field; lra).
    rewrite ln_Rinv by (apply Rdiv_lt_0_compat; lra). lra. }
  rewrite Hln.
  replace (IZR nf * - ln (1000 / f * 1000 / 1000) / ln octave_ratio)
    with (- (IZR nf * ln (1000 / f * 1000 / 1000) / ln octave_ratio))
    by (unfold Rdiv; ring).
  rewrite around_opp.
  rewrite (around_index_pos nf (- k) (1000 / f * 1000) m n);
    [lia | lra | exact Hnf | | | lia | lia].
  - replace (1000 / f * 1000 / 1000) with (1000 / f) by (field; lra).
    exact Hlo.
  - replace (1000 / f * 1000 / 1000) with (1000 / f) by (field; lra).
    exact Hhi.
Qed.

Lemma around_index_zero (nf : Z) :
  around (IZR nf * ln (1000 / 1000) / ln octave_ratio) = 0%Z.
Proof.
  replace (1000 / 1000) with 1 by lra. rewrite ln_1.
  replace (IZR nf * 0 / ln octave_ratio) with (IZR 0) by (unfold Rdiv; ring).
  apply around_IZR.
Qed.

Lemma iec_indices_octaves :
  map (fun f => around (IZR 1 * ln (f / reference_freq) / ln octave_ratio))
      nominal_octaves
  = [-5; -4; -3; -2; -1; 0; 1; 2; 3; 4]%Z.
Proof.
  unfold nominal_octaves, reference_freq. cbn [map]. repeat f_equal.
  - apply (around_index_neg 1 (-5) _ 27 33); [lra | lia | simpl; lra | simpl; lra | lia | lia].
  - apply (around_index_neg 1 (-4) _ 21 27); [lra | lia | simpl; lra | simpl; lra | lia | lia].
  - apply (around_index_neg 1 (-3) _ 15 21); [lra | lia | simpl; lra | simpl; lra | lia | lia].
  - apply (around_index_neg 1 (-2) _ 9 15); [lra | lia | simpl; lra | simpl; lra | lia | lia].
  - apply (around_index_neg 1 (-1) _ 3 9); [lra | lia | simpl; lra | simpl; lra | lia | lia].
  - apply around_index_zero.
  - apply (around_index_pos 1 1 _ 3 9); [lra | lia | simpl; lra | simpl; lra | lia | lia].
  - apply (around_index_pos 1 2 _ 9 15); [lra | lia | simpl; lra | simpl; lra | lia | lia].
  - apply (around_index_pos 1 3 _ 15 21); [lra | lia | simpl; lra | simpl; lra | lia | lia].
  - apply (around_index_pos 1 4 _ 21 27); [lra | lia | simpl; lra | simpl; lra | lia | lia].
Qed.

Lemma iec_indices_third_octaves :
  map (fun f => around (IZR 3 * ln (f / reference_freq) / ln octave_ratio))
      nominal_third_octaves
  = [-16; -15; -14; -13; -12; -11; -10; -9; -8; -7; -6; -5; -4; -3; -2; -1;
     0; 1; 2; 3; 4; 5; 6; 7; 8; 9; 10; 11; 12; 13]%Z.
Proof.
  unfold nominal_third_octaves, reference_freq. cbn [map]. repeat f_equal.
  - apply (around_index_neg 3 (-16) _ 31 33); [lra | lia | simpl; lra | simpl; lra | lia | lia].
  - apply (around_index_neg 3 (-15) _ 29 31); [lra | lia | simpl; lra | simpl; lra | lia | lia].
  - apply (around_index_neg 3 (-14) _ 27 29); [lra | lia | simpl; lra | simpl; lra | lia | lia].
  - apply (around_index_neg 3 (-13) _ 25 27); [lra | lia | simpl; lra | simpl; lra | lia | lia].
  - apply (around_index_neg 3 (-12) _ 23 25); [lra | lia | simpl; lra | simpl; lra | lia | lia].
  - apply (around_index_neg 3 (-11) _ 21 23); [lra | lia | simpl; lra | simpl; lra | lia | lia].
  - apply (around_index_neg 3 (-10) _ 19 21); [lra | lia | simpl; lra | simpl; lra | lia | lia].
  - apply (around_index_neg 3 (-9) _ 17 19); [lra | lia | simpl; lra | simpl; lra | lia | lia].
  - apply (around_index_neg 3 (-8) _ 15 17); [lra | lia | simpl; lra | simpl; lra | lia | lia].
  - apply (around_index_neg 3 (-7) _ 13 15); [lra | lia | simpl; lra | simpl; lra | lia | lia].
  - apply (around_index_neg 3 (-6) _ 11 13); [lra | lia | simpl; lra | simpl; lra | lia | lia].
  - apply (around_index_neg 3 (-5) _ 9 11); [lra | lia | simpl; lra | simpl; lra | lia | lia].
  - apply (around_index_neg 3 (-4) _ 7 9); [lra | lia | simpl; lra | simpl; lra | lia | lia].
  - apply (around_index_neg 3 (-3) _ 5 7); [lra | lia | simpl; lra | simpl; lra | lia | lia].
  - apply (around_index_neg 3 (-2) _ 3 5); [lra | lia | simpl; lra | simpl; lra | lia | lia].
  - apply (around_index_neg 3 (-1) _ 1 3); [lra | lia | simpl; lra | simpl; lra | lia | lia].
  - apply around_index_zero.
  - apply (around_index_pos 3 1 _ 1 3); [lra | lia | simpl; lra | simpl; lra | lia | lia].
  - apply (around_index_pos 3 2 _ 3 5); [lra | lia | simpl; lra | simpl; lra | lia | lia].
  - apply (around_index_pos 3 3 _ 5 7); [lra | lia | simpl; lra | simpl; lra | lia | lia].
  - apply (around_index_pos 3 4 _ 7 9); [lra | lia | simpl; lra | simpl; lra | lia | lia].
  - apply (around_index_pos 3 5 _ 9 11); [lra | lia | simpl; lra | simpl; lra | lia | lia].
  - apply (around_index_pos 3 6 _ 11 13); [lra | lia | simpl; lra | simpl; lra | lia | lia].
  - apply (around_index_pos 3 7 _ 13 15); [lra | lia | simpl; lra | simpl; lra | lia | lia].
  - apply (around_index_pos 3 8 _ 15 17); [lra | lia | simpl; lra | simpl; lra | lia | lia].
  - apply (around_index_pos 3 9 _ 17 19); [lra | lia | simpl; lra | simpl; lra | lia | lia].
  - apply (around_index_pos 3 10 _ 19 21); [lra | lia | simpl; lra | simpl; lra | lia | lia].
  - apply (around_index_pos 3 11 _ 21 23); [lra | lia | simpl; lra | simpl; lra | lia | lia].
  - apply (around_index_pos 3 12 _ 23 25); [lra | lia | simpl; lra | simpl; lra | lia | lia].
  - apply (around_index_pos 3 13 _ 25 27); [lra | lia | simpl; lra | simpl; lra | lia | lia].
Qed.

(** The exact frequency of the [j]-th entry of the standard table is
    [1000 * G^(x / num_fractions)] with [x] the index of its band. *)
Lemma iec_exact (num_fractions : Z) :
  num_fractions = 1%Z \/ num_fractions = 3%Z ->
  center_frequencies_fractional_octaves_iec None num_fractions
  = inr (iec_table num_fractions,
         map (fun j : nat =>
                reference_freq
                * Rpower octave_ratio
                    (IZR (iec_band_index num_fractions j)
                     / IZR num_fractions))
             (seq 0 (length (iec_table num_fractions)))).
Proof.
  intros Hnf. unfold center_frequencies_fractional_octaves_iec.
  assert (Htbl : (if decide (num_fractions = 1%Z) then Some nominal_octaves
                  else if decide (num_fractions = 3%Z)
                       then Some nominal_third_octaves else None)
                 = Some (iec_table num_fractions)).
  { unfold iec_table. destruct Hnf as [-> | ->].
    - rewrite !decide_True by reflexivity. reflexivity.
    - rewrite decide_False by lia. rewrite decide_True by reflexivity.
      rewrite decide_False by lia. reflexivity. }
  rewrite Htbl.
  assert (Hodd : (num_fractions mod 2 =? 0)%Z = false)
    by (destruct Hnf as [-> | ->]; reflexivity).
  rewrite Hodd. cbn [negb]. f_equal. f_equal.
  rewrite <- (map_map
                (fun f => around (IZR num_fractions * ln (f / reference_freq)
                                  / ln octave_ratio))
                (fun k => reference_freq
                          * Rpower octave_ratio (IZR k / IZR num_fractions))).
  rewrite <- (map_map (iec_band_index num_fractions)
                (fun k => reference_freq
                          * Rpower octave_ratio (IZR k / IZR num_fractions))).
  f_equal.
  destruct Hnf as [-> | ->]; unfold iec_table.
  - rewrite decide_True by reflexivity. rewrite iec_indices_octaves.
    reflexivity.
  - rewrite decide_False by lia. rewrite iec_indices_third_octaves.
    reflexivity.
Qed.

(** The call on the standard tables, written out. *)
Lemma iec_frequencies (num_fractions : Z) (lo hi : R) (rc : bool) :
  num_fractions = 1%Z \/ num_fractions = 3%Z -> lo <= hi ->
  let mask := map (fun f => bool_decide (f >= lo) && bool_decide (f <= hi))
                  (iec_table num_fractions) in
  let ex := select mask
              (map (fun j : nat =>
                      reference_freq
                      * Rpower octave_ratio
                          (IZR (iec_band_index num_fractions j)
                           / IZR num_fractions))
                   (seq 0 (length (iec_table num_fractions)))) in
  fractional_octave_frequencies num_fractions [lo; hi] rc
  = inr (mk_frequencies (Some (select mask (iec_table num_fractions))) ex
           (if rc then Some (cutoff_of num_fractions ex) else None)).
Proof.
  intros Hnf Hle. cbv zeta. unfold fractional_octave_frequencies.
  rewrite decide_False by lra. rewrite decide_True by exact Hnf.
  rewrite (iec_exact _ Hnf). cbn [mbind result_bind rbind fst snd].
  destruct rc; [|reflexivity].
  rewrite decide_False by lia. reflexivity.
Qed.

Lemma select_lookup_pair {A B : Type} (mask : list bool) (xs : list A)
    (ys : list B) (i : nat) (x : A) (y : B) :
  select mask xs !! i = Some x -> select mask ys !! i = Some y ->
  exists j, mask !! j = Some true /\ xs !! j = Some x /\ ys !! j = Some y.
Proof.
  revert xs ys i.
  induction mask as [|m mask IH]; intros [|x0 xs] [|y0 ys] i Hx Hy;
    try done; try (destruct m; done).
  destruct m; cbn in Hx, Hy.
  - destruct i as [|i].
    + exists 0%nat. cbn in *. auto.
    + destruct (IH xs ys i Hx Hy) as (j & Hj). exists (S j). exact Hj.
  - destruct (IH xs ys i Hx Hy) as (j & Hj). exists (S j). exact Hj.
Qed.

(** Where the mask selects a run of consecutive positions, neighbours in
    the selection are neighbours in the arrays. *)
Lemma select_lookup_adjacent {A B : Type} (mask : list bool) (xs : list A)
    (ys : list B) (i : nat) (x : A) (y : B) :
  (forall i k j : nat,
      (i < k < j)%nat -> mask !! i = Some true -> mask !! j = Some true ->
      mask !! k = Some true) ->
  select mask xs !! i = Some x -> select mask ys !! S i = Some y ->
  exists j, xs !! j = Some x /\ ys !! S j = Some y.
Proof.
  revert xs ys i.
  induction mask as [|m mask IH]; intros [|x0 xs] [|y0 ys] i Hconv Hx Hy;
    try done; try (destruct m; done).
  assert (Hconv' : forall i k j : nat,
             (i < k < j)%nat -> mask !! i = Some true ->
             mask !! j = Some true -> mask !! k = Some true).
  { intros a k b Hakb Ha Hb. apply (Hconv (S a) (S k) (S b)); [lia|..];
      assumption. }
  destruct m; cbn in Hx, Hy.
  - destruct i as [|i].
    + cbn in Hx. injection Hx as <-.
      destruct (select_lookup_pair mask ys ys 0 y y Hy Hy) as (j & Hj & Hyj & _).
      destruct j as [|j].
      * exists 0%nat. split; [reflexivity | exact Hyj].
      * assert (H0 : (true :: mask) !! 1%nat = Some true)
          by (apply (Hconv 0%nat 1%nat (S (S j))); [lia | reflexivity | exact Hj]).
        cbn in H0. destruct mask as [|[] mask]; try done.
        destruct ys as [|y1 ys]; [done|]. cbn in Hy. injection Hy as <-.
        exists 0%nat. split; reflexivity.
    + destruct (IH xs ys i Hconv' Hx Hy) as (j & Hj). exists (S j). exact Hj.
  - destruct (IH xs ys i Hconv' Hx Hy) as (j & Hj). exists (S j). exact Hj.
Qed.

Lemma in_range_mask_convex (lo hi : R) (table : list R) (i k j : nat) :
  StronglySorted (fun x y => 0 < x <= y) table ->
  let mask := map (fun f => bool_decide (f >= lo) && bool_decide (f <= hi))
                  table in
  (i < k < j)%nat -> mask !! i = Some true -> mask !! j = Some true ->
  mask !! k = Some true.
Proof.
  intros Hsorted mask Hikj Hi Hj. unfold mask in *.
  rewrite list_lookup_fmap in Hi, Hj |- *.
  destruct (table !! i) as [a|] eqn:Ha; [|done].
  destruct (table !! j) as [b|] eqn:Hb; [|done].
  assert (Hk : is_Some (table !! k)).
  { apply lookup_lt_is_Some. apply lookup_lt_Some in Hb. lia. }
  destruct Hk as [c Hc]. rewrite Hc. cbn in *.
  injection Hi as Hi. injection Hj as Hj.
  apply andb_true_iff in Hi as [Hi1 _]. apply andb_true_iff in Hj as [_ Hj2].
  apply bool_decide_eq_true in Hi1, Hj2.
  destruct (StronglySorted_lookup_le _ _ i k a c Hsorted) as [_ Hac];
    [lia | assumption.. |].
  destruct (StronglySorted_lookup_le _ _ k j c b Hsorted) as [_ Hcb];
    [lia | assumption.. |].
  f_equal. apply andb_true_iff. split; apply bool_decide_eq_true; lra.
Qed.

(** X4. For one and three fractions per octave every band returned is a band of
    the standard table: its nominal frequency is an entry of the table that
    lies in [freq_range], ends included, and its exact frequency is
    [1000 * G^(x / num_fractions)] with [x] the index of the entry counted
    from 1000 Hz. Nominal and exact frequencies run parallel. *)
Theorem standard_exact_frequencies (num_fractions : Z) (lo hi : R) :
  num_fractions = 1%Z \/ num_fractions = 3%Z -> lo <= hi ->
  exists fr nom,
    fractional_octave_frequencies num_fractions [lo; hi] true = inr fr
    /\ nominal fr = Some nom
    /\ length (exact fr) = length nom
    /\ forall (i : nat) (n e : R),
         nom !! i = Some n -> exact fr !! i = Some e ->
         lo <= n <= hi
         /\ exists j : nat,
              iec_table num_fractions !! j = Some n
              /\ e = 1000 * Rpower (Rpower 10 (3 / 10))
                              (IZR (iec_band_index num_fractions j)
                               / IZR num_fractions).
Proof.
  intros Hnf Hle. eexists _, _.
  split; [apply (iec_frequencies _ _ _ true Hnf Hle)|].
  cbn [nominal exact]. split; [reflexivity|]. split.
  - rewrite length_select_map.
    rewrite <- (length_select_map (fun f => f) _ (iec_table num_fractions)).
    rewrite <- (length_select_map (fun j => iec_table num_fractions !!! j)
                  _ (seq 0 (length (iec_table num_fractions)))).
    f_equal. f_equal. rewrite map_id.
    apply list_eq. intros k. rewrite list_lookup_fmap.
    destruct (iec_table num_fractions !! k) as [x|] eqn:Hx.
    + rewrite lookup_seq_lt by (eapply lookup_lt_Some, Hx). cbn.
      rewrite (list_lookup_total_correct _ _ _ Hx). reflexivity.
    + rewrite lookup_seq_ge; [reflexivity|].
      apply lookup_ge_None in Hx. exact Hx.
  - intros i n e Hn He.
    destruct (select_lookup_pair _ _ _ _ _ _ Hn He) as (j & Hm & Hj & Hej).
    rewrite list_lookup_fmap, Hj in Hm. cbn in Hm. injection Hm as Hm.
    apply andb_true_iff in Hm as [H1 H2]. apply bool_decide_eq_true in H1, H2.
    split; [lra|]. exists j. split; [exact Hj|].
    rewrite list_lookup_fmap in Hej.
    destruct (seq 0 (length (iec_table num_fractions)) !! j) as [k|] eqn:Hk;
      [|done].
    apply lookup_seq in Hk as [-> _]. cbn in Hej. injection Hej as <-.
    reflexivity.
Qed.

Lemma standard_exact_frequencies_witness :
  exists fr nom,
    fractional_octave_frequencies 3 [20; 20000] true = inr fr
    /\ nominal fr = Some nom
    /\ length (exact fr) = length nom
    /\ forall (i : nat) (n e : R),
         nom !! i = Some n -> exact fr !! i = Some e ->
         20 <= n <= 20000
         /\ exists j : nat,
              iec_table 3 !! j = Some n
              /\ e = 1000 * Rpower (Rpower 10 (3 / 10))
                              (IZR (iec_band_index 3 j) / IZR 3).
Proof.
  apply (standard_exact_frequencies 3 20 20000); [right; reflexivity | lra].
Defined.

(** X5. For one and three fractions per octave the bands returned tile the
    frequency axis: the upper cutoff frequency of every band is the lower
    cutoff frequency of the next one. *)
Theorem standard_bands_contiguous (num_fractions : Z) (lo hi : R) :
  num_fractions = 1%Z \/ num_fractions = 3%Z -> lo <= hi ->
  exists fr lower upper,
    fractional_octave_frequencies num_fractions [lo; hi] true = inr fr
    /\ f_crit fr = Some (lower, upper)
    /\ forall (i : nat) (u l : R),
         upper !! i = Some u -> lower !! S i = Some l -> u = l.
Proof.
  intros Hnf Hle. eexists _, _, _.
  split; [apply (iec_frequencies _ _ _ true Hnf Hle)|].
  cbn [f_crit]. unfold cutoff_of. split; [reflexivity|].
  intros i u l Hu Hl. rewrite list_lookup_fmap in Hu, Hl.
  set (mask := map (fun f => bool_decide (f >= lo) && bool_decide (f <= hi))
                   (iec_table num_fractions)) in *.
  set (E := fun j : nat =>
              reference_freq
              * Rpower octave_ratio
                  (IZR (iec_band_index num_fractions j) / IZR num_fractions))
    in *.
  set (full := map E (seq 0 (length (iec_table num_fractions)))) in *.
  destruct (select mask full !! i) as [e|] eqn:He; [|done].
  destruct (select mask full !! S i) as [e'|] eqn:He'; [|done].
  cbn in Hu, Hl. injection Hu as <-. injection Hl as <-.
  destruct (select_lookup_adjacent mask full full i e e') as (j & Hj & Hj');
    [|exact He | exact He' |].
  { intros a k b. apply in_range_mask_convex, iec_table_sorted. }
  unfold full in Hj, Hj'. rewrite list_lookup_fmap in Hj, Hj'.
  destruct (seq 0 (length (iec_table num_fractions)) !! S j) as [k'|] eqn:Hk';
    [|done].
  destruct (seq 0 (length (iec_table num_fractions)) !! j) as [k|] eqn:Hk;
    [|done].
  apply lookup_seq in Hk as [-> _]. apply lookup_seq in Hk' as [-> _].
  cbn in Hj, Hj'. injection Hj as <-. injection Hj' as <-.
  unfold E, reference_freq. rewrite !Rmult_assoc, <- !Rpower_plus.
  f_equal. f_equal.
  assert (Hidx : iec_band_index num_fractions (S j)
                 = (iec_band_index num_fractions j + 1)%Z)
    by (unfold iec_band_index; lia).
  rewrite Hidx, plus_IZR.
  assert (IZR num_fractions <> 0)
    by (destruct Hnf as [-> | ->]; lra).
  field. assumption.
Qed.

Lemma standard_bands_contiguous_witness :
  exists fr lower upper,
    fractional_octave_frequencies 1 [20; 20000] true = inr fr
    /\ f_crit fr = Some (lower, upper)
    /\ forall (i : nat) (u l : R),
         upper !! i = Some u -> lower !! S i = Some l -> u = l.
Proof.
  apply (standard_bands_contiguous 1 20 20000); [left; reflexivity | lra].
Defined.

(** ** Order of the frequencies *)

Lemma seq_sorted (s len : nat) : StronglySorted lt (seq s len).
Proof.
  revert s. induction len as [|len IH]; intros s; cbn; constructor;
    [apply IH|].
  rewrite Forall_lookup. intros i k Hk. apply lookup_seq in Hk. lia.
Qed.

Lemma arange_incl_strictly_sorted (a b : Z) :
  StronglySorted Z.lt (arange_incl a b).
Proof.
  unfold arange_incl.
  apply (StronglySorted_fmap _ lt); [intros x y Hxy; lia | apply seq_sorted].
Qed.

Lemma Rpower_strict_mono (b x y : R) :
  1 < b -> x < y -> Rpower b x < Rpower b y.
Proof. intros Hb Hxy. apply Rpower_lt; assumption. Qed.

Lemma exact_frequencies_strictly_sorted (num_fractions : Z) (lo hi : R)
    (rc : bool) (fr : frequencies) :
  (1 <= num_fractions)%Z ->
  fractional_octave_frequencies num_fractions [lo; hi] rc = inr fr ->
  StronglySorted Rlt (exact fr).
Proof.
  intros Hnf Hfr.
  assert (Hle : lo <= hi).
  { destruct (Rle_dec lo hi) as [H|H]; [exact H|].
    unfold fractional_octave_frequencies in Hfr.
    rewrite decide_True in Hfr by lra. discriminate. }
  assert (Hpos : 0 < IZR num_fractions) by (apply IZR_lt; lia).
  assert (HG : 1 < octave_ratio).
  { replace octave_ratio with (Rpower octave_ratio 1).
    - apply Rpower_octave_ratio_gt_1; lra.
    - apply Rpower_1, octave_ratio_pos. }
  destruct (decide (num_fractions = 1%Z \/ num_fractions = 3%Z))
    as [Hiec|Hother].
  - rewrite (iec_frequencies _ _ _ rc Hiec Hle) in Hfr.
    injection Hfr as <-. cbn [exact].
    apply StronglySorted_select.
    apply (StronglySorted_fmap _ lt); [|apply seq_sorted].
    intros i j Hij. unfold reference_freq.
    apply Rmult_lt_compat_l; [lra|]. apply Rpower_strict_mono; [exact HG|].
    apply Rmult_lt_compat_r; [apply Rinv_0_lt_compat, Hpos|].
    apply IZR_lt. unfold iec_band_index. lia.
  - destruct (fractional_octave_frequencies_ok num_fractions lo hi rc Hle)
      as (nom & ex & Heq & _ & _ & Hex); [lia|].
    destruct (Hex Hother) as [-> ->]. rewrite Heq in Hfr.
    injection Hfr as <-. cbn [exact].
    unfold exact_center_frequencies_fractional_octaves.
    apply (StronglySorted_fmap _ Z.lt); [|apply arange_incl_strictly_sorted].
    intros i j Hij.
    apply Rmult_lt_compat_l; [lra|]. apply Rpower_strict_mono; [lra|].
    apply Rmult_lt_compat_r; [apply Rinv_0_lt_compat, Hpos|].
    apply IZR_lt, Hij.
Qed.

(** X6. For every positive number of fractions and positive range the centre
    frequencies are returned in strictly ascending order, and so are the lower and the upper
    cutoff frequencies: no band is returned twice. *)
Theorem frequencies_strictly_ascending (num_fractions : Z) (lo hi : R) :
  (1 <= num_fractions)%Z -> 0 < lo -> lo <= hi ->
  exists fr lower upper,
    fractional_octave_frequencies num_fractions [lo; hi] true = inr fr
    /\ f_crit fr = Some (lower, upper)
    /\ StronglySorted Rlt (exact fr)
    /\ StronglySorted Rlt lower
    /\ StronglySorted Rlt upper.
Proof.
  intros Hnf Hlo Hle.
  destruct (fractional_octave_frequencies_ok num_fractions lo hi true Hle)
    as (nom & ex & Heq & _); [lia|].
  pose proof (exact_frequencies_strictly_sorted _ _ _ _ _ Hnf Heq) as Hsorted.
  eexists _, _, _. split; [exact Heq|]. cbn [f_crit exact] in *.
  unfold cutoff_of. split; [reflexivity|]. split; [exact Hsorted|].
  pose proof (exp_pos (-1 / 2 / IZR num_fractions * ln octave_ratio)) as Hl.
  pose proof (exp_pos (1 / 2 / IZR num_fractions * ln octave_ratio)) as Hu.
  split; apply (StronglySorted_fmap _ Rlt); try exact Hsorted;
    intros x y Hxy; apply Rmult_lt_compat_r; assumption.
Qed.

Lemma frequencies_strictly_ascending_witness :
  exists fr lower upper,
    fractional_octave_frequencies 3 [20; 20000] true = inr fr
    /\ f_crit fr = Some (lower, upper)
    /\ StronglySorted Rlt (exact fr)
    /\ StronglySorted Rlt lower
    /\ StronglySorted Rlt upper.
Proof.
  apply (frequencies_strictly_ascending 3 20 20000); first [lia | lra].
Defined.

Lemma select_elem {A : Type} (mask : list bool) (xs : list A) (j : nat)
    (x : A) :
  mask !! j = Some true -> xs !! j = Some x -> x ∈ select mask xs.
Proof.
  revert xs j. induction mask as [|m mask IH]; intros [|x0 xs] j Hm Hx;
    try done.
  destruct j as [|j]; cbn in Hm, Hx.
  - injection Hm as ->. injection Hx as ->. cbn. apply list_elem_of_here.
  - destruct m; cbn; [apply list_elem_of_further|]; eapply IH; eassumption.
Qed.

(** X7. Whenever a positive [freq_range] contains the reference frequency
    1000 Hz, 1000 Hz is one of the exact centre frequencies, for every
    positive number of fractions. *)
Theorem reference_frequency_included (num_fractions : Z) (lo hi : R)
    (rc : bool) :
  (1 <= num_fractions)%Z -> 0 < lo -> lo <= 1000 -> 1000 <= hi ->
  exists fr,
    fractional_octave_frequencies num_fractions [lo; hi] rc = inr fr
    /\ 1000 ∈ exact fr.
Proof.
  intros Hnf Hlo0 Hlo Hhi.
  assert (Hle : lo <= hi) by lra.
  assert (Hpos : 0 < IZR num_fractions) by (apply IZR_lt; lia).
  destruct (decide (num_fractions = 1%Z \/ num_fractions = 3%Z))
    as [Hiec|Hother].
  - eexists. split; [apply (iec_frequencies _ _ _ rc Hiec Hle)|].
    cbn [exact].
    set (j0 := if decide (num_fractions = 1%Z) then 5%nat else 16%nat).
    assert (Htab : iec_table num_fractions !! j0 = Some 1000).
    { unfold j0, iec_table. destruct Hiec as [-> | ->].
      - rewrite !decide_True by reflexivity. reflexivity.
      - rewrite !decide_False by lia. reflexivity. }
    apply (select_elem _ _ j0).
    + rewrite list_lookup_fmap, Htab. cbn. f_equal.
      apply andb_true_iff. split; apply bool_decide_eq_true; lra.
    + rewrite list_lookup_fmap.
      rewrite lookup_seq_lt by (eapply lookup_lt_Some, Htab). cbn. f_equal.
      assert (Hidx : iec_band_index num_fractions j0 = 0%Z).
      { unfold iec_band_index, j0. destruct Hiec as [-> | ->].
        - rewrite !decide_True by reflexivity. reflexivity.
        - rewrite !decide_False by lia. reflexivity. }
      rewrite Hidx. unfold reference_freq.
      replace (0 / IZR num_fractions) with 0 by (field; lra).
      rewrite Rpower_O by apply octave_ratio_pos. lra.
  - destruct (fractional_octave_frequencies_ok num_fractions lo hi rc Hle)
      as (nom & ex & Heq & _ & _ & Hex); [lia|].
    destruct (Hex Hother) as [-> ->].
    eexists. split; [exact Heq|]. cbn [exact].
    unfold exact_center_frequencies_fractional_octaves.
    apply list_elem_of_fmap. exists 0%Z. split.
    + replace (0 / IZR num_fractions) with 0 by (field; lra).
      rewrite Rpower_O by lra. lra.
    + apply arange_incl_elem.
      assert (H1 : (0 <= around (IZR num_fractions * log2 (1000 / lo)))%Z).
      { apply around_nonneg. unfold log2. pose proof ln_2_pos.
        assert (0 <= ln (1000 / lo)).
        { rewrite <- ln_1.
          destruct (Req_dec lo 1000) as [->|Hne].
          - replace (1000 / 1000) with 1 by lra. lra.
          - apply Rlt_le, ln_increasing; [lra|].
            apply Rmult_lt_reg_r with lo; [lra|].
            replace (1000 / lo * lo) with 1000 by (field; lra). lra. }
        assert (0 <= ln (1000 / lo) / ln 2)
          by (apply Rmult_le_pos; [lra | apply Rlt_le, Rinv_0_lt_compat; lra]).
        nra. }
      assert (H2 : (0 <= around (IZR num_fractions * log2 (hi / 1000)))%Z).
      { apply around_nonneg. unfold log2. pose proof ln_2_pos.
        assert (0 <= ln (hi / 1000)).
        { rewrite <- ln_1.
          destruct (Req_dec hi 1000) as [->|Hne].
          - replace (1000 / 1000) with 1 by lra. lra.
          - apply Rlt_le, ln_increasing; lra. }
        assert (0 <= ln (hi / 1000) / ln 2)
          by (apply Rmult_le_pos; [lra | apply Rlt_le, Rinv_0_lt_compat; lra]).
        nra. }
      lia.
Qed.

Lemma reference_frequency_included_witness :
  exists fr,
    fractional_octave_frequencies 1 [20; 20000] false = inr fr
    /\ 1000 ∈ exact fr.
Proof.
  apply (reference_frequency_included 1 20 20000 false); first [lia | lra].
Defined.

(** ** What the magnitude responses always satisfy *)

Lemma fill_slice_rows (Q : R -> Prop) (n : nat) (row : list R)
    (start stop : option Z) (v : R) :
  length row = n /\ Forall Q row -> Q v ->
  length (fill_slice row start stop v) = n
  /\ Forall Q (fill_slice row start stop v).
Proof.
  intros [Hlen HQ] Hv. split; [rewrite length_fill_slice; exact Hlen|].
  unfold fill_slice. repeat apply Forall_app_2.
  - apply Forall_take, HQ.
  - apply Forall_replicate, Hv.
  - apply Forall_drop, HQ.
Qed.

Lemma set_slice_rows (Q : R -> Prop) (n : nat) (row row' vals : list R)
    (start stop : option Z) :
  length row = n /\ Forall Q row -> Forall Q vals ->
  set_slice row start stop vals = inr row' ->
  length row' = n /\ Forall Q row'.
Proof.
  intros [Hlen HQ] Hvals. unfold set_slice.
  set (a := slice_start (length row) start).
  set (b := slice_stop (length row) stop).
  assert (Ha : (a <= length row)%nat).
  { unfold a, slice_start. destruct start; cbn; [apply slice_bound_le | lia]. }
  assert (Hb : (b <= length row)%nat).
  { unfold b, slice_stop. destruct stop; cbn; [apply slice_bound_le | lia]. }
  case_decide as Hfit.
  - intros [= <-]. split.
    + rewrite !length_app, length_take, length_drop. lia.
    + repeat apply Forall_app_2;
        [apply Forall_take, HQ | exact Hvals | apply Forall_drop, HQ].
  - destruct vals as [|v [|v' vals]]; try discriminate.
    intros [= <-]. apply fill_slice_rows; [split; assumption|].
    apply Forall_inv in Hvals. exact Hvals.
Qed.

Lemma getitem_rows (Q : list R -> Prop) (g : list (list R)) (i : nat)
    (row : list R) :
  Forall Q g -> getitem g i = inr row -> Q row.
Proof.
  intros HQ. unfold getitem.
  destruct (g !! i) as [r|] eqn:Hr; [|discriminate].
  intros [= <-]. eapply Forall_lookup_1; eassumption.
Qed.

Lemma insert_rows (Q : R -> Prop) (n : nat) (g : list (list R)) (i : nat)
    (row : list R) :
  rows_of Q n g -> length row = n /\ Forall Q row ->
  rows_of Q n (<[i := row]> g).
Proof. intros Hg Hrow. apply Forall_insert; assumption. Qed.

Lemma ramp_unit (P : Z) (slope : nat) :
  (0 < P)%Z -> Forall (fun x => 0 <= x <= 1) (ramp P slope).
Proof.
  intros HP. rewrite ramp_map. rewrite Forall_fmap.
  rewrite Forall_forall. intros p Hp. apply arange_incl_elem in Hp.
  apply phi_at_bounds; [exact HP | lia].
Qed.

(** One boundary keeps the rows as long as they were, and keeps any
    property of the entries that holds of 0 and of the two fades. *)
Lemma boundary_step_keeps (Q : R -> Prop) (k_1 P : list Z) (slope : nat)
    (n : nat) (g g' : list (list R)) (b : nat) :
  Q 0 ->
  (forall Pb, P !! b = Some Pb -> (0 < Pb)%Z ->
              forall x, 0 <= x <= 1 ->
                        Q (cos (PI / 2 * x)) /\ Q (sin (PI / 2 * x))) ->
  rows_of Q n g ->
  boundary_step k_1 P slope g b = inr g' ->
  length g' = length g /\ rows_of Q n g'.
Proof.
  intros H0 Hfade Hg. unfold boundary_step.
  destruct (getitem P b) as [e|Pb] eqn:HPb; [discriminate|].
  cbn [mbind result_bind rbind].
  assert (HP : P !! b = Some Pb).
  { unfold getitem in HPb. destruct (P !! b); [|discriminate].
    injection HPb as ->. reflexivity. }
  assert (Hfirst : forall g1,
    (if decide (Pb > 0)%Z then
       k1 ← getitem k_1 b;
       row ← getitem g (b - 1);
       row ← set_slice row (Some (k1 - Pb)%Z) (Some (k1 + Pb + 1)%Z)
               (map (fun x => cos (PI / 2 * x)) (ramp Pb slope));
       let g := <[(b - 1)%nat := row]> g in
       row ← getitem g b;
       row ← set_slice row (Some (k1 - Pb)%Z) (Some (k1 + Pb + 1)%Z)
               (map (fun x => sin (PI / 2 * x)) (ramp Pb slope));
       inr (<[b := row]> g)
     else inr g) = inr g1 ->
    length g1 = length g /\ rows_of Q n g1).
  { intros g1. case_decide as Hpos; [|intros [= <-]; split; [reflexivity|exact Hg]].
    assert (Hcos : Forall Q (map (fun x => cos (PI / 2 * x)) (ramp Pb slope))).
    { rewrite Forall_fmap. eapply Forall_impl; [apply ramp_unit; lia|].
      intros x Hx. apply (Hfade Pb HP); [lia | exact Hx]. }
    assert (Hsin : Forall Q (map (fun x => sin (PI / 2 * x)) (ramp Pb slope))).
    { rewrite Forall_fmap. eapply Forall_impl; [apply ramp_unit; lia|].
      intros x Hx. apply (Hfade Pb HP); [lia | exact Hx]. }
    destruct (getitem k_1 b) as [e|k1]; [discriminate|].
    cbn [mbind result_bind rbind].
    destruct (getitem g (b - 1)) as [e|rowA] eqn:HA; [discriminate|].
    cbn [mbind result_bind rbind].
    destruct (set_slice rowA _ _ _) as [e|rowA'] eqn:HA'; [discriminate|].
    cbn [mbind result_bind rbind].
    pose proof (getitem_rows _ _ _ _ Hg HA) as HrowA.
    pose proof (set_slice_rows Q n _ _ _ _ _ HrowA Hcos HA') as HrowA'.
    pose proof (insert_rows Q n g (b - 1) rowA' Hg HrowA') as Hg1.
    destruct (getitem (<[(b - 1)%nat := rowA']> g) b) as [e|rowB] eqn:HB;
      [discriminate|].
    cbn [mbind result_bind rbind].
    destruct (set_slice rowB _ _ _) as [e|rowB'] eqn:HB'; [discriminate|].
    cbn [mbind result_bind rbind].
    pose proof (getitem_rows _ _ _ _ Hg1 HB) as HrowB.
    pose proof (set_slice_rows Q n _ _ _ _ _ HrowB Hsin HB') as HrowB'.
    intros [= <-]. split; [rewrite !length_insert; reflexivity|].
    apply insert_rows; assumption. }
  destruct (if decide (Pb > 0)%Z then _ else _) as [e|g1] eqn:Hg1;
    [discriminate|].
  cbn [mbind result_bind rbind].
  destruct (Hfirst g1 eq_refl) as [Hlen1 Hrows1].
  destruct (getitem k_1 b) as [e|k1]; [discriminate|].
  cbn [mbind result_bind rbind].
  destruct (getitem g1 (b - 1)) as [e|rowA] eqn:HA; [discriminate|].
  cbn [mbind result_bind rbind].
  pose proof (getitem_rows _ _ _ _ Hrows1 HA) as HrowA.
  pose proof (fill_slice_rows Q n rowA (Some (k1 + Pb)%Z) None 0 HrowA H0)
    as HrowA'.
  pose proof (insert_rows Q n g1 (b - 1) _ Hrows1 HrowA') as Hg2.
  destruct (getitem (<[(b - 1)%nat :=
                        fill_slice rowA (Some (k1 + Pb)%Z) None 0]> g1) b)
    as [e|rowB] eqn:HB; [discriminate|].
  cbn [mbind result_bind rbind].
  pose proof (getitem_rows _ _ _ _ Hg2 HB) as HrowB.
  intros [= <-]. split; [rewrite !length_insert; exact Hlen1|].
  apply insert_rows; [exact Hg2|].
  apply fill_slice_rows; assumption.
Qed.

Lemma boundary_loop_keeps (Q : R -> Prop) (k_1 P : list Z) (slope : nat)
    (n : nat) (bs : list nat) :
  Q 0 ->
  (forall b Pb x, P !! b = Some Pb -> (0 < Pb)%Z -> 0 <= x <= 1 ->
                  Q (cos (PI / 2 * x)) /\ Q (sin (PI / 2 * x))) ->
  forall g g' : list (list R),
    rows_of Q n g ->
    boundary_loop k_1 P slope g bs = inr g' ->
    length g' = length g /\ rows_of Q n g'.
Proof.
  intros H0 Hfade. induction bs as [|b bs IH]; intros g g' Hg.
  - intros [= <-]. split; [reflexivity | exact Hg].
  - destruct (boundary_step k_1 P slope g b) as [e|g1] eqn:Hstep.
    + unfold boundary_loop. cbn [foldl]. cbn [mbind result_bind rbind].
      rewrite Hstep, boundary_loop_raise. discriminate.
    + rewrite (boundary_loop_cons _ _ _ _ _ _ _ Hstep).
      destruct (boundary_step_keeps Q k_1 P slope n g g1 b H0) as [Hl Hr];
        [intros; apply (Hfade b Pb); assumption | exact Hg | exact Hstep |].
      intros Hloop. destruct (IH g1 g' Hr Hloop) as [Hl' Hr'].
      split; [congruence | exact Hr'].
Qed.

Lemma shape_of_rows (Q : R -> Prop) (m n : nat) (g : list (list R)) :
  length g = m -> rows_of Q n g -> shape m n g.
Proof.
  intros Hlen Hrows. split; [exact Hlen|]. intros r Hr.
  destruct (lookup_lt_is_Some_2 g r) as [row Hrow]; [lia|].
  rewrite (list_lookup_total_correct _ _ _ Hrow).
  apply (Forall_lookup_1 _ _ _ _ Hrows Hrow).
Qed.

Lemma rows_of_shape (m n : nat) (g : list (list R)) :
  shape m n g -> rows_of (fun _ => True) n g.
Proof.
  intros [Hlen Hrows]. apply Forall_lookup. intros r row Hrow.
  split; [|apply Forall_true; done].
  rewrite <- (list_lookup_total_correct _ _ _ Hrow). apply Hrows.
  apply lookup_lt_Some in Hrow. lia.
Qed.

Lemma rows_of_ones (Q : R -> Prop) (m n : nat) :
  Q 1 -> rows_of Q n (replicate m (replicate n 1)).
Proof.
  intros H1. apply Forall_replicate. split; [apply length_replicate|].
  apply Forall_replicate, H1.
Qed.

Lemma rows_of_squared (Q Q' : R -> Prop) (n : nat) (g : list (list R)) :
  (forall x, Q x -> Q' (x ^ 2)) ->
  rows_of Q n g -> rows_of Q' n (map (map (fun x => x ^ 2)) g).
Proof.
  intros Hsq Hg. unfold rows_of. rewrite Forall_fmap.
  eapply Forall_impl; [exact Hg|]. intros row [Hlen Hrow]. cbn.
  split; [rewrite length_map; exact Hlen|].
  rewrite Forall_fmap. eapply Forall_impl; [exact Hrow|]. exact Hsq.
Qed.

(** X8. Whatever the DFT lines, the overlap and the slope: when the magnitude
    responses are computed at all, there is one row of [n_bins] values per
    band and every value lies between 0 and 1. *)
Theorem magnitude_responses_bounded (k_1 k_m k_2 : list Z) (overlap : R)
    (slope : nat) (n_bins : nat) (g : list (list R)) :
  magnitude_responses k_1 k_m k_2 overlap slope n_bins = inr g ->
  length g = length k_m /\ rows_of (fun x => 0 <= x <= 1) n_bins g.
Proof.
  unfold magnitude_responses.
  destruct (boundary_loop _ _ _ _ _) as [e|g0] eqn:Hloop; [discriminate|].
  cbn [mbind result_bind rbind]. intros [= <-].
  assert (H0 : 0 <= 0 <= 1) by lra. assert (H1 : 0 <= 1 <= 1) by lra.
  destruct (boundary_loop_keeps (fun x => 0 <= x <= 1) _ _ _ n_bins _ H0
              (fun _ _ x _ _ Hx => fade_bounds x Hx)
              _ _ (rows_of_ones _ (length k_m) n_bins H1) Hloop)
    as [Hlen Hrows].
  split; [rewrite length_map, Hlen; apply length_replicate|].
  apply (rows_of_squared (fun x => 0 <= x <= 1)); [|exact Hrows].
  intros x Hx. simpl. split; nra.
Qed.

Lemma magnitude_responses_bounded_witness :
  exists g,
    magnitude_responses [7; 14]%Z [10; 20]%Z [14; 28]%Z 1 2 21 = inr g
    /\ length g = length [10; 20]%Z
    /\ rows_of (fun x => 0 <= x <= 1) 21 g.
Proof.
  destruct (magnitude_responses_partition [7; 14]%Z [10; 20]%Z [14; 28]%Z
              1 2 21) as (g & Hg & _).
  - cbn. lia.
  - reflexivity.
  - reflexivity.
  - intros c k1 Pc Hc Hk1 HPc. rewrite overlap_bins_forty in HPc.
    cbn [length] in Hc. assert (c = 1%nat) as -> by lia.
    cbn in Hk1, HPc. injection Hk1 as <-. injection HPc as <-. lia.
  - intros c k1 Pc k1' Pc' Hc Hc'. cbn [length] in Hc'. lia.
  - exists g. split; [exact Hg|].
    apply (magnitude_responses_bounded [7; 14]%Z [10; 20]%Z [14; 28]%Z
             1 2 21 g Hg).
Defined.

Lemma overlap_bins_zero (k_m k_2 : list Z) (c : nat) (Pc : Z) :
  overlap_bins 0 k_m k_2 !! c = Some Pc -> Pc = 0%Z.
Proof.
  unfold overlap_bins. intros H.
  apply lookup_zip_with_Some in H as (km & k2 & -> & _).
  replace (0 / 2 * IZR (k2 - km)) with (IZR 0) by (unfold Rdiv; ring).
  apply around_IZR.
Qed.

(** X9. With an overlap of zero the design never raises and no band tapers:
    every value of every magnitude response is 0 or 1, whatever the DFT
    lines are. *)
Theorem zero_overlap_brickwall (k_1 k_m k_2 : list Z) (slope : nat)
    (n_bins : nat) :
  length k_1 = length k_m -> length k_2 = length k_m ->
  exists g,
    magnitude_responses k_1 k_m k_2 0 slope n_bins = inr g
    /\ length g = length k_m
    /\ rows_of (fun x => x = 0 \/ x = 1) n_bins g.
Proof.
  intros Hk1 Hk2. unfold magnitude_responses.
  set (P := overlap_bins 0 k_m k_2). set (m := length k_m) in *.
  assert (HP : length P = m) by (apply length_overlap_bins; exact Hk2).
  assert (Hfit : forall (c : nat) (k1 Pc : Z),
             (1 <= c < m)%nat -> k_1 !! c = Some k1 -> P !! c = Some Pc ->
             (0 < Pc)%Z -> (0 <= k1 - Pc)%Z /\ (k1 + Pc < Z.of_nat n_bins)%Z).
  { intros c k1 Pc _ _ HPc Hpos. apply overlap_bins_zero in HPc. lia. }
  assert (Hloop : exists g0,
             boundary_loop k_1 P slope (replicate m (replicate n_bins 1))
               (seq 1 (m - 1)) = inr g0).
  { destruct m as [|m'].
    - eexists. reflexivity.
    - destruct (boundary_loop_total k_1 P slope (S m') n_bins Hk1 HP Hfit
                  (S m' - 1) 1 _ (shape_ones (S m') n_bins))
        as (g0 & Hg0 & _); [lia | lia |].
      exists g0. exact Hg0. }
  destruct Hloop as [g0 Hloop]. rewrite Hloop.
  cbn [mbind result_bind rbind]. eexists. split; [reflexivity|].
  destruct (boundary_loop_keeps (fun x => x = 0 \/ x = 1) k_1 P slope n_bins
              (seq 1 (m - 1))) with (g := replicate m (replicate n_bins 1))
                                    (g' := g0) as [Hlen Hrows].
  - left. reflexivity.
  - intros b Pb x HPb Hpos _. apply overlap_bins_zero in HPb. lia.
  - apply rows_of_ones. right. reflexivity.
  - exact Hloop.
  - split; [rewrite length_map, Hlen; apply length_replicate|].
    apply (rows_of_squared (fun x => x = 0 \/ x = 1)); [|exact Hrows].
    intros x [-> | ->]; [left | right]; simpl; lra.
Qed.

Lemma zero_overlap_brickwall_witness :
  exists g,
    magnitude_responses [7; 14]%Z [10; 20]%Z [14; 28]%Z 0 2 21 = inr g
    /\ length g = length [10; 20]%Z
    /\ rows_of (fun x => x = 0 \/ x = 1) 21 g.
Proof.
  apply (zero_overlap_brickwall [7; 14]%Z [10; 20]%Z [14; 28]%Z 2 21);
    reflexivity.
Defined.

(** ** When the reconstructing design raises *)

Lemma set_slice_error (row vals : list R) (start stop : option Z) (e : exn) :
  set_slice row start stop vals = inl e ->
  e = ValueError "could not broadcast input array".
Proof.
  unfold set_slice. case_decide; [discriminate|].
  destruct vals as [|v [|w vals]]; try discriminate; intros [= <-];
    reflexivity.
Qed.

Lemma boundary_step_error (k_1 P : list Z) (slope : nat) (m n : nat)
    (g : list (list R)) (b : nat) (e : exn) :
  length k_1 = m -> length P = m -> shape m n g -> (1 <= b < m)%nat ->
  boundary_step k_1 P slope g b = inl e ->
  e = ValueError "could not broadcast input array".
Proof.
  intros Hk1 HP [Hlen Hrows] Hb. unfold boundary_step.
  rewrite (getitem_lt P b) by lia. cbn [mbind result_bind rbind].
  set (Pb := P !!! b).
  assert (Hfirst :
    match (if decide (Pb > 0)%Z then
             k1 ← getitem k_1 b;
             row ← getitem g (b - 1);
             row ← set_slice row (Some (k1 - Pb)%Z) (Some (k1 + Pb + 1)%Z)
                     (map (fun x => cos (PI / 2 * x)) (ramp Pb slope));
             let g := <[(b - 1)%nat := row]> g in
             row ← getitem g b;
             row ← set_slice row (Some (k1 - Pb)%Z) (Some (k1 + Pb + 1)%Z)
                     (map (fun x => sin (PI / 2 * x)) (ramp Pb slope));
             inr (<[b := row]> g)
           else inr g) with
    | inl e1 => e1 = ValueError "could not broadcast input array"
    | inr g1 => length g1 = length g
    end).
  { case_decide; [|reflexivity].
    rewrite (getitem_lt k_1 b) by lia. cbn [mbind result_bind rbind].
    rewrite (getitem_lt g (b - 1)) by lia. cbn [mbind result_bind rbind].
    destruct (set_slice (g !!! (b - 1)%nat) _ _ _) as [e2|rowA] eqn:HA.
    - cbn [mbind result_bind rbind]. eapply set_slice_error, HA.
    - cbn [mbind result_bind rbind].
      rewrite (getitem_lt _ b) by (rewrite length_insert; lia).
      cbn [mbind result_bind rbind].
      destruct (set_slice (<[(b - 1)%nat := rowA]> g !!! b) _ _ _)
        as [e2|rowB] eqn:HB.
      + cbn [mbind result_bind rbind]. eapply set_slice_error, HB.
      + cbn [mbind result_bind rbind]. rewrite !length_insert. reflexivity. }
  destruct (if decide (Pb > 0)%Z then _ else _) as [e1|g1] eqn:Hg1.
  - cbn [mbind result_bind rbind]. intros [= <-]. exact Hfirst.
  - cbn [mbind result_bind rbind].
    rewrite (getitem_lt k_1 b) by lia. cbn [mbind result_bind rbind].
    rewrite (getitem_lt g1 (b - 1)) by lia. cbn [mbind result_bind rbind].
    rewrite (getitem_lt _ b) by (rewrite length_insert; lia).
    discriminate.
Qed.

(** A boundary that tapers over a window not contained in the bins raises:
    the slice it assigns to is shorter than the ramp. *)
Lemma boundary_step_sticks_out (k_1 P : list Z) (slope : nat) (m n : nat)
    (g : list (list R)) (b : nat) (k1 Pb : Z) :
  shape m n g -> (1 <= b < m)%nat ->
  k_1 !! b = Some k1 -> P !! b = Some Pb -> (0 < Pb)%Z -> (0 <= k1)%Z ->
  ~ ((0 <= k1 - Pb)%Z /\ (k1 + Pb < Z.of_nat n)%Z) ->
  boundary_step k_1 P slope g b
  = inl (ValueError "could not broadcast input array").
Proof.
  intros [Hlen Hrows] Hb Hk1 HP Hpos Hk Hout. unfold boundary_step.
  rewrite (getitem_Some _ _ _ HP). cbn [mbind result_bind rbind].
  rewrite decide_True by lia.
  rewrite (getitem_Some _ _ _ Hk1). cbn [mbind result_bind rbind].
  rewrite (getitem_lt g (b - 1)) by lia. cbn [mbind result_bind rbind].
  rewrite set_slice_mismatch; [reflexivity | |].
  - rewrite length_map, length_ramp, Hrows by lia.
    unfold slice_stop, slice_start, slice_bound. cbn [from_option].
    repeat case_decide; lia.
  - rewrite length_map, length_ramp. lia.
Qed.

Lemma boundary_loop_error (k_1 P : list Z) (slope : nat) (m n : nat) :
  length k_1 = m -> length P = m ->
  forall (len s : nat) (g : list (list R)) (e : exn),
    shape m n g -> (1 <= s)%nat -> (s + len <= m)%nat ->
    boundary_loop k_1 P slope g (seq s len) = inl e ->
    e = ValueError "could not broadcast input array".
Proof.
  intros Hk1 HP. induction len as [|len IH]; intros s g e Hg Hs Hlen.
  - discriminate.
  - cbn [seq].
    destruct (boundary_step k_1 P slope g s) as [e1|g1] eqn:Hstep.
    + unfold boundary_loop. cbn [foldl]. cbn [mbind result_bind rbind].
      rewrite Hstep, boundary_loop_raise. intros [= <-].
      eapply (boundary_step_error k_1 P slope m n g s); eauto. lia.
    + rewrite (boundary_loop_cons _ _ _ _ _ _ _ Hstep).
      apply (IH (S s) g1); [|lia|lia].
      destruct (boundary_step_keeps (fun _ => True) k_1 P slope n g g1 s)
        as [Hl Hr]; [done | done | eapply rows_of_shape, Hg | exact Hstep |].
      eapply shape_of_rows; [|exact Hr]. destruct Hg as [Hg _]. lia.
Qed.

Lemma boundary_loop_sticks_out (k_1 P : list Z) (slope : nat) (m n : nat)
    (b : nat) (k1 Pb : Z) :
  length k_1 = m -> length P = m ->
  k_1 !! b = Some k1 -> P !! b = Some Pb -> (0 < Pb)%Z -> (0 <= k1)%Z ->
  ~ ((0 <= k1 - Pb)%Z /\ (k1 + Pb < Z.of_nat n)%Z) ->
  forall (len s : nat) (g : list (list R)),
    shape m n g -> (1 <= s)%nat -> (s + len <= m)%nat ->
    (s <= b < s + len)%nat ->
    boundary_loop k_1 P slope g (seq s len)
    = inl (ValueError "could not broadcast input array").
Proof.
  intros Hk1len HPlen Hk1 HP Hpos Hk Hout.
  induction len as [|len IH]; intros s g Hg Hs Hlen Hb; [lia|].
  cbn [seq].
  destruct (boundary_step k_1 P slope g s) as [e1|g1] eqn:Hstep.
  - unfold boundary_loop. cbn [foldl]. cbn [mbind result_bind rbind].
    rewrite Hstep, boundary_loop_raise. f_equal.
    eapply (boundary_step_error k_1 P slope m n g s); eauto. lia.
  - destruct (decide (s = b)) as [->|Hne].
    + rewrite (boundary_step_sticks_out k_1 P slope m n g b k1 Pb) in Hstep;
        [discriminate | assumption | lia | assumption..].
    + rewrite (boundary_loop_cons _ _ _ _ _ _ _ Hstep).
      apply (IH (S s) g1); [|lia|lia|lia].
      destruct (boundary_step_keeps (fun _ => True) k_1 P slope n g g1 s)
        as [Hl Hr]; [done | done | eapply rows_of_shape, Hg | exact Hstep |].
      eapply shape_of_rows; [|exact Hr]. destruct Hg as [Hg _]. lia.
Qed.

(** X10. The magnitude responses of the reconstructing bank are computed exactly
    when every transition window that tapers lies within the [n_bins] bins;
    otherwise the design raises, and the only exception it ever raises is
    the [ValueError] of the slice assignment whose shapes do not match. *)
Theorem magnitude_responses_succeed_iff (k_1 k_m k_2 : list Z)
    (overlap : R) (slope : nat) (n_bins : nat) :
  length k_1 = length k_m -> length k_2 = length k_m ->
  Forall (fun k => (0 <= k)%Z) k_1 ->
  ((exists g,
       magnitude_responses k_1 k_m k_2 overlap slope n_bins = inr g)
   <-> (forall (c : nat) (k1 Pc : Z),
           (1 <= c)%nat -> k_1 !! c = Some k1 ->
           overlap_bins overlap k_m k_2 !! c = Some Pc -> (0 < Pc)%Z ->
           (0 <= k1 - Pc)%Z /\ (k1 + Pc < Z.of_nat n_bins)%Z))
  /\ (forall e,
         magnitude_responses k_1 k_m k_2 overlap slope n_bins = inl e ->
         e = ValueError "could not broadcast input array").
Proof.
  intros Hk1 Hk2 Hnonneg. unfold magnitude_responses.
  set (P := overlap_bins overlap k_m k_2). set (m := length k_m) in *.
  assert (HP : length P = m) by (apply length_overlap_bins; exact Hk2).
  pose proof (shape_ones m n_bins) as Hones.
  split; [split|].
  - intros [g Hg] c k1 Pc Hc Hk1c HPc Hpos.
    destruct (decide ((0 <= k1 - Pc)%Z /\ (k1 + Pc < Z.of_nat n_bins)%Z))
      as [Hfit|Hout]; [exact Hfit|]. exfalso.
    assert (Hcm : (c < m)%nat) by (apply lookup_lt_Some in Hk1c; lia).
    rewrite (boundary_loop_sticks_out k_1 P slope m n_bins c k1 Pc Hk1 HP
               Hk1c HPc Hpos) in Hg;
      [discriminate | | exact Hout | exact Hones | lia | lia | lia].
    eapply Forall_lookup_1 in Hnonneg; [|exact Hk1c]. exact Hnonneg.
  - intros Hfit.
    assert (Hloop : exists g0,
               boundary_loop k_1 P slope (replicate m (replicate n_bins 1))
                 (seq 1 (m - 1)) = inr g0).
    { destruct m as [|m'].
      - eexists. reflexivity.
      - destruct (boundary_loop_total k_1 P slope (S m') n_bins Hk1 HP)
          with (len := (S m' - 1)%nat) (s := 1%nat)
               (g := replicate (S m') (replicate n_bins 1))
          as (g0 & Hg0 & _); [|exact Hones | lia | lia |].
        + intros c k1 Pc Hc. apply Hfit. lia.
        + exists g0. exact Hg0. }
    destruct Hloop as [g0 Hloop]. rewrite Hloop. eexists. reflexivity.
  - intros e.
    destruct (boundary_loop _ _ _ _ _) as [e1|g0] eqn:Hloop; [|discriminate].
    cbn [mbind result_bind rbind]. intros [= <-].
    destruct m as [|m']; [discriminate|].
    eapply (boundary_loop_error k_1 P slope (S m') n_bins Hk1 HP
              (S m' - 1) 1); [exact Hones | lia | lia | exact Hloop].
Qed.

Lemma magnitude_responses_succeed_iff_witness :
  ((exists g,
       magnitude_responses [1; 2]%Z [1; 2]%Z [2; 4]%Z 1 0 3 = inr g)
   <-> (forall (c : nat) (k1 Pc : Z),
           (1 <= c)%nat -> [1; 2]%Z !! c = Some k1 ->
           overlap_bins 1 [1; 2]%Z [2; 4]%Z !! c = Some Pc -> (0 < Pc)%Z ->
           (0 <= k1 - Pc)%Z /\ (k1 + Pc < Z.of_nat 3)%Z))
  /\ (forall e,
         magnitude_responses [1; 2]%Z [1; 2]%Z [2; 4]%Z 1 0 3 = inl e ->
         e = ValueError "could not broadcast input array").
Proof.
  apply (magnitude_responses_succeed_iff [1; 2]%Z [1; 2]%Z [2; 4]%Z 1 0 3);
    [reflexivity | reflexivity |].
  repeat constructor; lia.
Defined.

(** ** The shape of the transition *)

Lemma warp_mono (x y : R) : -1 <= x -> x <= y -> y <= 1 -> warp x <= warp y.
Proof.
  intros Hx Hxy Hy. unfold warp. pose proof PI_RGT_0.
  destruct (Req_dec x y) as [->|Hne]; [lra|].
  apply Rlt_le, sin_increasing_1; nra.
Qed.

Lemma iter_warp_mono (slope : nat) (x y : R) :
  -1 <= x -> x <= y -> y <= 1 ->
  Nat.iter slope warp x <= Nat.iter slope warp y.
Proof.
  intros Hx Hxy Hy. induction slope as [|k IH]; [exact Hxy|].
  rewrite !Nat.iter_succ. apply warp_mono; [|exact IH|].
  - apply iter_warp_bounds. lra.
  - apply iter_warp_bounds. lra.
Qed.

Lemma phi_at_opp (P : Z) (slope : nat) (p : Z) :
  phi_at P slope (- p) = 1 - phi_at P slope p.
Proof.
  unfold phi_at. rewrite opp_IZR.
  replace (- IZR p / IZR P) with (- (IZR p / IZR P)) by (unfold Rdiv; ring).
  rewrite iter_warp_opp. lra.
Qed.

Lemma phi_at_mono (P : Z) (slope : nat) (p q : Z) :
  (0 < P)%Z -> (- P <= p)%Z -> (p <= q)%Z -> (q <= P)%Z ->
  phi_at P slope p <= phi_at P slope q.
Proof.
  intros HP Hp Hpq Hq. unfold phi_at.
  assert (HPr : 0 < IZR P) by (apply IZR_lt; exact HP).
  apply IZR_le in Hp, Hpq, Hq. rewrite opp_IZR in Hp.
  assert (Hinv : 0 < / IZR P) by (apply Rinv_0_lt_compat, HPr).
  assert (H1 : -1 <= IZR p / IZR P).
  { apply Rmult_le_reg_r with (IZR P); [exact HPr|].
    unfold Rdiv. rewrite Rmult_assoc, Rinv_l by lra. lra. }
  assert (H2 : IZR p / IZR P <= IZR q / IZR P)
    by (apply Rmult_le_compat_r; lra).
  assert (H3 : IZR q / IZR P <= 1).
  { apply Rmult_le_reg_r with (IZR P); [exact HPr|].
    unfold Rdiv. rewrite Rmult_assoc, Rinv_l by lra. lra. }
  pose proof (iter_warp_mono slope _ _ H1 H2 H3). lra.
Qed.

(** X11. The transition of a boundary with [P > 0]: the ramp never decreases
    along the window, it is point-symmetric about the cutoff bin, and
    therefore the fade-out of the lower band is the mirror image of the
    fade-in of the upper band. *)
Theorem ramp_monotone_symmetric (P : Z) (slope : nat) :
  (0 < P)%Z ->
  (forall i j : nat,
      (i <= j)%nat -> (Z.of_nat j <= 2 * P)%Z ->
      ramp P slope !!! i <= ramp P slope !!! j)
  /\ (forall i : nat,
         (Z.of_nat i <= 2 * P)%Z ->
         let i' := Z.to_nat (2 * P - Z.of_nat i) in
         ramp P slope !!! i + ramp P slope !!! i' = 1
         /\ cos (PI / 2 * (ramp P slope !!! i))
            = sin (PI / 2 * (ramp P slope !!! i'))).
Proof.
  intros HP. split.
  - intros i j Hij Hj. rewrite !ramp_lookup_total by lia.
    apply phi_at_mono; lia.
  - intros i Hi. cbv zeta. rewrite !ramp_lookup_total by lia.
    replace (Z.of_nat (Z.to_nat (2 * P - Z.of_nat i)) - P)%Z
      with (- (Z.of_nat i - P))%Z by lia.
    rewrite phi_at_opp. split; [lra|].
    replace (PI / 2 * (1 - phi_at P slope (Z.of_nat i - P)))
      with (PI / 2 - PI / 2 * phi_at P slope (Z.of_nat i - P)) by ring.
    rewrite sin_shift. reflexivity.
Qed.

Lemma ramp_monotone_symmetric_witness :
  (forall i j : nat,
      (i <= j)%nat -> (Z.of_nat j <= 2 * 4)%Z ->
      ramp 4 2 !!! i <= ramp 4 2 !!! j)
  /\ (forall i : nat,
         (Z.of_nat i <= 2 * 4)%Z ->
         let i' := Z.to_nat (2 * 4 - Z.of_nat i) in
         ramp 4 2 !!! i + ramp 4 2 !!! i' = 1
         /\ cos (PI / 2 * (ramp 4 2 !!! i))
            = sin (PI / 2 * (ramp 4 2 !!! i'))).
Proof. apply (ramp_monotone_symmetric 4 2). lia. Defined.

(** ** Pass bands and stop bands *)

Section Support.

Variables (k_1 P : list Z) (slope : nat) (m n : nat).

Hypothesis k_1_length : length k_1 = m.
Hypothesis P_length : length P = m.

Hypothesis windows_inside : forall c : nat,
  (1 <= c < m)%nat ->
  (0 <= P !!! c)%Z /\ (0 <= k_1 !!! c - P !!! c)%Z
  /\ (k_1 !!! c + P !!! c < Z.of_nat n)%Z.

Hypothesis windows_ordered : forall c : nat,
  (1 <= c)%nat -> (S c < m)%nat ->
  (k_1 !!! c + P !!! c < k_1 !!! S c - P !!! S c)%Z.

Lemma support_invariant_start :
  (0 < m)%nat -> support_invariant k_1 P m n 0 (replicate m (replicate n 1)).
Proof.
  intros Hm.
  assert (Hone : forall r j, (r < m)%nat -> (j < n)%nat ->
                   cell (replicate m (replicate n 1)) r j = 1).
  { intros r j Hr Hj. unfold cell.
    rewrite lookup_total_replicate_2 by exact Hr.
    apply lookup_total_replicate_2. exact Hj. }
  split; [apply shape_ones|]. split; [|split; [|split; [|split]]].
  - intros r j Hr Hj. apply Hone; lia.
  - intros j Hj _. apply Hone; lia.
  - intros r j Hr. lia.
  - intros r j Hr. lia.
  - intros r j Hr. lia.
Qed.

Lemma support_invariant_step (g : list (list R)) (b : nat) :
  support_invariant k_1 P m n b g -> (S b < m)%nat ->
  exists g',
    boundary_step k_1 P slope g (S b) = inr g'
    /\ support_invariant k_1 P m n (S b) g'.
Proof.
  intros (Hg & Hones & Htop & Hlow & Hhigh & Hpass) Hc.
  assert (Hk1 : k_1 !! S b = Some (k_1 !!! S b))
    by (apply list_lookup_lookup_total_lt; lia).
  assert (HPc : P !! S b = Some (P !!! S b))
    by (apply list_lookup_lookup_total_lt; lia).
  set (k1 := k_1 !!! S b) in *. set (Pc := P !!! S b) in *.
  destruct (windows_inside (S b)) as (HP0 & Hlo & Hhi); [lia|].
  fold k1 in Hlo, Hhi. fold Pc in HP0, Hlo, Hhi.
  destruct (boundary_step_rows k_1 P slope g m n (S b) k1 Pc Hg)
    as (g' & rowA & rowB & Hstep & Hg' & Hframe & HrA & HrB & HlA & HlB
        & Hcells); [lia | assumption.. | |].
  { intros _. split; assumption. }
  replace (S b - 1)%nat with b in * by lia.
  exists g'. split; [exact Hstep|].
  assert (Hord : (1 <= b)%nat -> (k_1 !!! b + P !!! b < k1 - Pc)%Z)
    by (intros Hb; apply windows_ordered; lia).
  assert (Hold : forall r j, (r < b)%nat -> cell g' r j = cell g r j).
  { intros r j Hr. unfold cell. rewrite Hframe by lia. reflexivity. }
  assert (HA : forall j, (j < n)%nat ->
             cell g' b j
             = if decide (k1 + Pc <= Z.of_nat j)%Z then 0
               else if decide (0 < Pc /\ k1 - Pc <= Z.of_nat j)%Z
                    then cos (PI / 2 * phi_at Pc slope (Z.of_nat j - k1))
                    else cell g b j).
  { intros j Hj. unfold cell. rewrite HrA, lookup_total_fill_from by lia.
    destruct (decide (k1 + Pc <= Z.of_nat j)%Z); [reflexivity|].
    destruct (Hcells j) as [-> _].
    destruct (decide (0 < Pc /\ k1 - Pc <= Z.of_nat j)%Z).
    - rewrite decide_True by lia. reflexivity.
    - rewrite decide_False by lia. reflexivity. }
  assert (HB : forall j, (j < n)%nat ->
             cell g' (S b) j
             = if decide (Z.of_nat j < k1 - Pc)%Z then 0
               else if decide (0 < Pc /\ Z.of_nat j <= k1 + Pc)%Z
                    then sin (PI / 2 * phi_at Pc slope (Z.of_nat j - k1))
                    else 1).
  { intros j Hj. unfold cell. rewrite HrB, lookup_total_fill_upto by lia.
    destruct (decide (Z.of_nat j < k1 - Pc)%Z); [reflexivity|].
    destruct (Hcells j) as [_ ->].
    destruct (decide (0 < Pc /\ Z.of_nat j <= k1 + Pc)%Z).
    - rewrite decide_True by lia. reflexivity.
    - rewrite decide_False by lia. apply (Hones (S b) j); lia. }
  split; [exact Hg'|]. split; [|split; [|split; [|split]]].
  - intros r j Hr Hj. unfold cell. rewrite Hframe by lia.
    apply (Hones r j); lia.
  - intros j Hj [Hz|Hend]; [lia|]. fold k1 Pc in Hend.
    rewrite HB by exact Hj. rewrite decide_False by lia.
    destruct (decide (0 < Pc /\ Z.of_nat j <= k1 + Pc)%Z) as [[HPp Hj2]|_];
      [|reflexivity].
    replace (Z.of_nat j - k1)%Z with Pc by lia.
    rewrite phi_at_last by exact HPp. rewrite Rmult_1_r. apply sin_PI2.
  - intros r j Hr Hj Hbelow.
    destruct (decide (r = S b)) as [->|Hne1].
    + fold k1 Pc in Hbelow. rewrite HB by exact Hj.
      rewrite decide_True by lia. reflexivity.
    + destruct (decide (r = b)) as [->|Hne2].
      * rewrite HA by exact Hj.
        destruct (windows_inside b) as (HPb & _ & _); [lia|].
        specialize (Hord ltac:(lia)).
        rewrite decide_False by lia. rewrite decide_False by lia.
        apply Hlow; [lia | exact Hj | exact Hbelow].
      * rewrite Hold by lia. apply Hlow; [lia | exact Hj | exact Hbelow].
  - intros r j Hr Hj Habove.
    destruct (decide (r = b)) as [->|Hne].
    + fold k1 Pc in Habove. rewrite HA by exact Hj.
      rewrite decide_True by lia. reflexivity.
    + rewrite Hold by lia. apply Hhigh; [lia | exact Hj | exact Habove].
  - intros r j Hr Hj Hfrom Hupto.
    destruct (decide (r = b)) as [->|Hne].
    + fold k1 Pc in Hupto. rewrite HA by exact Hj.
      rewrite decide_False by lia. rewrite decide_False by lia.
      apply Htop; assumption.
    + rewrite Hold by lia. apply Hpass; [lia | assumption..].
Qed.

Lemma support_invariant_loop (len : nat) :
  forall (b : nat) (g : list (list R)),
    support_invariant k_1 P m n b g -> (b + len < m)%nat ->
    exists g',
      boundary_loop k_1 P slope g (seq (S b) len) = inr g'
      /\ support_invariant k_1 P m n (b + len) g'.
Proof.
  induction len as [|len IH]; intros b g Hinv Hlen.
  - exists g. rewrite Nat.add_0_r. split; [reflexivity | exact Hinv].
  - destruct (support_invariant_step g b Hinv) as (g1 & Hstep & Hinv1); [lia|].
    destruct (IH (S b) g1 Hinv1) as (g' & Hloop & Hinv'); [lia|].
    exists g'. cbn [seq]. rewrite (boundary_loop_cons _ _ _ _ _ _ _ Hstep).
    split; [exact Hloop|].
    replace (b + S len)%nat with (S b + len)%nat by lia. exact Hinv'.
Qed.

End Support.

(** X12. Where the transition windows lie within the bins, each below the next,
    every band of the reconstructing bank is a band-pass between two
    windows: its squared magnitude response is 0 below its own window and
    above the window of the next band, and exactly 1 between the two. The
    lowest band is 1 from bin 0 on, a low-pass, and the highest band is 1 up
    to the last bin, a high-pass. *)
Theorem band_pass_structure (k_1 k_m k_2 : list Z) (overlap : R)
    (slope : nat) (n_bins : nat) :
  (0 < length k_m)%nat ->
  length k_1 = length k_m -> length k_2 = length k_m ->
  (forall (c : nat) (k1 Pc : Z),
      (1 <= c < length k_m)%nat -> k_1 !! c = Some k1 ->
      overlap_bins overlap k_m k_2 !! c = Some Pc ->
      (0 <= Pc)%Z /\ (0 <= k1 - Pc)%Z /\ (k1 + Pc < Z.of_nat n_bins)%Z) ->
  (forall (c : nat) (k1 Pc k1' Pc' : Z),
      (1 <= c)%nat -> (S c < length k_m)%nat ->
      k_1 !! c = Some k1 -> overlap_bins overlap k_m k_2 !! c = Some Pc ->
      k_1 !! S c = Some k1' ->
      overlap_bins overlap k_m k_2 !! S c = Some Pc' ->
      (k1 + Pc < k1' - Pc')%Z) ->
  exists g,
    magnitude_responses k_1 k_m k_2 overlap slope n_bins = inr g
    /\ forall b j : nat,
         (b < length k_m)%nat -> (j < n_bins)%nat ->
         let P := overlap_bins overlap k_m k_2 in
         (forall k1 Pb,
             (1 <= b)%nat -> k_1 !! b = Some k1 -> P !! b = Some Pb ->
             (Z.of_nat j < k1 - Pb)%Z -> cell g b j = 0)
         /\ (forall k1' Pb',
                k_1 !! S b = Some k1' -> P !! S b = Some Pb' ->
                (k1' + Pb' <= Z.of_nat j)%Z -> cell g b j = 0)
         /\ (b = 0%nat
             \/ (exists k1 Pb,
                    k_1 !! b = Some k1 /\ P !! b = Some Pb
                    /\ (k1 + Pb <= Z.of_nat j)%Z) ->
             S b = length k_m
             \/ (exists k1' Pb',
                    k_1 !! S b = Some k1' /\ P !! S b = Some Pb'
                    /\ (Z.of_nat j < k1' - Pb')%Z) ->
             cell g b j = 1).
Proof.
  intros Hm Hk1len Hk2len Hinside Hordered.
  set (P := overlap_bins overlap k_m k_2) in *.
  set (m := length k_m) in *.
  assert (HPlen : length P = m) by (apply length_overlap_bins; exact Hk2len).
  assert (Hk1 : forall c, (c < m)%nat -> k_1 !! c = Some (k_1 !!! c))
    by (intros c Hc; apply list_lookup_lookup_total_lt; lia).
  assert (HP : forall c, (c < m)%nat -> P !! c = Some (P !!! c))
    by (intros c Hc; apply list_lookup_lookup_total_lt; lia).
  assert (Hin : forall c : nat,
             (1 <= c < m)%nat ->
             (0 <= P !!! c)%Z /\ (0 <= k_1 !!! c - P !!! c)%Z
             /\ (k_1 !!! c + P !!! c < Z.of_nat n_bins)%Z).
  { intros c Hc. apply (Hinside c); [exact Hc | apply Hk1; lia | apply HP; lia]. }
  assert (Hord : forall c : nat,
             (1 <= c)%nat -> (S c < m)%nat ->
             (k_1 !!! c + P !!! c < k_1 !!! S c - P !!! S c)%Z).
  { intros c Hc Hc'.
    apply (Hordered c); [exact Hc | exact Hc' | apply Hk1; lia | apply HP; lia
                         | apply Hk1; lia | apply HP; lia]. }
  pose proof (support_invariant_start k_1 P m n_bins Hk1len HPlen Hm) as Hstart.
  destruct (support_invariant_loop k_1 P slope m n_bins Hk1len HPlen Hin Hord
              (m - 1)%nat 0%nat _ Hstart)
    as (g' & Hloop & Hg' & _ & Htop & Hlow & Hhigh & Hpass); [lia|].
  cbn [Nat.add] in Htop, Hlow, Hhigh, Hpass.
  exists (map (map (fun x => x ^ 2)) g'). split.
  { unfold magnitude_responses. fold P. fold m. rewrite Hloop. reflexivity. }
  intros b j Hb Hj. cbv zeta.
  assert (Hsq : cell (map (map (fun x => x ^ 2)) g') b j = cell g' b j ^ 2)
    by (apply (cell_squared g' m n_bins); assumption).
  rewrite Hsq. split; [|split].
  - intros k1 Pb Hb1 Hkb HPb Hbelow.
    rewrite (Hk1 b Hb) in Hkb. injection Hkb as <-.
    rewrite (HP b Hb) in HPb. injection HPb as <-.
    rewrite (Hlow b j) by (first [lia | assumption]). simpl. lra.
  - intros k1' Pb' Hkb HPb Habove.
    assert (Hb' : (S b < m)%nat) by (apply lookup_lt_Some in Hkb; lia).
    rewrite (Hk1 (S b) Hb') in Hkb. injection Hkb as <-.
    rewrite (HP (S b) Hb') in HPb. injection HPb as <-.
    rewrite (Hhigh b j) by (first [lia | assumption]). simpl. lra.
  - intros Hfrom Hupto.
    assert (Hfrom' : b = 0%nat \/ (k_1 !!! b + P !!! b <= Z.of_nat j)%Z).
    { destruct Hfrom as [->|(k1 & Pb & Hkb & HPb & Hge)]; [left; reflexivity|].
      right. rewrite (Hk1 b Hb) in Hkb. injection Hkb as <-.
      rewrite (HP b Hb) in HPb. injection HPb as <-. exact Hge. }
    destruct Hupto as [Hlast|(k1' & Pb' & Hkb & HPb & Hlt)].
    + replace (m - 1)%nat with b in Htop by lia.
      rewrite (Htop j Hj); [simpl; lra|].
      destruct Hfrom' as [->|H]; [left; lia | right; exact H].
    + assert (Hb' : (S b < m)%nat) by (apply lookup_lt_Some in Hkb; lia).
      rewrite (Hk1 (S b) Hb') in Hkb. injection Hkb as <-.
      rewrite (HP (S b) Hb') in HPb. injection HPb as <-.
      rewrite (Hpass b j) by (first [lia | assumption]). simpl. lra.
Qed.

Lemma band_pass_structure_witness :
  exists g,
    magnitude_responses [7; 14]%Z [10; 20]%Z [14; 28]%Z 1 0 21 = inr g
    /\ forall b j : nat,
         (b < length [10; 20]%Z)%nat -> (j < 21)%nat ->
         let P := overlap_bins 1 [10; 20]%Z [14; 28]%Z in
         (forall k1 Pb,
             (1 <= b)%nat -> [7; 14]%Z !! b = Some k1 -> P !! b = Some Pb ->
             (Z.of_nat j < k1 - Pb)%Z -> cell g b j = 0)
         /\ (forall k1' Pb',
                [7; 14]%Z !! S b = Some k1' -> P !! S b = Some Pb' ->
                (k1' + Pb' <= Z.of_nat j)%Z -> cell g b j = 0)
         /\ (b = 0%nat
             \/ (exists k1 Pb,
                    [7; 14]%Z !! b = Some k1 /\ P !! b = Some Pb
                    /\ (k1 + Pb <= Z.of_nat j)%Z) ->
             S b = length [10; 20]%Z
             \/ (exists k1' Pb',
                    [7; 14]%Z !! S b = Some k1' /\ P !! S b = Some Pb'
                    /\ (Z.of_nat j < k1' - Pb')%Z) ->
             cell g b j = 1).
Proof.
  apply (band_pass_structure [7; 14]%Z [10; 20]%Z [14; 28]%Z 1 0 21).
  - cbn. lia.
  - reflexivity.
  - reflexivity.
  - intros c k1 Pc Hc Hk1 HPc. rewrite overlap_bins_forty in HPc.
    cbn [length] in Hc. assert (c = 1%nat) as -> by lia.
    cbn in Hk1, HPc. injection Hk1 as <-. injection HPc as <-. lia.
  - intros c k1 Pc k1' Pc' Hc Hc'. cbn [length] in Hc'. lia.
Defined.

(** ** Encoding an object *)

Lemma encode_keep_missing (keep : list string) (self : obj) :
  Exists (fun k => self !! k = None) keep ->
  exists pre k post,
    keep = pre ++ k :: post
    /\ Forall (fun k => is_Some (self !! k)) pre
    /\ self !! k = None
    /\ encode_keep keep self = inl (KeyError k).
Proof.
  unfold encode_keep. induction keep as [|k0 keep IH]; intros Hex.
  - apply Exists_nil in Hex. destruct Hex.
  - destruct (self !! k0) as [v|] eqn:Hk0.
    + apply Exists_cons in Hex as [Hex|Hex]; [congruence|].
      destruct (IH Hex) as (pre & k & post & -> & Hpre & Hk & Henc).
      exists (k0 :: pre), k, post. split; [reflexivity|].
      split; [constructor; [rewrite Hk0; eauto | exact Hpre]|].
      split; [exact Hk|].
      assert (Hg : getattr self k0 = inr v)
        by (unfold getattr; rewrite Hk0; reflexivity).
      simpl. rewrite Hg. simpl.
      destruct (mapM (getattr self) (pre ++ k :: post)) as [e|vs];
        [|discriminate].
      simpl in *. exact Henc.
    + exists [], k0, keep. split; [reflexivity|]. split; [constructor|].
      split; [exact Hk0|].
      assert (Hg : getattr self k0 = inl (KeyError k0))
        by (unfold getattr; rewrite Hk0; reflexivity).
      simpl. rewrite Hg. reflexivity.
Qed.

Lemma filter_keep_idempotent (keep : list string) (self : obj) :
  filter (fun kv : string * value => kv.1 ∈ keep)
         (filter (fun kv : string * value => kv.1 ∈ keep) self)
  = filter (fun kv : string * value => kv.1 ∈ keep) self.
Proof.
  apply map_eq. intros k.
  destruct (decide (k ∈ keep)) as [Hin|Hout].
  - rewrite !lookup_kept by exact Hin. reflexivity.
  - transitivity (@None value); [|symmetry];
      apply map_lookup_filter_None; right; intros v _; exact Hout.
Qed.

(** X13. [_encode] of either bank succeeds exactly when every parameter it has
    to store is an attribute of the object; the dictionary it returns then
    holds these parameters with the values the object has for them, and
    nothing else: coefficients, frequencies, state and comment are
    dropped. *)
Theorem encode_keeps_parameters (self : obj) :
  let energy := ["_num_fractions"; "_freq_range"; "_order";
                 "_sampling_rate"] in
  let reconstructing := ["_num_fractions"; "_freq_range"; "_sampling_rate";
                         "_overlap"; "_slope"; "_n_samples"] in
  ((exists d, FractionalOctaveBands_encode self = inr d)
   <-> Forall (fun k => is_Some (self !! k)) energy)
  /\ (forall d k,
         FractionalOctaveBands_encode self = inr d ->
         d !! k = if decide (k ∈ energy) then self !! k else None)
  /\ ((exists d, ReconstructingFractionalOctaveBands_encode self = inr d)
      <-> Forall (fun k => is_Some (self !! k)) reconstructing)
  /\ (forall d k,
         ReconstructingFractionalOctaveBands_encode self = inr d ->
         d !! k = if decide (k ∈ reconstructing) then self !! k else None).
Proof.
  cbv zeta.
  assert (Hgen : forall keep,
    ((exists d, encode_keep keep self = inr d)
     <-> Forall (fun k => is_Some (self !! k)) keep)
    /\ (forall d k, encode_keep keep self = inr d ->
                    d !! k = if decide (k ∈ keep) then self !! k else None)).
  { intros keep. split; [split|].
    - intros [d Hd]. apply Forall_forall. intros k Hk.
      destruct (self !! k) as [v|] eqn:Hv; [eauto|]. exfalso.
      destruct (encode_keep_missing keep self) as (? & ? & ? & _ & _ & _ & He).
      + apply Exists_exists. exists k. split; assumption.
      + rewrite He in Hd. discriminate.
    - intros Hall. eexists. apply encode_keep_ok, Hall.
    - intros d k Hd.
      assert (Hall : Forall (fun k => is_Some (self !! k)) keep).
      { apply Forall_forall. intros k' Hk'.
        destruct (self !! k') as [v|] eqn:Hv; [eauto|]. exfalso.
        destruct (encode_keep_missing keep self)
          as (? & ? & ? & _ & _ & _ & He).
        - apply Exists_exists. exists k'. split; assumption.
        - rewrite He in Hd. discriminate. }
      rewrite (encode_keep_ok _ _ Hall) in Hd. injection Hd as <-.
      case_decide as Hk.
      + apply lookup_kept, Hk.
      + apply map_lookup_filter_None. right. intros v _. exact Hk. }
  unfold FractionalOctaveBands_encode, ReconstructingFractionalOctaveBands_encode.
  split; [apply Hgen|]. split; [apply Hgen|]. split; apply Hgen.
Qed.

(** X14. A parameter that is missing makes [_encode] raise a [KeyError] that
    names the first parameter missing, in the order in which [_encode]
    lists them. *)
Theorem encode_missing_parameter (self : obj) (k : string) :
  self !! k = None ->
  (k ∈ ["_num_fractions"; "_freq_range"; "_order"; "_sampling_rate"] ->
   exists pre k' post,
     ["_num_fractions"; "_freq_range"; "_order"; "_sampling_rate"]
     = pre ++ k' :: post
     /\ Forall (fun k => is_Some (self !! k)) pre
     /\ self !! k' = None
     /\ FractionalOctaveBands_encode self = inl (KeyError k'))
  /\ (k ∈ ["_num_fractions"; "_freq_range"; "_sampling_rate";
           "_overlap"; "_slope"; "_n_samples"] ->
      exists pre k' post,
        ["_num_fractions"; "_freq_range"; "_sampling_rate";
         "_overlap"; "_slope"; "_n_samples"]
        = pre ++ k' :: post
        /\ Forall (fun k => is_Some (self !! k)) pre
        /\ self !! k' = None
        /\ ReconstructingFractionalOctaveBands_encode self
           = inl (KeyError k')).
Proof.
  intros Hk. split; intros Hin; apply encode_keep_missing;
    apply Exists_exists; exists k; split; assumption.
Qed.

Lemma encode_missing_parameter_witness :
  exists pre k' post,
    ["_num_fractions"; "_freq_range"; "_order"; "_sampling_rate"]
    = pre ++ k' :: post
    /\ Forall (fun k => is_Some ((delete "_order" sample_bank) !! k)) pre
    /\ delete "_order" sample_bank !! k' = None
    /\ FractionalOctaveBands_encode (delete "_order" sample_bank)
       = inl (KeyError k').
Proof.
  apply (encode_missing_parameter (delete "_order" sample_bank) "_order");
    [reflexivity | in_list].
Defined.

(** X15. Encoding is idempotent: the dictionary [_encode] returns encodes to
    itself. *)
Theorem encode_idempotent (self d : obj) :
  (FractionalOctaveBands_encode self = inr d ->
   FractionalOctaveBands_encode d = inr d)
  /\ (ReconstructingFractionalOctaveBands_encode self = inr d ->
      ReconstructingFractionalOctaveBands_encode d = inr d).
Proof.
  assert (Hgen : forall keep, encode_keep keep self = inr d ->
                              encode_keep keep d = inr d).
  { intros keep Hd.
    assert (Hall : Forall (fun k => is_Some (self !! k)) keep).
    { apply Forall_forall. intros k' Hk'.
      destruct (self !! k') as [v|] eqn:Hv; [eauto|]. exfalso.
      destruct (encode_keep_missing keep self)
        as (? & ? & ? & _ & _ & _ & He).
      - apply Exists_exists. exists k'. split; assumption.
      - rewrite He in Hd. discriminate. }
    rewrite (encode_keep_ok _ _ Hall) in Hd. injection Hd as <-.
    rewrite encode_keep_ok.
    - rewrite filter_keep_idempotent. reflexivity.
    - apply Forall_forall. intros k Hk. rewrite lookup_kept by exact Hk.
      rewrite Forall_forall in Hall. apply Hall, Hk. }
  split; apply Hgen.
Qed.

Lemma encode_idempotent_witness :
  exists d,
    FractionalOctaveBands_encode sample_bank = inr d
    /\ FractionalOctaveBands_encode d = inr d.
Proof.
  assert (H : exists d, FractionalOctaveBands_encode sample_bank = inr d).
  { eexists. apply encode_keep_ok. repeat constructor; eexists; reflexivity. }
  destruct H as [d Hd]. exists d. split; [exact Hd|].
  apply (encode_idempotent sample_bank d). exact Hd.
Defined.

(** ** What the reconstructing design logs *)

Lemma frequencies_with_cutoff (num_fractions : Z) (lo hi : R)
    (fr : frequencies) :
  fractional_octave_frequencies num_fractions [lo; hi] true = inr fr ->
  f_crit fr = Some (cutoff_of num_fractions (exact fr)).
Proof.
  intros Hfr.
  assert (Hle : lo <= hi).
  { destruct (Rle_dec lo hi) as [H|H]; [exact H|].
    unfold fractional_octave_frequencies in Hfr.
    rewrite decide_True in Hfr by lra. discriminate. }
  destruct (decide (num_fractions = 0%Z)) as [->|Hnz].
  - unfold fractional_octave_frequencies in Hfr.
    rewrite decide_False in Hfr by lra.
    rewrite decide_False in Hfr by lia.
    cbn [mbind result_bind rbind] in Hfr. discriminate.
  - destruct (fractional_octave_frequencies_ok num_fractions lo hi true Hle)
      as (nom & ex & Heq & _); [intros _; exact Hnz|].
    rewrite Heq in Hfr. injection Hfr as <-. reflexivity.
Qed.

Lemma np_all_below_nyquist (sampling_rate : R) (f_m : list R) :
  np_all (below_nyquist sampling_rate f_m) = false
  <-> Exists (fun f => sampling_rate / 2 <= f) f_m.
Proof.
  unfold np_all, below_nyquist. induction f_m as [|f f_m IH]; cbn.
  - split; [discriminate | intros H; apply Exists_nil in H; destruct H].
  - rewrite Exists_cons, <- IH. destruct (decide (f < sampling_rate / 2)).
    + rewrite bool_decide_eq_true_2 by assumption. cbn.
      split; [auto | intros [?|?]; [lra | assumption]].
    + rewrite bool_decide_eq_false_2 by assumption. cbn.
      split; [intros _; left; lra | reflexivity].
Qed.

(** X16. Whatever else happens, the reconstructing design logs at most one
    warning: "Skipping bands above the Nyquist frequency", once, exactly
    when some centre frequency is not below half the sampling rate,
    however many bands are skipped and also when the design then raises. *)
Theorem reconstructing_design_log
    (rfftfreq : Z -> R -> list R)
    (irfft : list (list (R * R)) -> Z -> R -> list (list R))
    (hann : nat -> list R) (self : obj)
    (num_fractions : Z) (lo hi overlap : R) (slope n_samples : Z)
    (sampling_rate : R) (log : list warning) (fr : frequencies) :
  fractional_octave_frequencies num_fractions [lo; hi] true = inr fr ->
  exists new,
    (ReconstructingFractionalOctaveBands_get_coefficients rfftfreq irfft
       hann self num_fractions [lo; hi] overlap slope n_samples
       sampling_rate log).2
    = log ++ new
    /\ (new = [] \/ new = [UserWarning skip_msg []])
    /\ (new = [UserWarning skip_msg []]
        <-> Exists (fun f => sampling_rate / 2 <= f) (exact fr)).
Proof.
  intros Hfr. pose proof (frequencies_with_cutoff _ _ _ _ Hfr) as Hfc.
  unfold ReconstructingFractionalOctaveBands_get_coefficients.
  unfold_M. rewrite Hfr, Hfc. cbn [from_option].
  pose proof (np_all_below_nyquist sampling_rate (exact fr)) as Hiff.
  destruct (np_all (below_nyquist sampling_rate (exact fr))) eqn:Hall;
    cbn [negb].
  - exists []. rewrite app_nil_r.
    split; [|split; [left; reflexivity|]].
    + case_decide; [reflexivity|].
      destruct (magnitude_responses _ _ _ _ _ _); reflexivity.
    + split; [discriminate|]. intros H. apply Hiff in H. discriminate.
  - exists [UserWarning skip_msg []].
    split; [|split; [right; reflexivity|]].
    + case_decide; [reflexivity|].
      destruct (magnitude_responses _ _ _ _ _ _); reflexivity.
    + split; [intros _; apply Hiff; reflexivity | reflexivity].
Qed.

Lemma reconstructing_design_log_witness :
  exists new,
    (ReconstructingFractionalOctaveBands_get_coefficients sample_rfftfreq
       sample_irfft sample_hann ∅ 1 [900; 1900] 1 0 8 1000 []).2
    = [] ++ new
    /\ (new = [] \/ new = [UserWarning skip_msg []])
    /\ (new = [UserWarning skip_msg []]
        <-> Exists (fun f => 1000 / 2 <= f) [1000]).
Proof.
  apply (reconstructing_design_log sample_rfftfreq sample_irfft sample_hann
           ∅ 1 900 1900 1 0 8 1000 []
           (mk_frequencies (Some [1000]) [1000] (Some (cutoff_of 1 [1000])))).
  apply octave_grid_900_1900.
Defined.

(** ** What the energy-preserving design logs *)

(** Neighbouring centre frequencies are at least one band width
    [G^(1 / num_fractions)] apart. *)
Lemma exact_frequencies_spaced (num_fractions : Z) (lo hi : R) (rc : bool)
    (fr : frequencies) :
  (1 <= num_fractions)%Z ->
  fractional_octave_frequencies num_fractions [lo; hi] rc = inr fr ->
  StronglySorted
    (fun e e' => e * Rpower octave_ratio (1 / IZR num_fractions) <= e')
    (exact fr).
Proof.
  intros Hnf Hfr.
  assert (Hle : lo <= hi).
  { destruct (Rle_dec lo hi) as [H|H]; [exact H|].
    unfold fractional_octave_frequencies in Hfr.
    rewrite decide_True in Hfr by lra. discriminate. }
  assert (Hpos : 0 < IZR num_fractions) by (apply IZR_lt; lia).
  assert (HG : 1 < octave_ratio).
  { replace octave_ratio with (Rpower octave_ratio 1).
    - apply Rpower_octave_ratio_gt_1; lra.
    - apply Rpower_1, octave_ratio_pos. }
  destruct (decide (num_fractions = 1%Z \/ num_fractions = 3%Z))
    as [Hiec|Hother].
  - rewrite (iec_frequencies _ _ _ rc Hiec Hle) in Hfr.
    injection Hfr as <-. cbn [exact].
    apply StronglySorted_select.
    apply (StronglySorted_fmap _ lt); [|apply seq_sorted].
    intros i j Hij. unfold reference_freq.
    rewrite Rmult_assoc, <- Rpower_plus.
    apply Rmult_le_compat_l; [lra|]. apply Rpower_mono; [exact HG|].
    assert (Hidx : IZR (iec_band_index num_fractions i) + 1
                   <= IZR (iec_band_index num_fractions j)).
    { rewrite <- (plus_IZR _ 1). apply IZR_le. unfold iec_band_index. lia. }
    apply Rmult_le_reg_r with (IZR num_fractions); [exact Hpos|].
    replace ((IZR (iec_band_index num_fractions i) / IZR num_fractions
              + 1 / IZR num_fractions) * IZR num_fractions)
      with (IZR (iec_band_index num_fractions i) + 1) by (field; lra).
    replace (IZR (iec_band_index num_fractions j) / IZR num_fractions
             * IZR num_fractions)
      with (IZR (iec_band_index num_fractions j)) by (field; lra).
    exact Hidx.
  - destruct (fractional_octave_frequencies_ok num_fractions lo hi rc Hle)
      as (nom & ex & Heq & _ & _ & Hex); [lia|].
    destruct (Hex Hother) as [-> ->]. rewrite Heq in Hfr.
    injection Hfr as <-. cbn [exact].
    unfold exact_center_frequencies_fractional_octaves.
    apply (StronglySorted_fmap _ Z.lt); [|apply arange_incl_strictly_sorted].
    intros i j Hij.
    assert (Hstep : Rpower octave_ratio (1 / IZR num_fractions)
                    <= Rpower 2 (1 / IZR num_fractions)).
    { apply Rlt_le, Rpower_base_lt;
        [apply octave_ratio_pos | apply octave_ratio_lt_2|].
      apply Rdiv_lt_0_compat; lra. }
    assert (Hmono : Rpower 2 (IZR i / IZR num_fractions + 1 / IZR num_fractions)
                    <= Rpower 2 (IZR j / IZR num_fractions)).
    { apply Rpower_mono; [lra|].
      assert (IZR i + 1 <= IZR j)
        by (rewrite <- (plus_IZR _ 1); apply IZR_le; lia).
      apply Rmult_le_reg_r with (IZR num_fractions); [exact Hpos|].
      replace ((IZR i / IZR num_fractions + 1 / IZR num_fractions)
               * IZR num_fractions) with (IZR i + 1) by (field; lra).
      replace (IZR j / IZR num_fractions * IZR num_fractions) with (IZR j)
        by (field; lra).
      assumption. }
    rewrite Rpower_plus in Hmono.
    pose proof (exp_pos (IZR i / IZR num_fractions * ln 2)) as He.
    fold (Rpower 2 (IZR i / IZR num_fractions)) in He.
    set (e := Rpower 2 (IZR i / IZR num_fractions)) in *.
    set (g := Rpower octave_ratio (1 / IZR num_fractions)) in *.
    set (t := Rpower 2 (1 / IZR num_fractions)) in *.
    assert (e * g <= e * t) by (apply Rmult_le_compat_l; lra).
    nra.
Qed.

Lemma filter_none {A : Type} (Q : A -> Prop) `{!forall x, Decision (Q x)}
    (l : list A) :
  Forall (fun x => ~ Q x) l -> filter Q l = [].
Proof.
  induction 1 as [|x l Hx _ IH]; [reflexivity|].
  rewrite filter_cons, decide_False by exact Hx. exact IH.
Qed.

(** Among bands in ascending order that do not overlap, at most one is kept
    and reaches above the Nyquist frequency, and its position among the
    bands kept is its position among all bands. *)
Lemma highpass_warnings_at_most_one (freqs_upper : list R)
    (Wns : list (R * R)) :
  StronglySorted (fun a b : R * R => a.1 <= b.1 /\ a.2 <= b.1) Wns ->
  forall idx : nat,
    highpass_warnings freqs_upper idx (kept_bands Wns) = []
    \/ exists (i : nat) (Wn : R * R),
         Wns !! i = Some Wn /\ Wn.1 < 1 /\ Wn.2 > 1
         /\ highpass_warnings freqs_upper idx (kept_bands Wns)
            = [UserWarning highpass_msg
                 [round1 (freqs_upper !!! (idx + i)%nat)]].
Proof.
  unfold kept_bands.
  induction 1 as [|a l Hsorted IH Ha]; intros idx; [left; reflexivity|].
  rewrite filter_cons.
  assert (Hrest : 1 <= a.1 \/ 1 < a.2 ->
                  filter (fun Wn : R * R => Wn.1 < 1) l = []).
  { intros Hbig. apply filter_none. eapply Forall_impl; [exact Ha|].
    intros b [H1 H2]. cbn. lra. }
  destruct (decide (a.1 < 1)) as [Hkeep|Hskip].
  - cbn [highpass_warnings].
    destruct (decide (a.2 > 1)) as [Hhp|Hbp].
    + right. exists 0%nat, a. rewrite Hrest by lra.
      cbn [highpass_warnings app]. rewrite Nat.add_0_r.
      repeat split; [assumption..].
    + cbn [app]. destruct (IH (S idx)) as [Hnil|(i & Wn & Hi & H1 & H2 & Hw)].
      * left. exact Hnil.
      * right. exists (S i), Wn. repeat split; try assumption.
        rewrite Hw. replace (S idx + i)%nat with (idx + S i)%nat by lia.
        reflexivity.
  - left. rewrite Hrest by lra. reflexivity.
Qed.

(** The bands of a call as the design sees them: in ascending order, no
    band reaching into the next. *)
Lemma normalized_edges_sorted (num_fractions : Z) (lo hi sampling_rate : R)
    (fr : frequencies) :
  (1 <= num_fractions)%Z -> 0 < sampling_rate ->
  fractional_octave_frequencies num_fractions [lo; hi] true = inr fr ->
  StronglySorted (fun a b : R * R => a.1 <= b.1 /\ a.2 <= b.1)
    (normalized_edges sampling_rate (cutoff_of num_fractions (exact fr))).
Proof.
  intros Hnf Hsr Hfr.
  pose proof (exact_frequencies_spaced _ _ _ _ _ Hnf Hfr) as Hspaced.
  assert (Hle : lo <= hi).
  { destruct (Rle_dec lo hi) as [H|H]; [exact H|].
    unfold fractional_octave_frequencies in Hfr.
    rewrite decide_True in Hfr by lra. discriminate. }
  destruct (fractional_octave_frequencies_ok num_fractions lo hi true Hle)
    as (nom & ex & Heq & Hpos & _); [lia|].
  rewrite Heq in Hfr. injection Hfr as <-. cbn [exact] in *.
  unfold normalized_edges, cutoff_of. cbn [fst snd].
  assert (Hn : 1 <= IZR num_fractions) by (apply IZR_le in Hnf; exact Hnf).
  set (x := 1 / 2 / IZR num_fractions).
  assert (Hx : 0 < x) by (unfold x; apply Rdiv_lt_0_compat; lra).
  replace (-1 / 2 / IZR num_fractions) with (- x) by (unfold x; field; lra).
  replace (1 / IZR num_fractions) with (x + x) in Hspaced
    by (unfold x; field; lra).
  pose proof (Rpower_octave_ratio_inv x) as Hinv.
  pose proof (Rpower_octave_ratio_gt_1 x Hx) as Hup.
  change (map (fun f : R => f * Rpower octave_ratio (- x)) ex)
    with ((fun f : R => f * Rpower octave_ratio (- x)) <$> ex).
  change (map (fun f : R => f * Rpower octave_ratio x) ex)
    with ((fun f : R => f * Rpower octave_ratio x) <$> ex).
  rewrite zip_with_fmap_l, zip_with_fmap_r, zip_with_diag.
  assert (Hboth : StronglySorted
                    (fun e e' => 0 < e /\ 0 < e'
                                 /\ e * Rpower octave_ratio (x + x) <= e')
                    ex).
  { clear Heq. induction Hspaced as [|e l Hs IH He]; constructor.
    - apply IH. apply Forall_inv_tail in Hpos. exact Hpos.
    - pose proof (Forall_inv Hpos) as He0.
      apply Forall_inv_tail in Hpos.
      rewrite Forall_forall in He, Hpos |- *. intros e' He'.
      split; [exact He0|]. split; [apply Hpos, He' | apply He, He']. }
  eapply StronglySorted_fmap; [|exact Hboth].
  intros e e' (He & He' & Hstep). cbn [fst snd].
  rewrite Rpower_plus in Hstep.
  set (g := Rpower octave_ratio x) in *.
  set (g' := Rpower octave_ratio (- x)) in *.
  assert (Hg' : 0 < g') by nra.
  assert (Hinvsr : 0 < / sampling_rate) by (apply Rinv_0_lt_compat, Hsr).
  assert (Hgg : 1 <= g * g) by nra.
  assert (Hee : e <= e').
  { assert (e * 1 <= e * (g * g)) by (apply Rmult_le_compat_l; lra). lra. }
  assert (H1 : e * g' <= e' * g') by (apply Rmult_le_compat_r; lra).
  assert (H2 : e * g <= e' * g').
  { assert (e * (g * g) * g' <= e' * g') by (apply Rmult_le_compat_r; lra).
    replace (e * (g * g) * g') with (e * g * (g' * g)) in H by ring.
    rewrite Hinv in H. lra. }
  unfold Rdiv. split.
  - apply Rmult_le_compat_r; [lra|]. apply Rmult_le_compat_r; lra.
  - apply Rmult_le_compat_r; [lra|]. apply Rmult_le_compat_r; lra.
Qed.

(** X17. The energy-preserving design logs at most two warnings: at most once
    that bands are skipped, and at most once that a band-pass is replaced by
    a high-pass. Bands are in ascending order and do not reach into each
    other, so only one band kept can reach above the Nyquist frequency, and
    the warning reports the upper cutoff frequency of that very band. *)
Theorem energy_design_warnings
    (butter : Z -> list R -> btype -> list (list R))
    (self : obj) (sampling_rate : R) (num_fractions : Z) (lo hi : R)
    (order : Z) (log : list warning) :
  (forall N w, (length (butter N [w] highpass) <= Z.to_nat N)%nat) ->
  (forall N w1 w2, length (butter N [w1; w2] bandpass) = Z.to_nat N) ->
  (forall N Wn bt,
      Forall (fun section => length section = 6%nat) (butter N Wn bt)) ->
  0 < sampling_rate -> (1 <= num_fractions)%Z -> 0 < lo -> lo <= hi ->
  (1 <= order)%Z ->
  exists fr lower upper sos skip hp,
    fractional_octave_frequencies num_fractions [lo; hi] true = inr fr
    /\ f_crit fr = Some (lower, upper)
    /\ FractionalOctaveBands_get_coefficients butter self sampling_rate
         num_fractions [lo; hi] order log
       = (inr sos, log ++ skip ++ hp)
    /\ (skip = [] \/ skip = [UserWarning skip_msg []])
    /\ (hp = []
        \/ exists (i : nat) (l u : R),
             lower !! i = Some l /\ upper !! i = Some u
             /\ l < sampling_rate / 2 /\ sampling_rate / 2 < u
             /\ hp = [UserWarning highpass_msg [round1 u]]).
Proof.
  intros Hhp Hbp Hsec Hsr Hnf Hlo Hle Hord.
  destruct (get_coefficients_spec butter self sampling_rate num_fractions
              lo hi order log Hhp Hbp Hsec Hsr Hnf Hle Hord)
    as (fr & fc & Hfr & Hfc & Hcall & _).
  cbv zeta in Hcall.
  pose proof (frequencies_with_cutoff _ _ _ _ Hfr) as Hfc'.
  rewrite Hfc in Hfc'. injection Hfc' as ->.
  eexists fr, _, _, _, _, _. split; [exact Hfr|].
  split; [exact Hfc|]. split; [exact Hcall|].
  split; [case_decide; [right | left]; reflexivity|].
  destruct (highpass_warnings_at_most_one
              (cutoff_of num_fractions (exact fr)).2
              (normalized_edges sampling_rate
                 (cutoff_of num_fractions (exact fr)))
              (normalized_edges_sorted _ _ _ _ _ Hnf Hsr Hfr) 0)
    as [Hnil|(i & Wn & Hi & H1 & H2 & Hw)]; [left; exact Hnil|].
  right. unfold normalized_edges in Hi.
  apply lookup_zip_with_Some in Hi as (l & u & -> & Hl & Hu).
  cbn [fst snd] in H1, H2. exists i, l, u.
  split; [exact Hl|]. split; [exact Hu|].
  assert (Hinv : 0 < / sampling_rate) by (apply Rinv_0_lt_compat, Hsr).
  split; [|split].
  - apply Rmult_lt_reg_r with (/ sampling_rate * 2); [lra|].
    unfold Rdiv in *. rewrite <- Rmult_assoc.
    replace (sampling_rate * / 2 * (/ sampling_rate * 2)) with 1
      by (field; lra). exact H1.
  - apply Rmult_lt_reg_r with (/ sampling_rate * 2); [lra|].
    unfold Rdiv in *. rewrite <- (Rmult_assoc u).
    replace (sampling_rate * / 2 * (/ sampling_rate * 2)) with 1
      by (field; lra). lra.
  - rewrite Hw. cbn [Nat.add].
    rewrite (list_lookup_total_correct _ _ _ Hu). reflexivity.
Qed.

Lemma energy_design_warnings_witness :
  exists fr lower upper sos skip hp,
    fractional_octave_frequencies 1 [900; 1900] true = inr fr
    /\ f_crit fr = Some (lower, upper)
    /\ FractionalOctaveBands_get_coefficients sample_butter ∅ 3000
         1 [900; 1900] 2 []
       = (inr sos, [] ++ skip ++ hp)
    /\ (skip = [] \/ skip = [UserWarning skip_msg []])
    /\ (hp = []
        \/ exists (i : nat) (l u : R),
             lower !! i = Some l /\ upper !! i = Some u
             /\ l < 3000 / 2 /\ 3000 / 2 < u
             /\ hp = [UserWarning highpass_msg [round1 u]]).
Proof.
  apply (energy_design_warnings sample_butter ∅ 3000 1 900 1900 2 []);
    first [lra | lia | idtac].
  - intros N w. apply sample_butter_highpass.
  - intros N w1 w2. apply sample_butter_bandpass.
  - intros N Wn bt. apply sample_butter_sections.
Defined.

(** ** Constructed banks *)

Section Constructed.

Variable butter : Z -> list R -> btype -> list (list R).
Variable rfftfreq : Z -> R -> list R.
Variable irfft : list (list (R * R)) -> Z -> R -> list (list R).
Variable hann : nat -> list R.
Variable Filter_init : obj -> value -> value -> obj.
Variable format : value -> string.

(** The initialiser of the superclass sets the coefficients, the sampling
    rate, the state and the comment, and leaves every other attribute as it
    is. *)
Hypothesis Filter_init_frame :
  forall (self : obj) (coefficients sampling_rate : value) (k : string),
    k ∉ ["_coefficients"; "_sampling_rate"; "_state"; "_comment"] ->
    Filter_init self coefficients sampling_rate !! k = self !! k.

Hypothesis Filter_init_sampling_rate :
  forall (self : obj) (coefficients sampling_rate : value),
    Filter_init self coefficients sampling_rate !! "_sampling_rate"
    = Some sampling_rate.

Ltac not_in_list :=
  let H := fresh in
  intros H;
  repeat (apply elem_of_cons in H as [H|H]; [discriminate H|]);
  apply elem_of_nil in H; exact H.

Ltac stored_attribute :=
  first
    [ rewrite lookup_insert_ne by discriminate;
      first [ apply Filter_init_sampling_rate
            | rewrite Filter_init_frame by not_in_list; reflexivity ]
    | rewrite lookup_insert_ne by discriminate;
      rewrite lookup_insert_ne by discriminate;
      first [ apply Filter_init_sampling_rate
            | rewrite Filter_init_frame by not_in_list; reflexivity ] ].

Lemma energy_init_inv (num_fractions sampling_rate freq_range order : value)
    (log log' : list warning) (self : obj) :
  FractionalOctaveBands_init butter Filter_init num_fractions sampling_rate
    freq_range order log = (inr self, log') ->
  exists f_lims nf fr,
    np_asarray freq_range = inr f_lims
    /\ as_int num_fractions = inr nf
    /\ fractional_octave_frequencies nf f_lims true = inr fr
    /\ self !! "_num_fractions" = Some num_fractions
    /\ self !! "_freq_range" = Some freq_range
    /\ self !! "_order" = Some order
    /\ self !! "_sampling_rate" = Some sampling_rate
    /\ self !! "_exact_frequencies" = Some (VArray (exact fr))
    /\ self !! "_norm_frequencies"
       = Some (from_option VArray VNone (nominal fr)).
Proof.
  unfold FractionalOctaveBands_init. unfold_M.
  destruct (np_asarray freq_range) as [e|f_lims] eqn:E1; [discriminate|].
  destruct (as_int num_fractions) as [e|nf] eqn:E2; [discriminate|].
  destruct (fractional_octave_frequencies nf f_lims true) as [e|fr] eqn:E3;
    [discriminate|].
  destruct (from_option inr _ (f_crit fr)) as [e|fc]; [discriminate|].
  destruct (as_real sampling_rate) as [e|sr]; [discriminate|].
  destruct (as_int order) as [e|ord]; [discriminate|].
  destruct (FractionalOctaveBands_get_coefficients _ _ _ _ _ _ _)
    as [[e|coeffs] log1]; [discriminate|].
  intros [= <- <-]. exists f_lims, nf, fr.
  repeat split; try reflexivity; try assumption; stored_attribute.
Qed.

Lemma reconstructing_init_inv
    (num_fractions freq_range overlap slope n_samples sampling_rate : value)
    (log log' : list warning) (self : obj) :
  ReconstructingFractionalOctaveBands_init rfftfreq irfft hann Filter_init
    format num_fractions freq_range overlap slope n_samples sampling_rate log
  = (inr self, log') ->
  exists f_lims nf fr ov sl,
    np_asarray freq_range = inr f_lims
    /\ as_int num_fractions = inr nf
    /\ fractional_octave_frequencies nf f_lims true = inr fr
    /\ as_real overlap = inr ov /\ 0 <= ov <= 1
    /\ slope = VInt sl /\ (0 <= sl)%Z
    /\ self !! "_num_fractions" = Some num_fractions
    /\ self !! "_freq_range" = Some freq_range
    /\ self !! "_overlap" = Some overlap
    /\ self !! "_slope" = Some slope
    /\ self !! "_n_samples" = Some n_samples
    /\ self !! "_sampling_rate" = Some sampling_rate
    /\ self !! "_exact_frequencies" = Some (VArray (exact fr))
    /\ self !! "_norm_frequencies"
       = Some (from_option VArray VNone (nominal fr)).
Proof.
  unfold ReconstructingFractionalOctaveBands_init. unfold_M.
  destruct (as_real overlap) as [e|ov] eqn:E0; [discriminate|].
  case_decide as Hov; [discriminate|].
  destruct slope as [| sl | | | | | |]; try discriminate.
  case_decide as Hsl; [discriminate|].
  destruct (np_asarray freq_range) as [e|f_lims] eqn:E1; [discriminate|].
  destruct (as_int num_fractions) as [e|nf] eqn:E2; [discriminate|].
  destruct (fractional_octave_frequencies nf f_lims true) as [e|fr] eqn:E3;
    [discriminate|].
  destruct (from_option inr _ (f_crit fr)) as [e|fc]; [discriminate|].
  destruct (as_int n_samples) as [e|ns]; [discriminate|].
  destruct (as_real sampling_rate) as [e|sr]; [discriminate|].
  destruct (ReconstructingFractionalOctaveBands_get_coefficients
              _ _ _ _ _ _ _ _ _ _ _) as [[e|coeffs] log1]; [discriminate|].
  intros [= <- <-]. exists f_lims, nf, fr, ov, sl.
  repeat split; try reflexivity; try assumption; try lra; try lia;
    stored_attribute.
Qed.

End Constructed.

Lemma encode_keep_parameters (kvs : list (string * value)) (self : obj) :
  NoDup kvs.*1 ->
  Forall (fun kv : string * value => self !! kv.1 = Some kv.2) kvs ->
  encode_keep kvs.*1 self = inr (list_to_map kvs).
Proof.
  intros Hnodup Hall. rewrite encode_keep_ok.
  - f_equal. apply map_eq. intros k.
    destruct (decide (k ∈ kvs.*1)) as [Hin|Hout].
    + rewrite lookup_kept by exact Hin.
      apply list_elem_of_fmap in Hin as ([k' v] & -> & Hkv).
      rewrite Forall_forall in Hall. rewrite (Hall _ Hkv). cbn.
      symmetry. apply elem_of_list_to_map_1; assumption.
    + transitivity (@None value).
      * apply map_lookup_filter_None. right. intros v _. exact Hout.
      * symmetry. apply not_elem_of_list_to_map_1, Hout.
  - rewrite Forall_fmap. eapply Forall_impl; [exact Hall|].
    intros [k v] Hkv. cbn in *. rewrite Hkv. eauto.
Qed.

(** X18. A bank that has been constructed reports the arguments of its
    constructor: every parameter property returns the argument passed, and
    [_encode] returns the dictionary of exactly these parameters. The
    superclass initialiser is taken to set the coefficients, sampling rate,
    state and comment and to leave the other attributes alone. *)
Theorem constructed_bank_parameters
    (butter : Z -> list R -> btype -> list (list R))
    (rfftfreq : Z -> R -> list R)
    (irfft : list (list (R * R)) -> Z -> R -> list (list R))
    (hann : nat -> list R)
    (Filter_init : obj -> value -> value -> obj)
    (format : value -> string) :
  (forall (self : obj) (coefficients sampling_rate : value) (k : string),
      k ∉ ["_coefficients"; "_sampling_rate"; "_state"; "_comment"] ->
      Filter_init self coefficients sampling_rate !! k = self !! k) ->
  (forall (self : obj) (coefficients sampling_rate : value),
      Filter_init self coefficients sampling_rate !! "_sampling_rate"
      = Some sampling_rate) ->
  (forall (num_fractions sampling_rate freq_range order : value)
          (log log' : list warning) (self : obj),
      FractionalOctaveBands_init butter Filter_init num_fractions
        sampling_rate freq_range order log = (inr self, log') ->
      Bank.num_fractions self = inr num_fractions
      /\ Bank.freq_range self = inr freq_range
      /\ Bank.order self = inr order
      /\ Bank.sampling_rate self = inr sampling_rate
      /\ FractionalOctaveBands_encode (Bank.copy self)
         = inr (<["_num_fractions" := num_fractions]>
                  (<["_freq_range" := freq_range]>
                     (<["_order" := order]>
                        (<["_sampling_rate" := sampling_rate]> ∅)))))
  /\ (forall (num_fractions freq_range overlap slope n_samples
              sampling_rate : value)
             (log log' : list warning) (self : obj),
         ReconstructingFractionalOctaveBands_init rfftfreq irfft hann
           Filter_init format num_fractions freq_range overlap slope
           n_samples sampling_rate log = (inr self, log') ->
         Bank.num_fractions self = inr num_fractions
         /\ Bank.freq_range self = inr freq_range
         /\ Bank.overlap self = inr overlap
         /\ Bank.slope self = inr slope
         /\ Bank.n_samples self = inr n_samples
         /\ Bank.sampling_rate self = inr sampling_rate
         /\ ReconstructingFractionalOctaveBands_encode (Bank.copy self)
            = inr (<["_num_fractions" := num_fractions]>
                     (<["_freq_range" := freq_range]>
                        (<["_sampling_rate" := sampling_rate]>
                           (<["_overlap" := overlap]>
                              (<["_slope" := slope]>
                                 (<["_n_samples" := n_samples]> ∅))))))).
Proof.
  intros Hframe Hsr. split.
  - intros nf sr fr order log log' self Hinit.
    destruct (energy_init_inv butter Filter_init Hframe Hsr _ _ _ _ _ _ _
                Hinit)
      as (_ & _ & _ & _ & _ & _ & H1 & H2 & H3 & H4 & _).
    unfold Bank.num_fractions, Bank.freq_range, Bank.order,
      Bank.sampling_rate, Bank.copy, getattr.
    rewrite H1, H2, H3, H4. repeat split.
    apply (encode_keep_parameters
             [("_num_fractions", nf); ("_freq_range", fr);
              ("_order", order); ("_sampling_rate", sr)]).
    + cbn [fmap list_fmap fst].
      repeat (apply NoDup_cons_2;
              [let H := fresh in
               intros H;
               repeat (apply elem_of_cons in H as [H|H]; [discriminate H|]);
               apply elem_of_nil in H; exact H|]).
      apply NoDup_nil_2.
    + repeat constructor; assumption.
  - intros nf fr overlap slope ns sr log log' self Hinit.
    destruct (reconstructing_init_inv rfftfreq irfft hann Filter_init format
                Hframe Hsr _ _ _ _ _ _ _ _ _ Hinit)
      as (_ & _ & _ & _ & _ & _ & _ & _ & _ & _ & _ & _
          & H1 & H2 & H3 & H4 & H5 & H6 & _).
    unfold Bank.num_fractions, Bank.freq_range, Bank.overlap, Bank.slope,
      Bank.n_samples, Bank.sampling_rate, Bank.copy, getattr.
    rewrite H1, H2, H3, H4, H5, H6. repeat split.
    apply (encode_keep_parameters
             [("_num_fractions", nf); ("_freq_range", fr);
              ("_sampling_rate", sr); ("_overlap", overlap);
              ("_slope", slope); ("_n_samples", ns)]).
    + cbn [fmap list_fmap fst].
      repeat (apply NoDup_cons_2;
              [let H := fresh in
               intros H;
               repeat (apply elem_of_cons in H as [H|H]; [discriminate H|]);
               apply elem_of_nil in H; exact H|]).
      apply NoDup_nil_2.
    + repeat constructor; assumption.
Qed.

Lemma sample_Filter_init_frame (self : obj)
    (coefficients sampling_rate : value) (k : string) :
  k ∉ ["_coefficients"; "_sampling_rate"; "_state"; "_comment"] ->
  sample_Filter_init self coefficients sampling_rate !! k = self !! k.
Proof.
  intros Hk. unfold sample_Filter_init.
  rewrite !lookup_insert_ne; [reflexivity|..];
    intros <-; apply Hk; in_list.
Qed.

Lemma sample_Filter_init_sampling_rate (self : obj)
    (coefficients sampling_rate : value) :
  sample_Filter_init self coefficients sampling_rate !! "_sampling_rate"
  = Some sampling_rate.
Proof.
  unfold sample_Filter_init.
  rewrite lookup_insert_ne by discriminate. apply lookup_insert_eq.
Qed.

Lemma sample_energy_bank_constructed :
  exists self log',
    FractionalOctaveBands_init sample_butter sample_Filter_init
      (VInt 1) (VInt 3000) (VTuple [900; 1900]) (VInt 2) []
    = (inr self, log').
Proof.
  destruct (get_coefficients_spec sample_butter
              (<["_cutoff_frequencies" :=
                   VArray2 [(cutoff_of 1 [1000]).1; (cutoff_of 1 [1000]).2]]>
                 (<["_exact_frequencies" := VArray [1000]]>
                    (<["_norm_frequencies" := VArray [1000]]>
                       (<["_order" := VInt 2]>
                          (<["_freq_range" := VTuple [900; 1900]]>
                             (<["_sampling_rate" := VInt 3000]>
                                (<["_num_fractions" := VInt 1]> ∅)))))))
              3000 1 900 1900 2 [])
    as (fr & fc & Hfr & Hfc & Hcall & _);
    [intros; apply sample_butter_highpass
    | intros; apply sample_butter_bandpass
    | intros; apply sample_butter_sections
    | lra | lia | lra | lia |].
  cbv zeta in Hcall.
  unfold FractionalOctaveBands_init. unfold_M.
  cbn [np_asarray as_int as_real].
  rewrite octave_grid_900_1900. cbn [f_crit from_option exact nominal].
  rewrite Hcall. eexists _, _. reflexivity.
Qed.

Lemma constructed_bank_parameters_witness :
  exists self log',
    FractionalOctaveBands_init sample_butter sample_Filter_init
      (VInt 1) (VInt 3000) (VTuple [900; 1900]) (VInt 2) []
    = (inr self, log')
    /\ Bank.num_fractions self = inr (VInt 1)
    /\ Bank.freq_range self = inr (VTuple [900; 1900])
    /\ Bank.order self = inr (VInt 2)
    /\ Bank.sampling_rate self = inr (VInt 3000)
    /\ FractionalOctaveBands_encode (Bank.copy self)
       = inr (<["_num_fractions" := VInt 1]>
                (<["_freq_range" := VTuple [900; 1900]]>
                   (<["_order" := VInt 2]>
                      (<["_sampling_rate" := VInt 3000]> ∅)))).
Proof.
  destruct sample_energy_bank_constructed as (self & log' & Hinit).
  exists self, log'. split; [exact Hinit|].
  destruct (constructed_bank_parameters sample_butter sample_rfftfreq
              sample_irfft sample_hann sample_Filter_init sample_format
              sample_Filter_init_frame sample_Filter_init_sampling_rate)
    as [Henergy _].
  exact (Henergy _ _ _ _ _ _ _ Hinit).
Defined.

(** X19. The frequencies a constructed bank reports are those of
    [fractional_octave_frequencies] for its [num_fractions] and
    [freq_range], and [n_bands] is their number: it counts every centre
    frequency in the range, whether or not the design kept the band (the
    sampling rate plays no part in it). *)
Theorem constructed_bank_frequencies
    (butter : Z -> list R -> btype -> list (list R))
    (rfftfreq : Z -> R -> list R)
    (irfft : list (list (R * R)) -> Z -> R -> list (list R))
    (hann : nat -> list R)
    (Filter_init : obj -> value -> value -> obj)
    (format : value -> string) :
  (forall (self : obj) (coefficients sampling_rate : value) (k : string),
      k ∉ ["_coefficients"; "_sampling_rate"; "_state"; "_comment"] ->
      Filter_init self coefficients sampling_rate !! k = self !! k) ->
  (forall (self : obj) (coefficients sampling_rate : value),
      Filter_init self coefficients sampling_rate !! "_sampling_rate"
      = Some sampling_rate) ->
  (forall (num_fractions sampling_rate freq_range order : value)
          (log log' : list warning) (self : obj),
      FractionalOctaveBands_init butter Filter_init num_fractions
        sampling_rate freq_range order log = (inr self, log') ->
      exists f_lims nf fr,
        np_asarray freq_range = inr f_lims
        /\ as_int num_fractions = inr nf
        /\ fractional_octave_frequencies nf f_lims true = inr fr
        /\ Bank.exact_frequencies self = inr (VArray (exact fr))
        /\ Bank.norm_frequencies self
           = inr (from_option VArray VNone (nominal fr))
        /\ n_bands self = inr (length (exact fr)))
  /\ (forall (num_fractions freq_range overlap slope n_samples
              sampling_rate : value)
             (log log' : list warning) (self : obj),
         ReconstructingFractionalOctaveBands_init rfftfreq irfft hann
           Filter_init format num_fractions freq_range overlap slope
           n_samples sampling_rate log = (inr self, log') ->
         exists f_lims nf fr,
           np_asarray freq_range = inr f_lims
           /\ as_int num_fractions = inr nf
           /\ fractional_octave_frequencies nf f_lims true = inr fr
           /\ Bank.exact_frequencies self = inr (VArray (exact fr))
           /\ Bank.norm_frequencies self
              = inr (from_option VArray VNone (nominal fr))
           /\ n_bands self = inr (length (exact fr))).
Proof.
  intros Hframe Hsr. split.
  - intros nf sr fr order log log' self Hinit.
    destruct (energy_init_inv butter Filter_init Hframe Hsr _ _ _ _ _ _ _
                Hinit)
      as (f_lims & n & f & E1 & E2 & E3 & _ & _ & _ & _ & Hex & Hnom).
    exists f_lims, n, f. repeat split; try assumption.
    + unfold Bank.exact_frequencies, getattr. rewrite Hex. reflexivity.
    + unfold Bank.norm_frequencies, getattr. rewrite Hnom. reflexivity.
    + unfold n_bands, getattr. rewrite Hex. reflexivity.
  - intros nf fr overlap slope ns sr log log' self Hinit.
    destruct (reconstructing_init_inv rfftfreq irfft hann Filter_init format
                Hframe Hsr _ _ _ _ _ _ _ _ _ Hinit)
      as (f_lims & n & f & ov & sl & E1 & E2 & E3 & _ & _ & _ & _
          & _ & _ & _ & _ & _ & _ & Hex & Hnom).
    exists f_lims, n, f. repeat split; try assumption.
    + unfold Bank.exact_frequencies, getattr. rewrite Hex. reflexivity.
    + unfold Bank.norm_frequencies, getattr. rewrite Hnom. reflexivity.
    + unfold n_bands, getattr. rewrite Hex. reflexivity.
Qed.

Lemma constructed_bank_frequencies_witness :
  exists self log',
    FractionalOctaveBands_init sample_butter sample_Filter_init
      (VInt 1) (VInt 3000) (VTuple [900; 1900]) (VInt 2) []
    = (inr self, log')
    /\ exists f_lims nf fr,
         np_asarray (VTuple [900; 1900]) = inr f_lims
         /\ as_int (VInt 1) = inr nf
         /\ fractional_octave_frequencies nf f_lims true = inr fr
         /\ Bank.exact_frequencies self = inr (VArray (exact fr))
         /\ Bank.norm_frequencies self
            = inr (from_option VArray VNone (nominal fr))
         /\ n_bands self = inr (length (exact fr)).
Proof.
  destruct sample_energy_bank_constructed as (self & log' & Hinit).
  exists self, log'. split; [exact Hinit|].
  destruct (constructed_bank_frequencies sample_butter sample_rfftfreq
              sample_irfft sample_hann sample_Filter_init sample_format
              sample_Filter_init_frame sample_Filter_init_sampling_rate)
    as [Henergy _].
  exact (Henergy _ _ _ _ _ _ _ Hinit).
Defined.

(** ** Nominal and exact frequencies *)

Lemma octave_power_close_pos (n : R) (k nf : Z) (p : nat) :
  0 < n -> (0 < nf)%Z -> (0 <= k)%Z -> (nf * Z.of_nat p = 6 * k)%Z ->
  (99 / 100 * n / 1000) ^ 20 <= 10 ^ p ->
  10 ^ p <= (101 / 100 * n / 1000) ^ 20 ->
  99 / 100 * n <= 1000 * Rpower octave_ratio (IZR k / IZR nf) <= 101 / 100 * n.
Proof.
  intros Hn Hnf Hk Hp Hlo Hhi.
  assert (Hnfr : 0 < IZR nf) by (apply IZR_lt; exact Hnf).
  assert (Hx : 6 * (IZR k / IZR nf) = INR p).
  { apply (f_equal IZR) in Hp. rewrite !mult_IZR, <- INR_IZR_INZ in Hp.
    apply Rmult_eq_reg_l with (IZR nf); [|lra].
    rewrite Hp. field. lra. }
  assert (H1 : 99 / 100 * n / 1000 <= Rpower octave_ratio (IZR k / IZR nf)).
  { apply octave_ratio_power_ge with (p := p); [lra | exact Hlo | lra]. }
  assert (H2 : Rpower octave_ratio (IZR k / IZR nf) <= 101 / 100 * n / 1000).
  { apply octave_ratio_power_le with (p := p); [lra | exact Hhi | lra]. }
  lra.
Qed.

Lemma octave_power_close_neg (n : R) (k nf : Z) (p : nat) :
  0 < n -> (0 < nf)%Z -> (k <= 0)%Z -> (nf * Z.of_nat p = - 6 * k)%Z ->
  (1000 / (101 / 100 * n)) ^ 20 <= 10 ^ p ->
  10 ^ p <= (1000 / (99 / 100 * n)) ^ 20 ->
  99 / 100 * n <= 1000 * Rpower octave_ratio (IZR k / IZR nf) <= 101 / 100 * n.
Proof.
  intros Hn Hnf Hk Hp Hlo Hhi.
  assert (Hnfr : 0 < IZR nf) by (apply IZR_lt; exact Hnf).
  set (x := - (IZR k / IZR nf)).
  assert (Hx : 6 * x = INR p).
  { apply (f_equal IZR) in Hp. rewrite !mult_IZR, <- INR_IZR_INZ in Hp.
    unfold x. apply Rmult_eq_reg_l with (IZR nf); [|lra].
    rewrite Hp. field. lra. }
  assert (Ha : 0 < 1000 / (101 / 100 * n)) by (apply Rdiv_lt_0_compat; lra).
  assert (Hb : 0 < 1000 / (99 / 100 * n)) by (apply Rdiv_lt_0_compat; lra).
  assert (H1 : 1000 / (101 / 100 * n) <= Rpower octave_ratio x).
  { apply octave_ratio_power_ge with (p := p); [lra | exact Hlo | lra]. }
  assert (H2 : Rpower octave_ratio x <= 1000 / (99 / 100 * n)).
  { apply octave_ratio_power_le with (p := p); [lra | exact Hhi | lra]. }
  replace (IZR k / IZR nf) with (- x) by (unfold x; lra).
  pose proof (Rpower_octave_ratio_inv x) as Hinv.
  set (y := Rpower octave_ratio x) in *.
  set (y' := Rpower octave_ratio (- x)) in *.
  assert (Hy : 0 < y) by lra.
  assert (Hy' : 0 < y') by nra.
  assert (Hq1 : 1000 = 1000 / (101 / 100 * n) * (101 / 100 * n))
    by (field; lra).
  assert (Hq2 : 1000 = 1000 / (99 / 100 * n) * (99 / 100 * n))
    by (field; lra).
  set (a := 1000 / (101 / 100 * n)) in *.
  set (b := 1000 / (99 / 100 * n)) in *.
  split.
  - apply Rmult_le_reg_r with y; [exact Hy|].
    replace (1000 * y' * y) with (1000 * (y' * y)) by ring.
    rewrite Hinv, Rmult_1_r.
    assert (99 / 100 * n * y <= 99 / 100 * n * b)
      by (apply Rmult_le_compat_l; lra).
    lra.
  - apply Rmult_le_reg_r with y; [exact Hy|].
    replace (1000 * y' * y) with (1000 * (y' * y)) by ring.
    rewrite Hinv, Rmult_1_r.
    assert (101 / 100 * n * a <= 101 / 100 * n * y)
      by (apply Rmult_le_compat_l; lra).
    lra.
Qed.

Ltac power_bounds :=
  first [lra | lia | (simpl; lra)].

Lemma iec_exact_close (num_fractions : Z) (j : nat) (n : R) :
  num_fractions = 1%Z \/ num_fractions = 3%Z ->
  iec_table num_fractions !! j = Some n ->
  99 / 100 * n
  <= 1000 * Rpower octave_ratio
              (IZR (iec_band_index num_fractions j) / IZR num_fractions)
  <= 101 / 100 * n.
Proof.
  intros [-> | ->] Hn; unfold iec_table in Hn.
  - rewrite decide_True in Hn by reflexivity. unfold nominal_octaves in Hn.
    cbn [lookup list_lookup] in Hn.
  destruct j as [|j];
    [injection Hn as <-; change (iec_band_index 1 0) with (-5)%Z;
     apply (octave_power_close_neg _ (-5) 1 30); power_bounds|].
  destruct j as [|j];
    [injection Hn as <-; change (iec_band_index 1 1) with (-4)%Z;
     apply (octave_power_close_neg _ (-4) 1 24); power_bounds|].
  destruct j as [|j];
    [injection Hn as <-; change (iec_band_index 1 2) with (-3)%Z;
     apply (octave_power_close_neg _ (-3) 1 18); power_bounds|].
  destruct j as [|j];
    [injection Hn as <-; change (iec_band_index 1 3) with (-2)%Z;
     apply (octave_power_close_neg _ (-2) 1 12); power_bounds|].
  destruct j as [|j];
    [injection Hn as <-; change (iec_band_index 1 4) with (-1)%Z;
     apply (octave_power_close_neg _ (-1) 1 6); power_bounds|].
  destruct j as [|j];
    [injection Hn as <-; change (iec_band_index 1 5) with (0)%Z;
     apply (octave_power_close_pos _ 0 1 0); power_bounds|].
  destruct j as [|j];
    [injection Hn as <-; change (iec_band_index 1 6) with (1)%Z;
     apply (octave_power_close_pos _ 1 1 6); power_bounds|].
  destruct j as [|j];
    [injection Hn as <-; change (iec_band_index 1 7) with (2)%Z;
     apply (octave_power_close_pos _ 2 1 12); power_bounds|].
  destruct j as [|j];
    [injection Hn as <-; change (iec_band_index 1 8) with (3)%Z;
     apply (octave_power_close_pos _ 3 1 18); power_bounds|].
  destruct j as [|j];
    [injection Hn as <-; change (iec_band_index 1 9) with (4)%Z;
     apply (octave_power_close_pos _ 4 1 24); power_bounds|].
    discriminate Hn.
  - rewrite decide_False in Hn by lia. unfold nominal_third_octaves in Hn.
    cbn [lookup list_lookup] in Hn.
  destruct j as [|j];
    [injection Hn as <-; change (iec_band_index 3 0) with (-16)%Z;
     apply (octave_power_close_neg _ (-16) 3 32); power_bounds|].
  destruct j as [|j];
    [injection Hn as <-; change (iec_band_index 3 1) with (-15)%Z;
     apply (octave_power_close_neg _ (-15) 3 30); power_bounds|].
  destruct j as [|j];
    [injection Hn as <-; change (iec_band_index 3 2) with (-14)%Z;
     apply (octave_power_close_neg _ (-14) 3 28); power_bounds|].
  destruct j as [|j];
    [injection Hn as <-; change (iec_band_index 3 3) with (-13)%Z;
     apply (octave_power_close_neg _ (-13) 3 26); power_bounds|].
  destruct j as [|j];
    [injection Hn as <-; change (iec_band_index 3 4) with (-12)%Z;
     apply (octave_power_close_neg _ (-12) 3 24); power_bounds|].
  destruct j as [|j];
    [injection Hn as <-; change (iec_band_index 3 5) with (-11)%Z;
     apply (octave_power_close_neg _ (-11) 3 22); power_bounds|].
  destruct j as [|j];
    [injection Hn as <-; change (iec_band_index 3 6) with (-10)%Z;
     apply (octave_power_close_neg _ (-10) 3 20); power_bounds|].
  destruct j as [|j];
    [injection Hn as <-; change (iec_band_index 3 7) with (-9)%Z;
     apply (octave_power_close_neg _ (-9) 3 18); power_bounds|].
  destruct j as [|j];
    [injection Hn as <-; change (iec_band_index 3 8) with (-8)%Z;
     apply (octave_power_close_neg _ (-8) 3 16); power_bounds|].
  destruct j as [|j];
    [injection Hn as <-; change (iec_band_index 3 9) with (-7)%Z;
     apply (octave_power_close_neg _ (-7) 3 14); power_bounds|].
  destruct j as [|j];
    [injection Hn as <-; change (iec_band_index 3 10) with (-6)%Z;
     apply (octave_power_close_neg _ (-6) 3 12); power_bounds|].
  destruct j as [|j];
    [injection Hn as <-; change (iec_band_index 3 11) with (-5)%Z;
     apply (octave_power_close_neg _ (-5) 3 10); power_bounds|].
  destruct j as [|j];
    [injection Hn as <-; change (iec_band_index 3 12) with (-4)%Z;
     apply (octave_power_close_neg _ (-4) 3 8); power_bounds|].
  destruct j as [|j];
    [injection Hn as <-; change (iec_band_index 3 13) with (-3)%Z;
     apply (octave_power_close_neg _ (-3) 3 6); power_bounds|].
  destruct j as [|j];
    [injection Hn as <-; change (iec_band_index 3 14) with (-2)%Z;
     apply (octave_power_close_neg _ (-2) 3 4); power_bounds|].
  destruct j as [|j];
    [injection Hn as <-; change (iec_band_index 3 15) with (-1)%Z;
     apply (octave_power_close_neg _ (-1) 3 2); power_bounds|].
  destruct j as [|j];
    [injection Hn as <-; change (iec_band_index 3 16) with (0)%Z;
     apply (octave_power_close_pos _ 0 3 0); power_bounds|].
  destruct j as [|j];
    [injection Hn as <-; change (iec_band_index 3 17) with (1)%Z;
     apply (octave_power_close_pos _ 1 3 2); power_bounds|].
  destruct j as [|j];
    [injection Hn as <-; change (iec_band_index 3 18) with (2)%Z;
     apply (octave_power_close_pos _ 2 3 4); power_bounds|].
  destruct j as [|j];
    [injection Hn as <-; change (iec_band_index 3 19) with (3)%Z;
     apply (octave_power_close_pos _ 3 3 6); power_bounds|].
  destruct j as [|j];
    [injection Hn as <-; change (iec_band_index 3 20) with (4)%Z;
     apply (octave_power_close_pos _ 4 3 8); power_bounds|].
  destruct j as [|j];
    [injection Hn as <-; change (iec_band_index 3 21) with (5)%Z;
     apply (octave_power_close_pos _ 5 3 10); power_bounds|].
  destruct j as [|j];
    [injection Hn as <-; change (iec_band_index 3 22) with (6)%Z;
     apply (octave_power_close_pos _ 6 3 12); power_bounds|].
  destruct j as [|j];
    [injection Hn as <-; change (iec_band_index 3 23) with (7)%Z;
     apply (octave_power_close_pos _ 7 3 14); power_bounds|].
  destruct j as [|j];
    [injection Hn as <-; change (iec_band_index 3 24) with (8)%Z;
     apply (octave_power_close_pos _ 8 3 16); power_bounds|].
  destruct j as [|j];
    [injection Hn as <-; change (iec_band_index 3 25) with (9)%Z;
     apply (octave_power_close_pos _ 9 3 18); power_bounds|].
  destruct j as [|j];
    [injection Hn as <-; change (iec_band_index 3 26) with (10)%Z;
     apply (octave_power_close_pos _ 10 3 20); power_bounds|].
  destruct j as [|j];
    [injection Hn as <-; change (iec_band_index 3 27) with (11)%Z;
     apply (octave_power_close_pos _ 11 3 22); power_bounds|].
  destruct j as [|j];
    [injection Hn as <-; change (iec_band_index 3 28) with (12)%Z;
     apply (octave_power_close_pos _ 12 3 24); power_bounds|].
  destruct j as [|j];
    [injection Hn as <-; change (iec_band_index 3 29) with (13)%Z;
     apply (octave_power_close_pos _ 13 3 26); power_bounds|].
    discriminate Hn.
Qed.

(** X20. The nominal frequencies of the standard are the exact frequencies
    rounded: for one and three fractions per octave every exact centre
    frequency returned lies within one per cent of its nominal frequency. *)
Theorem nominal_close_to_exact (num_fractions : Z) (lo hi : R) :
  num_fractions = 1%Z \/ num_fractions = 3%Z -> lo <= hi ->
  exists fr nom,
    fractional_octave_frequencies num_fractions [lo; hi] true = inr fr
    /\ nominal fr = Some nom
    /\ forall (i : nat) (n e : R),
         nom !! i = Some n -> exact fr !! i = Some e ->
         Rabs (e - n) <= n / 100.
Proof.
  intros Hnf Hle. eexists _, _.
  split; [apply (iec_frequencies _ _ _ true Hnf Hle)|].
  cbn [nominal exact]. split; [reflexivity|].
  intros i n e Hn He.
  destruct (select_lookup_pair _ _ _ _ _ _ Hn He) as (j & _ & Hj & Hej).
  rewrite list_lookup_fmap in Hej.
  destruct (seq 0 (length (iec_table num_fractions)) !! j) as [k|] eqn:Hk;
    [|done].
  apply lookup_seq in Hk as [-> _]. cbn in Hej. injection Hej as <-.
  pose proof (iec_exact_close num_fractions j n Hnf Hj) as [H1 H2].
  unfold reference_freq. apply Rabs_le. lra.
Qed.

Lemma nominal_close_to_exact_witness :
  exists fr nom,
    fractional_octave_frequencies 3 [20; 20000] true = inr fr
    /\ nominal fr = Some nom
    /\ forall (i : nat) (n e : R),
         nom !! i = Some n -> exact fr !! i = Some e ->
         Rabs (e - n) <= n / 100.
Proof.
  apply (nominal_close_to_exact 3 20 20000); [right; reflexivity | lra].
Defined.
